(** * Multi-cam view: camera registry, scene selection and feed effects

    A shallow embedding of [js/multi-cam-view.js].  The page keeps a handful
    of module-level variables (the camera registry, the active camera id, the
    pan flag, one timer handle and one animation-frame handle) and mutates the
    document and the host's timer queues.  All of that is threaded here as one
    explicit [State] value; every JavaScript function becomes a state
    transformer with the same name.

    Modelling conventions.
    - Strings are Rocq strings; case mapping and white space are the ASCII
      ones (non-ASCII code points are left alone).
    - The registry object [cameras] is a finite map keyed by camera id; its
      own properties only (inherited [Object.prototype] members are not part
      of the registry).
    - JavaScript numbers are exact: integers are [Z], reals are [Q].  The
      rounding of IEEE doubles is not modelled; the rounding done by the
      byte buffer of an [ImageData] ([Uint8ClampedArray]) is.
    - [Math.random()] is a value handed in by the environment.
    - [setTimeout] and [requestAnimationFrame] hand out positive handles and
      keep a table of pending callbacks; a callback runs as a separate
      event.
    - Loading works on a [Page]: the session state together with the
      children of the list panel (section headers, camera entries, notices,
      as nodes rather than markup), the [sections] object and the property
      names of [cameras] in creation order.  [Object.keys] lists array
      indices first, ascending, then the other names as created.  The
      outcome of the fetch is an input of [loadCameras]. *)

From Stdlib Require Import ZArith QArith Qround Lia Lqa.
From Stdlib Require Import Strings.String Strings.Ascii Sorting.Sorted.
From Stdlib Require Import DecimalString.
From stdpp Require Import gmap strings list.

Local Open Scope string_scope.
Local Open Scope Z_scope.

(* ===================================================================== *)
(** * JavaScript strings                                                  *)
(* ===================================================================== *)

Definition asciiUpper (c : ascii) : ascii :=
  let n := nat_of_ascii c in
  if ((97 <=? n)%nat && (n <=? 122)%nat)%bool then ascii_of_nat (n - 32) else c.

Definition asciiLower (c : ascii) : ascii :=
  let n := nat_of_ascii c in
  if ((65 <=? n)%nat && (n <=? 90)%nat)%bool then ascii_of_nat (n + 32) else c.

Fixpoint mapString (f : ascii -> ascii) (s : string) : string :=
  match s with
  | EmptyString => EmptyString
  | String c r => String (f c) (mapString f r)
  end.

Definition toUpperCase : string -> string := mapString asciiUpper.
Definition toLowerCase : string -> string := mapString asciiLower.

(** [s.endsWith(suffix)] *)
Definition endsWith (s suffix : string) : bool :=
  let n := String.length s in
  let k := String.length suffix in
  ((k <=? n)%nat && String.eqb (String.substring (n - k) k s) suffix)%bool.

(** White space recognised by [trim], [parseInt] and [parseFloat]:
    TAB, LF, VT, FF, CR and SPACE. *)
Definition isStrWhiteSpace (c : ascii) : bool :=
  let n := nat_of_ascii c in
  (((9 <=? n)%nat && (n <=? 13)%nat) || (n =? 32)%nat)%bool.

Fixpoint trimStart (s : string) : string :=
  match s with
  | EmptyString => EmptyString
  | String c r => if isStrWhiteSpace c then trimStart r else s
  end.

Fixpoint trimEnd (s : string) : string :=
  match s with
  | EmptyString => EmptyString
  | String c r =>
      match trimEnd r with
      | EmptyString => if isStrWhiteSpace c then EmptyString else String c EmptyString
      | r' => String c r'
      end
  end.

Definition trim (s : string) : string := trimEnd (trimStart s).

(** A string is truthy when it is not empty; [v || d] on a property that may
    be [undefined] ([None]). *)
Definition strOr (v : option string) (d : string) : string :=
  match v with
  | Some EmptyString | None => d
  | Some s => s
  end.

(** [ToString] of a property value handed to a parsing function. *)
Definition toStringV (v : option string) : string :=
  match v with
  | Some s => s
  | None => "undefined"
  end.

(* ===================================================================== *)
(** * JavaScript numbers: [parseInt], [parseFloat], [||]                  *)
(* ===================================================================== *)

Definition digitValue (radix : Z) (c : ascii) : option Z :=
  let n := Z.of_nat (nat_of_ascii c) in
  let d :=
    if (48 <=? n) && (n <=? 57) then Some (n - 48)
    else if (97 <=? n) && (n <=? 122) then Some (n - 87)
    else if (65 <=? n) && (n <=? 90) then Some (n - 55)
    else None in
  match d with
  | Some v => if v <? radix then Some v else None
  | None => None
  end.

(** The longest prefix of radix digits, as a number; [None] when the prefix
    is empty.  Also returns what follows the prefix. *)
Fixpoint readDigits (radix : Z) (s : string) (acc : Z) (count : nat)
  : option (Z * nat) * string :=
  match s with
  | EmptyString => (if count is O then None else Some (acc, count), s)
  | String c r =>
      match digitValue radix c with
      | Some d => readDigits radix r (acc * radix + d) (S count)
      | None => (if count is O then None else Some (acc, count), s)
      end
  end.

(** [parseInt(string)] with no radix argument; [None] is [NaN]. *)
Definition parseInt (v : option string) : option Z :=
  let s1 := trimStart (toStringV v) in
  let '(sign, s2) :=
    match s1 with
    | String "-" r => (-1, r)
    | String "+" r => (1, r)
    | _ => (1, s1)
    end in
  let '(radix, s3) :=
    match s2 with
    | String "0" (String "x" r) => (16, r)
    | String "0" (String "X" r) => (16, r)
    | _ => (10, s2)
    end in
  match fst (readDigits radix s3 0 O) with
  | Some (n, _) => Some (sign * n)
  | None => None
  end.

(** The numbers [parseFloat] can return. *)
Inductive JsNum : Type :=
  | JNaN
  | JInf (negative : bool)
  | JFin (q : Q).

Definition startsWith (s pre : string) : bool :=
  String.eqb (String.substring 0 (String.length pre) s) pre.

Definition pow10 (e : Z) : Q :=
  if 0 <=? e then inject_Z (10 ^ e) else Qinv (inject_Z (10 ^ (- e))).

(** The exponent part [e[+-]digits], when one is present at the head of [s]. *)
Definition readExponent (s : string) : Z :=
  match s with
  | String c r =>
      if (Ascii.eqb c "e" || Ascii.eqb c "E")%bool then
        let '(esign, r') :=
          match r with
          | String "-" r1 => (-1, r1)
          | String "+" r1 => (1, r1)
          | _ => (1, r)
          end in
        match fst (readDigits 10 r' 0 O) with
        | Some (e, _) => esign * e
        | None => 0
        end
      else 0
  | EmptyString => 0
  end.

(** [parseFloat(string)]: the longest prefix that is a decimal literal. *)
Definition parseFloat (v : option string) : JsNum :=
  let s1 := trimStart (toStringV v) in
  let '(neg, s2) :=
    match s1 with
    | String "-" r => (true, r)
    | String "+" r => (false, r)
    | _ => (false, s1)
    end in
  if startsWith s2 "Infinity" then JInf neg
  else
    let '(ip, s3) := readDigits 10 s2 0 O in
    let '(fp, s4) :=
      match s3 with
      | String "." r => readDigits 10 r 0 O
      | _ => (None, s3)
      end in
    let mantissa : option Q :=
      match ip, fp with
      | None, None => None
      | Some (i, _), None => Some (inject_Z i)
      | None, Some (f, k) => Some (inject_Z f * pow10 (- Z.of_nat k))%Q
      | Some (i, _), Some (f, k) =>
          Some (inject_Z i + inject_Z f * pow10 (- Z.of_nat k))%Q
      end in
    match mantissa with
    | None => JNaN
    | Some m =>
        let q := (m * pow10 (readExponent s4))%Q in
        JFin (Qred (if neg then - q else q))
    end.

Arguments parseInt : simpl never.
Arguments parseFloat : simpl never.

(** Truthiness of a number: everything but [NaN] and zero. *)
Definition truthyNum (n : JsNum) : bool :=
  match n with
  | JNaN => false
  | JInf _ => true
  | JFin q => negb (Qeq_bool q 0)
  end.

(** [n || d] on numbers. *)
Definition numOr (n : JsNum) (d : JsNum) : JsNum :=
  if truthyNum n then n else d.

(** [n || d] on the result of [parseInt]. *)
Definition intOr (n : option Z) (d : Z) : Z :=
  match n with
  | Some z => if z =? 0 then d else z
  | None => d
  end.

(* ===================================================================== *)
(** * Camera registry                                                     *)
(* ===================================================================== *)

Record Camera : Type := mkCamera {
  camId : string;
  section : string;
  location : string;
  status : string;
  distance : string;
  hudText : string;
  imageUrl : string;
  panEnabled : bool;
  panDuration : JsNum;
  glitchMinMs : Z;
  glitchMaxMs : Z
}.

(** A parsed row: lower-cased header name to cell text. *)
Abbreviation Entry := (gmap string string).

(** [parseSheetData]: the first row gives the property names. *)
Definition entryOfRow (headers row : list string) : Entry :=
  foldl (fun obj '(index, header) => <[header := strOr (row !! index) ""]> obj)
        ∅ (imap (fun i h => (i, h)) headers).

Definition parseSheetData (rows : list (list string)) : list Entry :=
  match rows with
  | [] => []
  | hrow :: dataRows =>
      let headers := map (fun h => toLowerCase (trim h)) hrow in
      map (entryOfRow headers) dataRows
  end.

(** The object literal built for one entry in [loadCameras]. *)
Definition cameraOfEntry (entry : Entry) : Camera :=
  {| camId := strOr (entry !! "camid") "";
     section := strOr (entry !! "section") "UNKNOWN";
     location := strOr (entry !! "location") "Unknown Location";
     status := toUpperCase (strOr (entry !! "status") "OFFLINE");
     distance := strOr (entry !! "distance") "--";
     hudText := strOr (entry !! "hudtext") "CAMERA FEED";
     imageUrl := strOr (entry !! "imageurl") "";
     panEnabled :=
       match entry !! "panenabled" with
       | Some p => (String.eqb p "true" || String.eqb p "TRUE")%bool
       | None => false
       end;
     panDuration := numOr (parseFloat (entry !! "panduration")) (JFin 7);
     glitchMinMs := intOr (parseInt (entry !! "glitchminms")) 400;
     glitchMaxMs := intOr (parseInt (entry !! "glitchmaxms")) 1200 |}.

(** The [forEach] of [loadCameras]: entries with an empty [camId] are
    skipped, a later row with the same id replaces the earlier one. *)
Definition registerEntries (entries : list Entry) (cams : gmap string Camera)
  : gmap string Camera :=
  foldl (fun acc entry =>
           let cam := cameraOfEntry entry in
           if String.eqb (camId cam) "" then acc else <[camId cam := cam]> acc)
        cams entries.

(* ===================================================================== *)
(** * Lost-signal noise: the pixel buffer and the passes of [drawNoise]   *)
(* ===================================================================== *)

(** Conversion done by a [Uint8ClampedArray] on every store: clamp to
    0..255 and round to the nearest integer, ties to even. *)
Definition toUint8Clamp (q : Q) : Z :=
  match (q ?= 0)%Q with
  | Lt | Eq => 0
  | Gt =>
      match (q ?= 255)%Q with
      | Gt | Eq => 255
      | Lt =>
          let f := Qfloor q in
          match (q ?= inject_Z f + (1 # 2))%Q with
          | Lt => f
          | Gt => f + 1
          | Eq => if Z.even f then f else f + 1
          end
      end
  end.

(** [data[i] = v]; a store past the end of a typed array is ignored. *)
Definition writeByte (i : nat) (v : Q) (data : list Z) : list Z :=
  <[i := toUint8Clamp v]> data.

(** [data[i]] for an index inside the array. *)
Definition readByte (i : nat) (data : list Z) : Z := default 0 (data !! i).

(** Number of iterations of [for (i = 0; i < data.length; i += 4)]. *)
Definition pixelCount (data : list Z) : nat := ((length data + 3) / 4)%nat.

(** Base random static: one draw per pixel, in pixel order. *)
Definition baseStep (rnd : nat -> Q) (data : list Z) (p : nat) : list Z :=
  let i := (4 * p)%nat in
  let base := (100 + rnd p * 70)%Q in
  let data := writeByte (i + 2) base data in
  let data := writeByte (i + 1) base data in
  let data := writeByte i base data in
  writeByte (i + 3) 255 data.

Definition basePass (rnd : nat -> Q) (data : list Z) : list Z :=
  foldl (baseStep rnd) data (seq 0 (pixelCount data)).

(** [a % b] on numbers (the sign follows the dividend). *)
Definition truncQ (q : Q) : Z := if Qle_bool 0 q then Qfloor q else Qceiling q.

Definition jsRem (a b : Q) : Q := (a - b * inject_Z (truncQ (a / b)))%Q.

Definition bandRow (t : Q) (smallH : nat) : Z :=
  Qfloor (jsRem (t * 20) (inject_Z (Z.of_nat smallH))).

(** One pixel of the luminance band. *)
Definition brighten (idx : nat) (data : list Z) : list Z :=
  writeByte idx (inject_Z (Z.min 255 (readByte idx data + 10))) data.

Definition bandPixel (smallW y : nat) (data : list Z) (x : nat) : list Z :=
  let idx := ((y * smallW + x) * 4)%nat in
  let data := brighten idx data in
  let data := brighten (idx + 1) data in
  brighten (idx + 2) data.

Definition bandLine (smallW smallH : nat) (data : list Z) (y : Z) : list Z :=
  if (y <? 0) || (Z.of_nat smallH <=? y) then data
  else foldl (bandPixel smallW (Z.to_nat y)) data (seq 0 smallW).

(** [for (let y = bandY - 3; y < bandY + 3; y++)] *)
Definition bandPass (smallW smallH : nat) (bandY : Z) (data : list Z) : list Z :=
  foldl (bandLine smallW smallH) data (seqZ (bandY - 3) 6).

(** [v | 0] for the values met here: truncation, wrapped to 32 bits. *)
Definition toInt32 (q : Q) : Z :=
  (truncQ q + 2 ^ 31) mod 2 ^ 32 - 2 ^ 31.

Definition speckleCount (smallW smallH : nat) : nat :=
  Z.to_nat (Qfloor (inject_Z (Z.of_nat (smallW * smallH)) * (2 # 1000))).

(** One speckle: two draws, column then row. *)
Definition speckleStep (smallW smallH : nat) (rnd : nat -> Q) (first : nat)
    (data : list Z) (k : nat) : list Z :=
  let x := toInt32 (rnd (first + 2 * k)%nat * inject_Z (Z.of_nat smallW)) in
  let y := toInt32 (rnd (first + 2 * k + 1)%nat * inject_Z (Z.of_nat smallH)) in
  let idx := (y * Z.of_nat smallW + x) * 4 in
  if idx <? 0 then data
  else
    let i := Z.to_nat idx in
    let data := writeByte (i + 2) 255 data in
    let data := writeByte (i + 1) 255 data in
    writeByte i 255 data.

Definition specklePass (smallW smallH : nat) (rnd : nat -> Q) (first : nat)
    (data : list Z) : list Z :=
  foldl (speckleStep smallW smallH rnd first) data
        (seq 0 (speckleCount smallW smallH)).

Definition blend : Q := 85 # 100.

Definition blendChannel (prev : list Z) (i : nat) (data : list Z) : list Z :=
  writeByte i (inject_Z (readByte i data) * (1 - blend)
               + inject_Z (readByte i prev) * blend)%Q data.

Definition blendStep (prev : list Z) (data : list Z) (p : nat) : list Z :=
  let i := (4 * p)%nat in
  let data := blendChannel prev i data in
  let data := blendChannel prev (i + 1) data in
  blendChannel prev (i + 2) data.

(** Temporal blend with the previous frame. *)
Definition blendPass (prev data : list Z) : list Z :=
  foldl (blendStep prev) data (seq 0 (pixelCount data)).

(** The variables closed over by one call of [startLostSignalEffect]. *)
Record NoiseGen : Type := mkNoiseGen {
  gen_canvas : positive;          (* the canvas drawn on *)
  gen_w : Z;
  gen_h : Z;
  gen_smallW : nat;
  gen_smallH : nat;
  gen_data : list Z;              (* [buffer.data], RGBA bytes *)
  gen_last : Q;
  gen_t : Q;
  gen_prev : option (list Z);
  gen_shown : option (list Z)     (* last buffer put on the canvas *)
}.

Definition scale : Q := 28 # 100.
Definition fps : Q := 24.
Definition frameInterval : Q := 1000 / fps.

Definition smallDim (full : Z) : nat :=
  Z.to_nat (Z.max 64 (Qfloor (inject_Z full * scale))).

(** [ctx.createImageData(w, h).data]: transparent black. *)
Definition createImageData (w h : nat) : list Z := replicate (4 * (w * h)) 0.

(** Closure state right after [startLostSignalEffect] set it up. *)
Definition newGenerator (canvas : positive) (w h : Z) : NoiseGen :=
  {| gen_canvas := canvas; gen_w := w; gen_h := h;
     gen_smallW := smallDim w; gen_smallH := smallDim h;
     gen_data := createImageData (smallDim w) (smallDim h);
     gen_last := 0; gen_t := 0; gen_prev := None; gen_shown := None |}.

(** The buffer of a frame before the temporal blend: base static, band,
    speckles.  [t] is the elapsed time of this frame, in seconds. *)
Definition rawFrame (smallW smallH : nat) (t : Q) (rnd : nat -> Q)
    (data : list Z) : list Z :=
  let data1 := basePass rnd data in
  let data2 := bandPass smallW smallH (bandRow t smallH) data1 in
  specklePass smallW smallH rnd (pixelCount data) data2.

(** [if (prev && prev.length === data.length) ...] *)
Definition blendWith (prev : option (list Z)) (data : list Z) : list Z :=
  match prev with
  | Some p => if (length p =? length data)%nat then blendPass p data else data
  | None => data
  end.

(** One call of [drawNoise(now)].  The boolean tells whether a frame was
    rendered; in both cases the caller requests the next animation frame. *)
Definition drawNoise (now : Q) (rnd : nat -> Q) (g : NoiseGen) : NoiseGen * bool :=
  match (now - gen_last g ?= frameInterval)%Q with
  | Lt => (g, false)
  | _ =>
      let dt := ((now - gen_last g) / 1000)%Q in
      let t := (gen_t g + dt)%Q in
      let data := rawFrame (gen_smallW g) (gen_smallH g) t rnd (gen_data g) in
      let data := blendWith (gen_prev g) data in
      ({| gen_canvas := gen_canvas g; gen_w := gen_w g; gen_h := gen_h g;
          gen_smallW := gen_smallW g; gen_smallH := gen_smallH g;
          gen_data := data; gen_last := now; gen_t := t;
          gen_prev := Some data; gen_shown := Some data |}, true)
  end.

Arguments newGenerator : simpl never.
Arguments drawNoise : simpl never.

(* ===================================================================== *)
(** * Document, timers and session state                                  *)
(* ===================================================================== *)

Inductive Tag : Type := IMG | VIDEO | DIV | CANVAS.

Record Element : Type := mkElement {
  tagName : Tag;
  className : string;
  src : string;
  alt : string;
  innerHTML : string;
  width : Z;
  height : Z;
  flags : list string;                    (* boolean properties set to true *)
  attributes : list (string * string);    (* [setAttribute] calls *)
  animationDuration : option JsNum;       (* seconds *)
  animationPlayState : option string;
  childNodes : list positive
}.

Definition blankElement (tag : Tag) : Element :=
  {| tagName := tag; className := ""; src := ""; alt := ""; innerHTML := "";
     width := 0; height := 0; flags := []; attributes := [];
     animationDuration := None; animationPlayState := None; childNodes := [] |}.

Definition setPlayState (v : string) (e : Element) : Element :=
  {| tagName := tagName e; className := className e; src := src e;
     alt := alt e; innerHTML := innerHTML e; width := width e;
     height := height e; flags := flags e; attributes := attributes e;
     animationDuration := animationDuration e;
     animationPlayState := Some v; childNodes := childNodes e |}.

Definition appendChild (child : positive) (e : Element) : Element :=
  {| tagName := tagName e; className := className e; src := src e;
     alt := alt e; innerHTML := innerHTML e; width := width e;
     height := height e; flags := flags e; attributes := attributes e;
     animationDuration := animationDuration e;
     animationPlayState := animationPlayState e;
     childNodes := childNodes e ++ [child] |}.

(** What a pending timeout will run. *)
Inductive TimerCallback : Type :=
  | CbBump (min max : Z)            (* [bump] of [triggerGlitch(min, max)] *)
  | CbDelayedPlay (video : positive). (* the 500 ms play retry of a video *)

Record TimerTask : Type := mkTimerTask {
  callback : TimerCallback;
  delay : Q
}.

Definition isBump (task : TimerTask) : bool :=
  match callback task with
  | CbBump _ _ => true
  | CbDelayedPlay _ => false
  end.

(** One [.cam] entry of the camera list. *)
Record CamItem : Type := mkCamItem {
  dataId : string;
  active : bool
}.

Record State : Type := mkState {
  (* module variables of the script *)
  cameras : gmap string Camera;
  activeId : option string;
  panPaused : bool;
  panNode : option positive;
  glitchTimer : option positive;
  lostSignalAnimationId : option positive;
  (* the document *)
  elements : gmap positive Element;
  nextElement : positive;
  viewChildren : list positive;
  viewOffsetWidth : Z;
  viewOffsetHeight : Z;
  labelText : string;
  stateText : string;
  hudElText : string;
  togglePanText : string;
  glitchShow : bool;
  viewAriaLabel : option string;
  camItems : list CamItem;
  (* the host's queues *)
  timers : gmap positive TimerTask;
  nextTimer : positive;
  frames : gmap positive positive;
  nextFrame : positive;
  generators : gmap positive NoiseGen;
  nextGenerator : positive;
  console : list string
}.

(** Field updates. *)
Definition set_activeId (v : option string) (s : State) : State :=
  mkState (cameras s) v (panPaused s) (panNode s) (glitchTimer s)
    (lostSignalAnimationId s) (elements s) (nextElement s) (viewChildren s)
    (viewOffsetWidth s) (viewOffsetHeight s) (labelText s) (stateText s)
    (hudElText s) (togglePanText s) (glitchShow s) (viewAriaLabel s)
    (camItems s) (timers s) (nextTimer s) (frames s) (nextFrame s)
    (generators s) (nextGenerator s) (console s).

Definition set_panPaused (v : bool) (s : State) : State :=
  mkState (cameras s) (activeId s) v (panNode s) (glitchTimer s)
    (lostSignalAnimationId s) (elements s) (nextElement s) (viewChildren s)
    (viewOffsetWidth s) (viewOffsetHeight s) (labelText s) (stateText s)
    (hudElText s) (togglePanText s) (glitchShow s) (viewAriaLabel s)
    (camItems s) (timers s) (nextTimer s) (frames s) (nextFrame s)
    (generators s) (nextGenerator s) (console s).

Definition set_panNode (v : option positive) (s : State) : State :=
  mkState (cameras s) (activeId s) (panPaused s) v (glitchTimer s)
    (lostSignalAnimationId s) (elements s) (nextElement s) (viewChildren s)
    (viewOffsetWidth s) (viewOffsetHeight s) (labelText s) (stateText s)
    (hudElText s) (togglePanText s) (glitchShow s) (viewAriaLabel s)
    (camItems s) (timers s) (nextTimer s) (frames s) (nextFrame s)
    (generators s) (nextGenerator s) (console s).

Definition set_glitchTimer (v : option positive) (s : State) : State :=
  mkState (cameras s) (activeId s) (panPaused s) (panNode s) v
    (lostSignalAnimationId s) (elements s) (nextElement s) (viewChildren s)
    (viewOffsetWidth s) (viewOffsetHeight s) (labelText s) (stateText s)
    (hudElText s) (togglePanText s) (glitchShow s) (viewAriaLabel s)
    (camItems s) (timers s) (nextTimer s) (frames s) (nextFrame s)
    (generators s) (nextGenerator s) (console s).

Definition set_lostSignalAnimationId (v : option positive) (s : State) : State :=
  mkState (cameras s) (activeId s) (panPaused s) (panNode s) (glitchTimer s)
    v (elements s) (nextElement s) (viewChildren s) (viewOffsetWidth s)
    (viewOffsetHeight s) (labelText s) (stateText s) (hudElText s)
    (togglePanText s) (glitchShow s) (viewAriaLabel s) (camItems s) (timers
    s) (nextTimer s) (frames s) (nextFrame s) (generators s) (nextGenerator
    s) (console s).

Definition set_elements (v : gmap positive Element) (s : State) : State :=
  mkState (cameras s) (activeId s) (panPaused s) (panNode s) (glitchTimer s)
    (lostSignalAnimationId s) v (nextElement s) (viewChildren s)
    (viewOffsetWidth s) (viewOffsetHeight s) (labelText s) (stateText s)
    (hudElText s) (togglePanText s) (glitchShow s) (viewAriaLabel s)
    (camItems s) (timers s) (nextTimer s) (frames s) (nextFrame s)
    (generators s) (nextGenerator s) (console s).

Definition set_nextElement (v : positive) (s : State) : State :=
  mkState (cameras s) (activeId s) (panPaused s) (panNode s) (glitchTimer s)
    (lostSignalAnimationId s) (elements s) v (viewChildren s)
    (viewOffsetWidth s) (viewOffsetHeight s) (labelText s) (stateText s)
    (hudElText s) (togglePanText s) (glitchShow s) (viewAriaLabel s)
    (camItems s) (timers s) (nextTimer s) (frames s) (nextFrame s)
    (generators s) (nextGenerator s) (console s).

Definition set_viewChildren (v : list positive) (s : State) : State :=
  mkState (cameras s) (activeId s) (panPaused s) (panNode s) (glitchTimer s)
    (lostSignalAnimationId s) (elements s) (nextElement s) v
    (viewOffsetWidth s) (viewOffsetHeight s) (labelText s) (stateText s)
    (hudElText s) (togglePanText s) (glitchShow s) (viewAriaLabel s)
    (camItems s) (timers s) (nextTimer s) (frames s) (nextFrame s)
    (generators s) (nextGenerator s) (console s).

Definition set_labelText (v : string) (s : State) : State :=
  mkState (cameras s) (activeId s) (panPaused s) (panNode s) (glitchTimer s)
    (lostSignalAnimationId s) (elements s) (nextElement s) (viewChildren s)
    (viewOffsetWidth s) (viewOffsetHeight s) v (stateText s) (hudElText s)
    (togglePanText s) (glitchShow s) (viewAriaLabel s) (camItems s) (timers
    s) (nextTimer s) (frames s) (nextFrame s) (generators s) (nextGenerator
    s) (console s).

Definition set_stateText (v : string) (s : State) : State :=
  mkState (cameras s) (activeId s) (panPaused s) (panNode s) (glitchTimer s)
    (lostSignalAnimationId s) (elements s) (nextElement s) (viewChildren s)
    (viewOffsetWidth s) (viewOffsetHeight s) (labelText s) v (hudElText s)
    (togglePanText s) (glitchShow s) (viewAriaLabel s) (camItems s) (timers
    s) (nextTimer s) (frames s) (nextFrame s) (generators s) (nextGenerator
    s) (console s).

Definition set_hudElText (v : string) (s : State) : State :=
  mkState (cameras s) (activeId s) (panPaused s) (panNode s) (glitchTimer s)
    (lostSignalAnimationId s) (elements s) (nextElement s) (viewChildren s)
    (viewOffsetWidth s) (viewOffsetHeight s) (labelText s) (stateText s) v
    (togglePanText s) (glitchShow s) (viewAriaLabel s) (camItems s) (timers
    s) (nextTimer s) (frames s) (nextFrame s) (generators s) (nextGenerator
    s) (console s).

Definition set_togglePanText (v : string) (s : State) : State :=
  mkState (cameras s) (activeId s) (panPaused s) (panNode s) (glitchTimer s)
    (lostSignalAnimationId s) (elements s) (nextElement s) (viewChildren s)
    (viewOffsetWidth s) (viewOffsetHeight s) (labelText s) (stateText s)
    (hudElText s) v (glitchShow s) (viewAriaLabel s) (camItems s) (timers s)
    (nextTimer s) (frames s) (nextFrame s) (generators s) (nextGenerator s)
    (console s).

Definition set_glitchShow (v : bool) (s : State) : State :=
  mkState (cameras s) (activeId s) (panPaused s) (panNode s) (glitchTimer s)
    (lostSignalAnimationId s) (elements s) (nextElement s) (viewChildren s)
    (viewOffsetWidth s) (viewOffsetHeight s) (labelText s) (stateText s)
    (hudElText s) (togglePanText s) v (viewAriaLabel s) (camItems s) (timers
    s) (nextTimer s) (frames s) (nextFrame s) (generators s) (nextGenerator
    s) (console s).

Definition set_viewAriaLabel (v : option string) (s : State) : State :=
  mkState (cameras s) (activeId s) (panPaused s) (panNode s) (glitchTimer s)
    (lostSignalAnimationId s) (elements s) (nextElement s) (viewChildren s)
    (viewOffsetWidth s) (viewOffsetHeight s) (labelText s) (stateText s)
    (hudElText s) (togglePanText s) (glitchShow s) v (camItems s) (timers s)
    (nextTimer s) (frames s) (nextFrame s) (generators s) (nextGenerator s)
    (console s).

Definition set_camItems (v : list CamItem) (s : State) : State :=
  mkState (cameras s) (activeId s) (panPaused s) (panNode s) (glitchTimer s)
    (lostSignalAnimationId s) (elements s) (nextElement s) (viewChildren s)
    (viewOffsetWidth s) (viewOffsetHeight s) (labelText s) (stateText s)
    (hudElText s) (togglePanText s) (glitchShow s) (viewAriaLabel s) v
    (timers s) (nextTimer s) (frames s) (nextFrame s) (generators s)
    (nextGenerator s) (console s).

Definition set_timers (v : gmap positive TimerTask) (s : State) : State :=
  mkState (cameras s) (activeId s) (panPaused s) (panNode s) (glitchTimer s)
    (lostSignalAnimationId s) (elements s) (nextElement s) (viewChildren s)
    (viewOffsetWidth s) (viewOffsetHeight s) (labelText s) (stateText s)
    (hudElText s) (togglePanText s) (glitchShow s) (viewAriaLabel s)
    (camItems s) v (nextTimer s) (frames s) (nextFrame s) (generators s)
    (nextGenerator s) (console s).

Definition set_nextTimer (v : positive) (s : State) : State :=
  mkState (cameras s) (activeId s) (panPaused s) (panNode s) (glitchTimer s)
    (lostSignalAnimationId s) (elements s) (nextElement s) (viewChildren s)
    (viewOffsetWidth s) (viewOffsetHeight s) (labelText s) (stateText s)
    (hudElText s) (togglePanText s) (glitchShow s) (viewAriaLabel s)
    (camItems s) (timers s) v (frames s) (nextFrame s) (generators s)
    (nextGenerator s) (console s).

Definition set_frames (v : gmap positive positive) (s : State) : State :=
  mkState (cameras s) (activeId s) (panPaused s) (panNode s) (glitchTimer s)
    (lostSignalAnimationId s) (elements s) (nextElement s) (viewChildren s)
    (viewOffsetWidth s) (viewOffsetHeight s) (labelText s) (stateText s)
    (hudElText s) (togglePanText s) (glitchShow s) (viewAriaLabel s)
    (camItems s) (timers s) (nextTimer s) v (nextFrame s) (generators s)
    (nextGenerator s) (console s).

Definition set_nextFrame (v : positive) (s : State) : State :=
  mkState (cameras s) (activeId s) (panPaused s) (panNode s) (glitchTimer s)
    (lostSignalAnimationId s) (elements s) (nextElement s) (viewChildren s)
    (viewOffsetWidth s) (viewOffsetHeight s) (labelText s) (stateText s)
    (hudElText s) (togglePanText s) (glitchShow s) (viewAriaLabel s)
    (camItems s) (timers s) (nextTimer s) (frames s) v (generators s)
    (nextGenerator s) (console s).

Definition set_generators (v : gmap positive NoiseGen) (s : State) : State :=
  mkState (cameras s) (activeId s) (panPaused s) (panNode s) (glitchTimer s)
    (lostSignalAnimationId s) (elements s) (nextElement s) (viewChildren s)
    (viewOffsetWidth s) (viewOffsetHeight s) (labelText s) (stateText s)
    (hudElText s) (togglePanText s) (glitchShow s) (viewAriaLabel s)
    (camItems s) (timers s) (nextTimer s) (frames s) (nextFrame s) v
    (nextGenerator s) (console s).

Definition set_nextGenerator (v : positive) (s : State) : State :=
  mkState (cameras s) (activeId s) (panPaused s) (panNode s) (glitchTimer s)
    (lostSignalAnimationId s) (elements s) (nextElement s) (viewChildren s)
    (viewOffsetWidth s) (viewOffsetHeight s) (labelText s) (stateText s)
    (hudElText s) (togglePanText s) (glitchShow s) (viewAriaLabel s)
    (camItems s) (timers s) (nextTimer s) (frames s) (nextFrame s)
    (generators s) v (console s).

Definition set_console (v : list string) (s : State) : State :=
  mkState (cameras s) (activeId s) (panPaused s) (panNode s) (glitchTimer s)
    (lostSignalAnimationId s) (elements s) (nextElement s) (viewChildren s)
    (viewOffsetWidth s) (viewOffsetHeight s) (labelText s) (stateText s)
    (hudElText s) (togglePanText s) (glitchShow s) (viewAriaLabel s)
    (camItems s) (timers s) (nextTimer s) (frames s) (nextFrame s)
    (generators s) (nextGenerator s) v.

(* ===================================================================== *)
(** * Host services                                                       *)
(* ===================================================================== *)

(** [document.createElement] followed by the property assignments that
    give the element [e]; returns the new element's handle. *)
Definition createElement (e : Element) (s : State) : positive * State :=
  let h := nextElement s in
  (h, set_nextElement (Pos.succ h) (set_elements (<[h := e]> (elements s)) s)).

Definition updateElement (f : Element -> Element) (h : positive) (s : State)
  : State :=
  set_elements (alter f h (elements s)) s.

Definition setTimeout (cb : TimerCallback) (ms : Q) (s : State)
  : positive * State :=
  let h := nextTimer s in
  (h, set_nextTimer (Pos.succ h)
        (set_timers (<[h := mkTimerTask cb ms]> (timers s)) s)).

Definition clearTimeout (h : positive) (s : State) : State :=
  set_timers (delete h (timers s)) s.

(** [requestAnimationFrame(drawNoise)] for the closure [gen]. *)
Definition requestAnimationFrame (gen : positive) (s : State)
  : positive * State :=
  let h := nextFrame s in
  (h, set_nextFrame (Pos.succ h) (set_frames (<[h := gen]> (frames s)) s)).

Definition cancelAnimationFrame (h : positive) (s : State) : State :=
  set_frames (delete h (frames s)) s.

Definition consoleError (msg : string) (s : State) : State :=
  set_console (console s ++ [msg]) s.

(** Expose the fields of a state built by the host services and field
    updates. *)
Ltac fields :=
  unfold createElement, updateElement, setTimeout, clearTimeout,
    requestAnimationFrame, cancelAnimationFrame, consoleError in *;
  simpl in *.

(* ===================================================================== *)
(** * Glitch effects                                                      *)
(* ===================================================================== *)

Definition stopGlitch (s : State) : State :=
  let s :=
    match glitchTimer s with
    | Some h => set_glitchTimer None (clearTimeout h s)
    | None => s
    end in
  set_glitchShow false s.

(** The delay handed to [setTimeout] by [schedule]; [r] is the value of
    [Math.random()]. *)
Definition glitchDelay (min max : Z) (r : Q) : Q :=
  (r * inject_Z (max - min) + inject_Z min)%Q.

Definition schedule (min max : Z) (r : Q) (s : State) : State :=
  let '(h, s) := setTimeout (CbBump min max) (glitchDelay min max r) s in
  set_glitchTimer (Some h) s.

Definition bump (min max : Z) (r : Q) (s : State) : State :=
  (* remove 'show', force a reflow, add 'show' *)
  let s := set_glitchShow true s in
  schedule min max r s.

Definition triggerGlitch (min max : Z) (r : Q) (s : State) : State :=
  schedule min max r (stopGlitch s).

(* ===================================================================== *)
(** * Lost signal effect                                                  *)
(* ===================================================================== *)

Definition stopLostSignalEffect (s : State) : State :=
  match lostSignalAnimationId s with
  | Some h => set_lostSignalAnimationId None (cancelAnimationFrame h s)
  | None => s
  end.

(** [startLostSignalEffect(canvas)].  A handle that names no element makes
    [canvas.getContext] throw, after the running animation was stopped. *)
Definition startLostSignalEffect (canvas : positive) (s : State) : State :=
  let s := stopLostSignalEffect s in
  match elements s !! canvas with
  | None => s
  | Some el =>
      let gen := nextGenerator s in
      let s := set_nextGenerator (Pos.succ gen)
                 (set_generators
                    (<[gen := newGenerator canvas (width el) (height el)]>
                       (generators s)) s) in
      let '(h, s) := requestAnimationFrame gen s in
      set_lostSignalAnimationId (Some h) s
  end.

(* ===================================================================== *)
(** * Scene loading                                                       *)
(* ===================================================================== *)

Definition noFeedUrl : string :=
  "https://placehold.co/1600x600/031018/1d5b72?text=NO+CAMERA+FEED".

(** [n || d] on a dimension. *)
Definition dimOr (n d : Z) : Z := if n =? 0 then d else n.

(** The LOST SIGNAL branch: container, canvas and text overlay. *)
Definition mountLostSignal (s : State) : State :=
  let '(container, s) := createElement
    {| tagName := DIV; className := "lost-signal-container"; src := "";
       alt := ""; innerHTML := ""; width := 0; height := 0; flags := [];
       attributes := []; animationDuration := None;
       animationPlayState := None; childNodes := [] |} s in
  let '(canvas, s) := createElement
    {| tagName := CANVAS; className := "lost-signal-canvas"; src := "";
       alt := ""; innerHTML := "";
       width := dimOr (viewOffsetWidth s) 800;
       height := dimOr (viewOffsetHeight s) 600; flags := [];
       attributes := []; animationDuration := None;
       animationPlayState := None; childNodes := [] |} s in
  let '(textOverlay, s) := createElement
    {| tagName := DIV; className := "lost-signal-text"; src := ""; alt := "";
       innerHTML := "<span>NO SIGNAL</span>"; width := 0; height := 0;
       flags := []; attributes := []; animationDuration := None;
       animationPlayState := None; childNodes := [] |} s in
  let s := updateElement (appendChild canvas) container s in
  let s := updateElement (appendChild textOverlay) container s in
  let s := set_viewChildren (viewChildren s ++ [container]) s in
  let s := set_panNode None s in
  (* Start the static animation *)
  startLostSignalEffect canvas s.

Definition isVideo (cam : Camera) : bool :=
  (negb (String.eqb (imageUrl cam) "")
   && (endsWith (toLowerCase (imageUrl cam)) ".mp4"
       || endsWith (toLowerCase (imageUrl cam)) ".webm"
       || endsWith (toLowerCase (imageUrl cam)) ".mov"))%bool.

(** The media branch: a video or an image element, mounted in the view. *)
Definition mountMedia (cam : Camera) (s : State) : State :=
  let '(mediaElement, s) :=
    if isVideo cam then
      let '(video, s) := createElement
        {| tagName := VIDEO;
           className := if panEnabled cam then "pan" else "";
           src := imageUrl cam; alt := ""; innerHTML := "";
           width := 0; height := 0;
           flags := ["loop"; "muted"; "autoplay"; "playsInline"];
           attributes := [("playsinline", ""); ("webkit-playsinline", "")];
           animationDuration :=
             if panEnabled cam then Some (panDuration cam) else None;
           animationPlayState := None; childNodes := [] |} s in
      let '(_, s) := setTimeout (CbDelayedPlay video) 500 s in
      (video, s)
    else
      createElement
        {| tagName := IMG;
           className := if panEnabled cam then "pan" else "";
           src := if String.eqb (imageUrl cam) "" then noFeedUrl
                  else imageUrl cam;
           alt := location cam; innerHTML := "";
           width := 0; height := 0; flags := []; attributes := [];
           animationDuration :=
             if panEnabled cam then Some (panDuration cam) else None;
           animationPlayState := None; childNodes := [] |} s in
  let s := set_panNode (Some mediaElement) s in
  set_viewChildren (viewChildren s ++ [mediaElement]) s.

Definition glitchStatus (st : string) : bool :=
  (String.eqb st "FLICKER" || String.eqb st "INTERFERENCE"
   || String.eqb st "LOST SIGNAL")%bool.

(** [loadScene(id)]; [r] is the draw of [Math.random()] made when a glitch
    is scheduled. *)
Definition loadScene (id : string) (r : Q) (s : State) : State :=
  match cameras s !! id with
  | None => consoleError ("Camera " ++ id ++ " not found") s
  | Some cam =>
      let s := set_activeId (Some id) s in
      (* Stop any existing lost signal animation *)
      let s := stopLostSignalEffect s in
      (* Clear previous view *)
      let s := set_viewChildren [] s in
      let s :=
        if String.eqb (status cam) "LOST SIGNAL" then mountLostSignal s
        else mountMedia cam s in
      (* Update UI elements *)
      let s := set_labelText (location cam) s in
      let s := set_stateText (status cam) s in
      let s := set_hudElText
                 (hudText cam ++ "  |  CAMERA: " ++ toUpperCase (camId cam)) s in
      (* Update active camera highlight *)
      let s := set_camItems
                 (map (fun el => mkCamItem (dataId el) (String.eqb (dataId el) id))
                      (camItems s)) s in
      (* Reset pan button state *)
      let s := set_panPaused false s in
      let s := set_togglePanText "PAUSE PAN" s in
      let s :=
        match panNode s with
        | Some node =>
            if panEnabled cam then updateElement (setPlayState "running") node s
            else s
        | None => s
        end in
      (* Handle status-specific effects *)
      let s := stopGlitch s in
      let s :=
        if String.eqb (status cam) "FLICKER" then
          triggerGlitch (glitchMinMs cam) (glitchMaxMs cam) r s
        else if String.eqb (status cam) "INTERFERENCE" then
          triggerGlitch (glitchMinMs cam) (glitchMaxMs cam) r s
        else if String.eqb (status cam) "LOST SIGNAL" then
          triggerGlitch (glitchMinMs cam) (glitchMaxMs cam) r s
        else s in
      (* Update accessibility *)
      set_viewAriaLabel
        (Some ("Camera " ++ location cam ++ ". Status " ++ status cam ++ ".")) s
  end.

(** Click handler of the pan toggle button. *)
Definition togglePan (s : State) : State :=
  let s := set_panPaused (negb (panPaused s)) s in
  let s :=
    match panNode s with
    | Some node =>
        updateElement
          (setPlayState (if panPaused s then "paused" else "running")) node s
    | None => s
    end in
  set_togglePanText (if panPaused s then "RESUME PAN" else "PAUSE PAN") s.

(* ===================================================================== *)
(** * Callbacks run by the host                                           *)
(* ===================================================================== *)

(** A pending timeout elapses: it leaves the queue and its callback runs. *)
Definition timerFires (h : positive) (r : Q) (s : State) : State :=
  match timers s !! h with
  | None => s
  | Some task =>
      let s := set_timers (delete h (timers s)) s in
      match callback task with
      | CbBump min max => bump min max r s
      | CbDelayedPlay _ => s        (* [video.play()]: nothing kept here *)
      end
  end.

(** A pending animation frame is served at time [now] (milliseconds):
    [drawNoise(now)] of the closure that requested it. *)
Definition frameFires (h : positive) (now : Q) (rnd : nat -> Q) (s : State)
  : State :=
  match frames s !! h with
  | None => s
  | Some gen =>
      let s := set_frames (delete h (frames s)) s in
      match generators s !! gen with
      | None => s
      | Some g =>
          let s := set_generators
                     (<[gen := fst (drawNoise now rnd g)]> (generators s)) s in
          let '(h', s) := requestAnimationFrame gen s in
          set_lostSignalAnimationId (Some h') s
      end
  end.

(** Everything that can happen to the page once the cameras are loaded. *)
Inductive Event : Type :=
  | EvLoadScene (id : string) (r : Q)
  | EvTriggerGlitch (min max : Z) (r : Q)
  | EvStopGlitch
  | EvStartLostSignalEffect (canvas : positive)
  | EvStopLostSignalEffect
  | EvTogglePan
  | EvTimerFires (h : positive) (r : Q)
  | EvFrameFires (h : positive) (now : Q) (rnd : nat -> Q).

Definition step (s : State) (e : Event) : State :=
  match e with
  | EvLoadScene id r => loadScene id r s
  | EvTriggerGlitch min max r => triggerGlitch min max r s
  | EvStopGlitch => stopGlitch s
  | EvStartLostSignalEffect canvas => startLostSignalEffect canvas s
  | EvStopLostSignalEffect => stopLostSignalEffect s
  | EvTogglePan => togglePan s
  | EvTimerFires h r => timerFires h r s
  | EvFrameFires h now rnd => frameFires h now rnd s
  end.

Definition run (s : State) (evs : list Event) : State := foldl step s evs.

(** The page right after the script's top level ran: nothing selected,
    nothing pending. *)
Definition initialState (cams : gmap string Camera) (items : list CamItem)
    (viewW viewH : Z) : State :=
  {| cameras := cams; activeId := None; panPaused := false; panNode := None;
     glitchTimer := None; lostSignalAnimationId := None;
     elements := ∅; nextElement := 1%positive; viewChildren := [];
     viewOffsetWidth := viewW; viewOffsetHeight := viewH;
     labelText := ""; stateText := ""; hudElText := "";
     togglePanText := "PAUSE PAN"; glitchShow := false;
     viewAriaLabel := None; camItems := items;
     timers := ∅; nextTimer := 1%positive;
     frames := ∅; nextFrame := 1%positive;
     generators := ∅; nextGenerator := 1%positive; console := [] |}.

(** Every value of [Math.random()] lies in [0, 1). *)
Definition unitDraw (r : Q) : Prop := (0 <= r)%Q /\ (r < 1)%Q.

(* ===================================================================== *)
(** * Loading the page: sections, camera list, first selection            *)
(* ===================================================================== *)

(** The [sections] object: section name to the cameras pushed under it, as
    the list of its properties in creation order. *)
Abbreviation Sections := (list (string * list Camera)).



















(** The property names of [cameras] after the ids [ids] were assigned, in
    order: a name is created by its first assignment. *)
Definition createKeys (ids : list string) (keys : list string) : list string :=
  foldl (fun keys id => if bool_decide (id ∈ keys) then keys
                        else (keys ++ [id])%list) keys ids.







(** [String(n)] of a natural number: its decimal digits. *)
Definition numberToString (n : nat) : string :=
  NilEmpty.string_of_uint (Nat.to_uint n).

(** The first [n] characters of [pad] repeated; [rest] is what is left of
    the copy being written. *)
Fixpoint fillString (n : nat) (pad rest : string) : string :=
  match n with
  | O => EmptyString
  | S k =>
      match rest with
      | String c r => String c (fillString k pad r)
      | EmptyString =>
          match pad with
          | String c r => String c (fillString k pad r)
          | EmptyString => EmptyString
          end
      end
  end.

(** [s.padStart(targetLength, pad)] *)
Definition padStart (targetLength : nat) (pad : string) (s : string) : string :=
  if (String.length s <? targetLength)%nat
  then fillString (targetLength - String.length s) pad pad ++ s
  else s.

(** The text [updateClock] writes, from the hours, minutes and seconds of
    [new Date()]. *)
Definition updateClock (hours minutes seconds : nat) : string :=
  let h := padStart 2 "0" (numberToString hours) in
  let m := padStart 2 "0" (numberToString minutes) in
  let s := padStart 2 "0" (numberToString seconds) in
  h ++ ":" ++ m ++ ":" ++ s.



(* ===================================================================== *)
(** * A sample sheet                                                      *)
(* ===================================================================== *)

(** A "Cams" tab laid out as the README describes, as the Sheets API
    returns it. *)
Definition sampleRows : list (list string) :=
  [ ["camId"; "section"; "location"; "status"; "distance"; "hudText";
     "imageUrl"; "panEnabled"; "panDuration"; "glitchMinMs"; "glitchMaxMs"];
    ["cam-corridor"; "SECTION A"; "A-03 CORRIDOR (MAIN)"; "ONLINE"; "14m";
     "ZOOM: 1.0x  |  PAN: H-AXIS"; "https://example.com/img/corridor.jpg";
     "true"; "7"; "400"; "1200"];
    ["cam-cargo"; "SECTION B"; "B-12 CARGO BAY"; "FLICKER"; "28m";
     "ZOOM: 0.8x  |  PAN: H-AXIS"; "https://example.com/img/cargo.jpg";
     "true"; "6"; "750"; "2200"];
    ["cam-reactor"; "SECTION C"; "C-01 REACTOR CORE"; "LOST SIGNAL"; "--";
     "SIGNAL LOST  |  SEARCHING..."; ""; "true"; "7"; "200"; "600"];
    ["cam-comms"; "SECTION C"; "C-02 COMMUNICATIONS"; "OFFLINE"; "--";
     "NO SIGNAL"; ""; "false"; "0"; "0"; "0"];
    ["cam-duct"; "SECTION B"; "B-37 AIR DUCT"; "INTERFERENCE"; "3m";
     "ZOOM: 1.2x  |  STATIC"; "https://example.com/airduct.jpg";
     "false"; "7"; "500"; "500"] ].

(** The parsed row of "cam-comms", whose numeric cells all read "0". *)
Definition commsEntry : Entry :=
  default ∅ (parseSheetData sampleRows !! 3%nat).

Definition sampleCameras : gmap string Camera :=
  registerEntries (parseSheetData sampleRows) ∅.

Definition sampleItems : list CamItem :=
  map (fun id => mkCamItem id false)
      ["cam-corridor"; "cam-comms"; "cam-cargo"; "cam-duct"; "cam-reactor"].

Definition samplePage : State := initialState sampleCameras sampleItems 800 600.

(** A sheet with one video feed and one still image. *)
Definition videoRows : list (list string) :=
  [ ["camId"; "location"; "status"; "imageUrl"; "panEnabled"];
    ["cam-lab"; "D-04 LAB"; "online"; "https://example.com/feeds/LAB.MP4"; "true"];
    ["cam-dock"; "D-09 DOCK"; "flicker"; "https://example.com/dock.png"; "false"] ].

Definition videoPage : State :=
  initialState (registerEntries (parseSheetData videoRows) ∅)
    [mkCamItem "cam-lab" false; mkCamItem "cam-dock" false] 800 600.

(** The same page in a 100 x 100 view: its noise buffer has the minimum
    size, 64 x 64. *)
Definition smallPage : State := initialState sampleCameras sampleItems 100 100.

(** States reachable from a fresh page through events accepted by [ok]. *)
Inductive ReachableVia (ok : Event -> Prop) : State -> Prop :=
  | reach_init cams items viewW viewH :
      ReachableVia ok (initialState cams items viewW viewH)
  | reach_step s e :
      ReachableVia ok s -> ok e -> ReachableVia ok (step s e).

Definition anyEvent (e : Event) : Prop := True.

(** Events whose random draws are values [Math.random()] can return. *)
Definition validEvent (e : Event) : Prop :=
  match e with
  | EvLoadScene _ r | EvTriggerGlitch _ _ r | EvTimerFires _ r => unitDraw r
  | EvFrameFires _ _ rnd => forall k, unitDraw (rnd k)
  | _ => True
  end.

(* ===================================================================== *)
(** * Bookkeeping invariant of the two effect handles                     *)
(* ===================================================================== *)

(** The timer queue against [glitchTimer]: handles are fresh, every pending
    [bump] is the one [glitchTimer] names, and [glitchTimer] names a pending
    [bump]. *)
Definition TimersOk (s : State) : Prop :=
  (forall h task, timers s !! h = Some task -> (h < nextTimer s)%positive) /\
  (forall h task, timers s !! h = Some task -> isBump task = true ->
                  glitchTimer s = Some h) /\
  (forall h, glitchTimer s = Some h ->
             exists task, timers s !! h = Some task /\ isBump task = true).

(** The frame queue against [lostSignalAnimationId]. *)
Definition FramesOk (s : State) : Prop :=
  (forall h g, frames s !! h = Some g -> (h < nextFrame s)%positive) /\
  (forall h g, frames s !! h = Some g -> lostSignalAnimationId s = Some h) /\
  (forall h, lostSignalAnimationId s = Some h -> is_Some (frames s !! h)) /\
  (forall h g, frames s !! h = Some g -> is_Some (generators s !! g)) /\
  (forall g x, generators s !! g = Some x -> (g < nextGenerator s)%positive).

Definition Inv (s : State) : Prop := TimersOk s /\ FramesOk s.

Definition noBumpPending (s : State) : Prop :=
  forall h task, timers s !! h = Some task -> isBump task = false.

Definition noFramePending (s : State) : Prop := frames s = ∅.

(** The two halves of [loadScene] for a camera found in the registry:
    everything up to the pan reset, then the status-specific effects. *)
Definition presentCamera (id : string) (cam : Camera) (s : State) : State :=
  let s := set_activeId (Some id) s in
  let s := stopLostSignalEffect s in
  let s := set_viewChildren [] s in
  let s :=
    if String.eqb (status cam) "LOST SIGNAL" then mountLostSignal s
    else mountMedia cam s in
  let s := set_labelText (location cam) s in
  let s := set_stateText (status cam) s in
  let s := set_hudElText
             (hudText cam ++ "  |  CAMERA: " ++ toUpperCase (camId cam)) s in
  let s := set_camItems
             (map (fun el => mkCamItem (dataId el) (String.eqb (dataId el) id))
                  (camItems s)) s in
  let s := set_panPaused false s in
  let s := set_togglePanText "PAUSE PAN" s in
  match panNode s with
  | Some node =>
      if panEnabled cam then updateElement (setPlayState "running") node s
      else s
  | None => s
  end.

Definition statusEffects (cam : Camera) (r : Q) (s : State) : State :=
  let s := stopGlitch s in
  if glitchStatus (status cam)
  then triggerGlitch (glitchMinMs cam) (glitchMaxMs cam) r s
  else s.

(** The part of the state the noise loop lives in. *)
Definition frameView (s : State) :=
  (frames s, nextFrame s, lostSignalAnimationId s, generators s,
   nextGenerator s).

(** The part of the state the glitch scheduler lives in. *)
Definition timerView (s : State) := (timers s, nextTimer s, glitchTimer s).


(* ===================================================================== *)
(** * Vocabulary of the statements                                        *)
(* ===================================================================== *)


(** The part of the state the view and the pan control live in. *)
Definition domView (s : State) :=
  (elements s, nextElement s, viewChildren s, panNode s, panPaused s,
   togglePanText s).

(** The element [mountMedia] creates for a camera. *)
Definition mediaElementOf (cam : Camera) : Element :=
  {| tagName := if isVideo cam then VIDEO else IMG;
     className := if panEnabled cam then "pan" else "";
     src := if isVideo cam then imageUrl cam
            else if String.eqb (imageUrl cam) "" then noFeedUrl
                 else imageUrl cam;
     alt := if isVideo cam then "" else location cam;
     innerHTML := ""; width := 0; height := 0;
     flags := if isVideo cam
              then ["loop"; "muted"; "autoplay"; "playsInline"] else [];
     attributes := if isVideo cam
                   then [("playsinline", ""); ("webkit-playsinline", "")]
                   else [];
     animationDuration :=
       if panEnabled cam then Some (panDuration cam) else None;
     animationPlayState := None; childNodes := [] |}.

(** The grayscale value the base pass stores for a draw [r]. *)
Definition baseValue (r : Q) : Z := toUint8Clamp (100 + r * 70).

(** The value the blend stores in a colour channel. *)
Definition blendValue (cur prev : Z) : Z :=
  toUint8Clamp (inject_Z cur * (1 - (85 # 100)) + inject_Z prev * (85 # 100)).

(** What the band does to channel [c] of a pixel of a band row. *)
Definition bandValue (c : nat) (old : Z) : Z :=
  if (c <? 3)%nat then toUint8Clamp (inject_Z (Z.min 255 (old + 10))) else old.

(** The band pass pixel by pixel: [bandPixel] at pixel number [p]. *)
Definition bandStep (data : list Z) (p : nat) : list Z :=
  let idx := (p * 4)%nat in
  let data := brighten idx data in
  let data := brighten (idx + 1) data in
  brighten (idx + 2) data.

(** The pixel the [k]-th speckle lands on, when its index is not negative. *)
Definition specklePixel (smallW smallH : nat) (rnd : nat -> Q) (first k : nat)
  : option nat :=
  let x := toInt32 (rnd (first + 2 * k)%nat * inject_Z (Z.of_nat smallW)) in
  let y := toInt32 (rnd (first + 2 * k + 1)%nat * inject_Z (Z.of_nat smallH)) in
  if (y * Z.of_nat smallW + x) * 4 <? 0 then None
  else Some (Z.to_nat (y * Z.of_nat smallW + x)).

Definition speckled (smallW smallH : nat) (rnd : nat -> Q) (first count q : nat)
  : bool :=
  existsb (fun k => bool_decide (specklePixel smallW smallH rnd first k = Some q))
          (seq 0 count).

(** The buffer of a generator has four bytes per pixel, and the saved
    previous frame has the size of the buffer. *)
Definition GenOk (g : NoiseGen) : Prop :=
  length (gen_data g) = (4 * (gen_smallH g * gen_smallW g))%nat /\
  forall prev, gen_prev g = Some prev -> length prev = length (gen_data g).

(** Channel [c] of pixel [(x, y)] in a frame before the temporal blend. *)
Definition rawValue (smallW smallH : nat) (t : Q) (rnd : nat -> Q)
    (x y c : nat) : Z :=
  let base := if (c =? 3)%nat then 255 else baseValue (rnd (y * smallW + x)%nat) in
  let banded :=
    if bool_decide (bandRow t smallH - 3 <= Z.of_nat y < bandRow t smallH + 3)
    then bandValue c base else base in
  if speckled smallW smallH rnd (smallH * smallW)
       (speckleCount smallW smallH) (y * smallW + x)
     && (c <? 3)%nat
  then 255 else banded.

(** The elapsed time [drawNoise(now)] renders a frame for. *)
Definition frameTime (now : Q) (g : NoiseGen) : Q :=
  (gen_t g + (now - gen_last g) / 1000)%Q.

(** Every generator of the page is well formed. *)
Definition GensOk (s : State) : Prop :=
  forall id g, generators s !! id = Some g -> GenOk g.

(** Events that call [schedule]: the only ones that can leave a [bump]
    pending. *)
Definition schedulesGlitch (e : Event) : bool :=
  match e with
  | EvLoadScene _ _ | EvTriggerGlitch _ _ _ => true
  | _ => false
  end.


(** The label of the pan control says what a click would do. *)
Definition PanLabelOk (s : State) : Prop :=
  togglePanText s = if panPaused s then "RESUME PAN" else "PAUSE PAN".

(** The texts and the list highlighting a selection writes. *)
Definition uiView (s : State) :=
  (activeId s, labelText s, stateText s, hudElText s, camItems s).

(** The bytes of a frame of a [w] x [h] buffer: four per pixel, alpha
    opaque, colour channels between [lo] and 255. *)
Definition FrameOk (lo : Z) (w h : nat) (frame : list Z) : Prop :=
  length frame = (4 * (h * w))%nat /\
  forall x y c, (x < w)%nat -> (y < h)%nat -> (c < 4)%nat ->
    exists v, frame !! (4 * (y * w + x) + c)%nat = Some v /\
      (if (c =? 3)%nat then v = 255 else lo <= v <= 255).

(** The frame a generator shows is the one it keeps for the next blend, a
    copy of its buffer, and its bytes are in range. *)
Definition ShownOk (lo : Z) (g : NoiseGen) : Prop :=
  gen_shown g = gen_prev g /\
  forall frame, gen_prev g = Some frame ->
    frame = gen_data g /\ FrameOk lo (gen_smallW g) (gen_smallH g) frame.

(** What [presentCamera] does after the mount leaves both queues alone. *)
Ltac present_tail m :=
  simpl; destruct (panNode m); [destruct (panEnabled _)|]; fields.

Section Invariant.

Lemma TimersOk_ext s s' :
  timers s' = timers s -> nextTimer s' = nextTimer s ->
  glitchTimer s' = glitchTimer s -> TimersOk s -> TimersOk s'.
Proof. unfold TimersOk. intros -> -> ->. done. Qed.

Lemma FramesOk_ext s s' :
  frames s' = frames s -> nextFrame s' = nextFrame s ->
  lostSignalAnimationId s' = lostSignalAnimationId s ->
  generators s' = generators s -> nextGenerator s' = nextGenerator s ->
  FramesOk s -> FramesOk s'.
Proof. unfold FramesOk. intros -> -> -> -> ->. done. Qed.

Lemma initialState_Inv cams items viewW viewH :
  Inv (initialState cams items viewW viewH).
Proof.
  split; [unfold TimersOk | unfold FramesOk]; simpl;
    repeat split; intros; simplify_map_eq.
Qed.

(** ** Glitch side *)

Lemma stopGlitch_spec s :
  TimersOk s ->
  TimersOk (stopGlitch s) /\ noBumpPending (stopGlitch s) /\
  glitchTimer (stopGlitch s) = None /\
  nextTimer (stopGlitch s) = nextTimer s /\
  (forall h task, timers (stopGlitch s) !! h = Some task ->
                  timers s !! h = Some task).
Proof.
  intros (Hfresh & Htrack & Hpend). unfold stopGlitch, noBumpPending, TimersOk.
  destruct (glitchTimer s) as [g|] eqn:Hg; simpl.
  - assert (Hdel : forall h task, delete g (timers s) !! h = Some task ->
                                  h <> g /\ timers s !! h = Some task).
    { intros h task H. apply lookup_delete_Some in H. by destruct H. }
    repeat split.
    + intros h task H. apply Hdel in H as [_ H]. eauto.
    + intros h task H Hb. apply Hdel in H as [Hne H].
      specialize (Htrack _ _ H Hb). congruence.
    + intros h H. congruence.
    + intros h task H. apply Hdel in H as [Hne H].
      destruct (isBump task) eqn:Hb; [|done].
      specialize (Htrack _ _ H Hb). congruence.
    + intros h task H. apply Hdel in H as [_ H]. done.
  - repeat split; simpl; eauto.
    + intros h task H Hb. specialize (Htrack _ _ H Hb). congruence.
    + intros h H. congruence.
    + intros h task H. destruct (isBump task) eqn:Hb; [|done].
      specialize (Htrack _ _ H Hb). congruence.
Qed.

Lemma schedule_spec min max r s :
  (forall h task, timers s !! h = Some task -> (h < nextTimer s)%positive) ->
  noBumpPending s ->
  TimersOk (schedule min max r s) /\
  glitchTimer (schedule min max r s) = Some (nextTimer s) /\
  timers (schedule min max r s)
  = <[nextTimer s := mkTimerTask (CbBump min max) (glitchDelay min max r)]>
      (timers s) /\
  nextTimer (schedule min max r s) = Pos.succ (nextTimer s).
Proof.
  intros Hfresh Hno. unfold schedule, setTimeout, TimersOk. simpl.
  repeat split.
  - intros h task H. apply lookup_insert_Some in H as [[<- _]|[_ H]]; [lia|].
    apply Hfresh in H. lia.
  - intros h task H Hb. apply lookup_insert_Some in H as [[<- _]|[_ H]]; [done|].
    apply Hno in H. congruence.
  - intros h [= <-]. eexists. rewrite lookup_insert_eq. done.
Qed.

Lemma triggerGlitch_TimersOk min max r s :
  TimersOk s -> TimersOk (triggerGlitch min max r s).
Proof.
  intros H. unfold triggerGlitch.
  destruct (stopGlitch_spec s H) as ((Hfresh & _ & _) & Hno & _).
  by apply schedule_spec.
Qed.

Lemma timerFires_TimersOk h r s : TimersOk s -> TimersOk (timerFires h r s).
Proof.
  intros Hok. unfold timerFires.
  destruct (timers s !! h) as [task|] eqn:Hh; [|done].
  destruct Hok as (Hfresh & Htrack & Hpend).
  destruct (callback task) as [min max|video] eqn:Hcb.
  - (* the bump that fired was the tracked one; it reschedules itself *)
    unfold bump. apply schedule_spec; unfold noBumpPending; fields.
    + intros h' task' H. apply lookup_delete_Some in H as [_ H]. eauto.
    + intros h' task' H. apply lookup_delete_Some in H as [Hne H].
      destruct (isBump task') eqn:Hb; [|done].
      assert (isBump task = true) as Hb0 by (unfold isBump; by rewrite Hcb).
      pose proof (Htrack _ _ H Hb). pose proof (Htrack _ _ Hh Hb0). congruence.
  - assert (isBump task = false) as Hb0 by (unfold isBump; by rewrite Hcb).
    unfold TimersOk. fields. repeat split.
    + intros h' task' H. apply lookup_delete_Some in H as [_ H]. eauto.
    + intros h' task' H Hb. apply lookup_delete_Some in H as [_ H]. eauto.
    + intros h' Hg. destruct (Hpend _ Hg) as (task' & H & Hb).
      exists task'. split; [|done]. apply lookup_delete_Some. split; [|done].
      intros ->. congruence.
Qed.

(** ** Noise side *)

Lemma stopLostSignalEffect_spec s :
  FramesOk s ->
  FramesOk (stopLostSignalEffect s) /\
  noFramePending (stopLostSignalEffect s) /\
  lostSignalAnimationId (stopLostSignalEffect s) = None /\
  nextFrame (stopLostSignalEffect s) = nextFrame s /\
  generators (stopLostSignalEffect s) = generators s /\
  nextGenerator (stopLostSignalEffect s) = nextGenerator s.
Proof.
  intros (Hfresh & Htrack & Hpend & Hgen & Hgfresh).
  unfold stopLostSignalEffect, noFramePending, FramesOk, cancelAnimationFrame.
  destruct (lostSignalAnimationId s) as [a|] eqn:Ha; fields.
  - assert (Hempty : delete a (frames s) = ∅).
    { apply map_empty. intros h. apply lookup_delete_None.
      destruct (frames s !! h) as [g|] eqn:Hh; [|by right].
      left. specialize (Htrack _ _ Hh). congruence. }
    rewrite Hempty. repeat split; try done; intros; simplify_map_eq.
  - assert (Hempty : frames s = ∅).
    { apply map_empty. intros h.
      destruct (frames s !! h) as [g|] eqn:Hh; [|done].
      specialize (Htrack _ _ Hh). congruence. }
    rewrite Ha, Hempty. repeat split; try done; intros; simplify_map_eq.
Qed.

Lemma startLostSignalEffect_spec canvas s :
  FramesOk s ->
  FramesOk (startLostSignalEffect canvas s) /\
  (forall h g, frames (startLostSignalEffect canvas s) !! h = Some g ->
     h = nextFrame s /\ g = nextGenerator s /\
     exists el, elements s !! canvas = Some el /\
       generators (startLostSignalEffect canvas s) !! g
       = Some (newGenerator canvas (width el) (height el))).
Proof.
  intros Hok. unfold startLostSignalEffect.
  destruct (stopLostSignalEffect_spec s Hok)
    as (Hok' & Hno & Hanim & Hnf & Hgens & Hng).
  assert (Hel : elements (stopLostSignalEffect s) = elements s).
  { unfold stopLostSignalEffect, cancelAnimationFrame.
    by destruct (lostSignalAnimationId s). }
  rewrite Hel. unfold noFramePending in Hno.
  destruct (elements s !! canvas) as [el|] eqn:Hc.
  - destruct Hok' as (_ & _ & _ & _ & Hgfresh).
    unfold requestAnimationFrame, FramesOk. fields.
    rewrite Hno, Hnf, Hgens, Hng in *. repeat split.
    + intros h g H. apply lookup_insert_Some in H as [[<- _]|[_ H]]; [lia|].
      simplify_map_eq.
    + intros h g H. apply lookup_insert_Some in H as [[<- _]|[_ H]]; [done|].
      simplify_map_eq.
    + intros h [= <-]. rewrite lookup_insert_eq. eauto.
    + intros h g H. apply lookup_insert_Some in H as [[_ <-]|[_ H]];
        [|simplify_map_eq]. rewrite lookup_insert_eq. eauto.
    + intros g x H. apply lookup_insert_Some in H as [[<- _]|[_ H]]; [lia|].
      apply Hgfresh in H. lia.
    + apply lookup_insert_Some in H as [[<- _]|[_ H]]; [done|]. simplify_map_eq.
    + apply lookup_insert_Some in H as [[_ <-]|[_ H]]; [done|]. simplify_map_eq.
    + apply lookup_insert_Some in H as [[_ <-]|[_ H]]; [|simplify_map_eq].
      exists el. by rewrite lookup_insert_eq.
  - split; [done|]. intros h g H. rewrite Hno in H. simplify_map_eq.
Qed.

Lemma frameFires_FramesOk h now rnd s :
  FramesOk s -> FramesOk (frameFires h now rnd s).
Proof.
  intros Hok. unfold frameFires.
  destruct (frames s !! h) as [gen|] eqn:Hh; [|done].
  destruct Hok as (Hfresh & Htrack & Hpend & Hgen & Hgfresh). fields.
  destruct (Hgen _ _ Hh) as [g Hg]. rewrite Hg.
  assert (Hempty : delete h (frames s) = ∅).
  { apply map_empty. intros h'. apply lookup_delete_None.
    destruct (frames s !! h') as [g'|] eqn:Hh'; [|by right].
    left. pose proof (Htrack _ _ Hh). pose proof (Htrack _ _ Hh'). congruence. }
  unfold requestAnimationFrame, FramesOk. fields. rewrite Hempty.
  repeat split.
  - intros h' g' H. apply lookup_insert_Some in H as [[<- _]|[_ H]]; [lia|].
    simplify_map_eq.
  - intros h' g' H. apply lookup_insert_Some in H as [[<- _]|[_ H]]; [done|].
    simplify_map_eq.
  - intros h' [= <-]. rewrite lookup_insert_eq. eauto.
  - intros h' g' H. apply lookup_insert_Some in H as [[_ <-]|[_ H]];
      [|simplify_map_eq]. rewrite lookup_insert_eq. eauto.
  - intros g' x H. apply lookup_insert_Some in H as [[<- _]|[_ H]]; eauto.
Qed.

(** ** [loadScene] *)

Lemma loadScene_found id r s cam :
  cameras s !! id = Some cam ->
  loadScene id r s
  = set_viewAriaLabel
      (Some ("Camera " ++ location cam ++ ". Status " ++ status cam ++ "."))
      (statusEffects cam r (presentCamera id cam s)).
Proof.
  intros H. unfold loadScene, statusEffects, presentCamera, glitchStatus.
  rewrite H.
  destruct (String.eqb (status cam) "FLICKER"),
           (String.eqb (status cam) "INTERFERENCE"),
           (String.eqb (status cam) "LOST SIGNAL"); reflexivity.
Qed.

Lemma mountMedia_timers cam s :
  TimersOk s ->
  TimersOk (mountMedia cam s) /\
  (nextTimer s <= nextTimer (mountMedia cam s))%positive /\
  glitchTimer (mountMedia cam s) = glitchTimer s.
Proof.
  intros (Hfresh & Htrack & Hpend). unfold mountMedia, TimersOk.
  destruct (isVideo cam); fields.
  - repeat split; try lia.
    + intros h task H. apply lookup_insert_Some in H as [[<- _]|[_ H]]; [lia|].
      apply Hfresh in H. lia.
    + intros h task H Hb. apply lookup_insert_Some in H as [[_ <-]|[_ H]];
        [done|eauto].
    + intros h Hg. destruct (Hpend _ Hg) as (task & H & Hb).
      exists task. split; [|done]. rewrite lookup_insert_ne; [done|].
      apply Hfresh in H. lia.
  - repeat split; eauto. lia.
Qed.

Lemma mountMedia_frames cam s :
  frames (mountMedia cam s) = frames s /\
  nextFrame (mountMedia cam s) = nextFrame s /\
  lostSignalAnimationId (mountMedia cam s) = lostSignalAnimationId s /\
  generators (mountMedia cam s) = generators s /\
  nextGenerator (mountMedia cam s) = nextGenerator s.
Proof. unfold mountMedia. destruct (isVideo cam); fields; done. Qed.

Lemma stopLostSignalEffect_timers s :
  timers (stopLostSignalEffect s) = timers s /\
  nextTimer (stopLostSignalEffect s) = nextTimer s /\
  glitchTimer (stopLostSignalEffect s) = glitchTimer s.
Proof.
  unfold stopLostSignalEffect. destruct (lostSignalAnimationId s); fields; done.
Qed.

Lemma startLostSignalEffect_timers canvas s :
  timers (startLostSignalEffect canvas s) = timers s /\
  nextTimer (startLostSignalEffect canvas s) = nextTimer s /\
  glitchTimer (startLostSignalEffect canvas s) = glitchTimer s.
Proof.
  unfold startLostSignalEffect.
  destruct (stopLostSignalEffect_timers s) as (H1 & H2 & H3).
  destruct (elements (stopLostSignalEffect s) !! canvas); fields; done.
Qed.

Lemma mountLostSignal_timers s :
  timers (mountLostSignal s) = timers s /\
  nextTimer (mountLostSignal s) = nextTimer s /\
  glitchTimer (mountLostSignal s) = glitchTimer s.
Proof.
  unfold mountLostSignal. fields.
  match goal with |- context [startLostSignalEffect ?c ?s0] =>
    destruct (startLostSignalEffect_timers c s0) as (-> & -> & ->) end.
  done.
Qed.

Lemma mountLostSignal_frames s :
  FramesOk s ->
  FramesOk (mountLostSignal s) /\
  (forall h g, frames (mountLostSignal s) !! h = Some g ->
               h = nextFrame s /\ g = nextGenerator s).
Proof.
  intros Hok. unfold mountLostSignal. fields.
  match goal with |- context [startLostSignalEffect ?c ?s0] =>
    destruct (startLostSignalEffect_spec c s0) as (H1 & H2) end.
  { eapply FramesOk_ext; [..|exact Hok]; done. }
  split; [done|]. intros h g H. apply H2 in H as (-> & -> & _). done.
Qed.

Lemma presentCamera_timers id cam s :
  TimersOk s ->
  TimersOk (presentCamera id cam s) /\
  (nextTimer s <= nextTimer (presentCamera id cam s))%positive /\
  glitchTimer (presentCamera id cam s) = glitchTimer s.
Proof.
  intros Hok. unfold presentCamera.
  set (s1 := set_viewChildren [] (stopLostSignalEffect (set_activeId (Some id) s))).
  assert (Hs1 : timers s1 = timers s /\ nextTimer s1 = nextTimer s /\
                glitchTimer s1 = glitchTimer s).
  { subst s1. simpl.
    destruct (stopLostSignalEffect_timers (set_activeId (Some id) s))
      as (-> & -> & ->). done. }
  destruct Hs1 as (Ht & Hn & Hg).
  assert (Hok1 : TimersOk s1) by (by eapply TimersOk_ext; [..|exact Hok]).
  set (m := if String.eqb (status cam) "LOST SIGNAL" then mountLostSignal s1
            else mountMedia cam s1).
  assert (Hm : TimersOk m /\ (nextTimer s <= nextTimer m)%positive /\
               glitchTimer m = glitchTimer s).
  { subst m. destruct (String.eqb (status cam) "LOST SIGNAL").
    - destruct (mountLostSignal_timers s1) as (H1 & H2 & H3).
      split; [by eapply TimersOk_ext; [..|exact Hok1]|].
      rewrite H2, H3, Hn, Hg. split; [lia|done].
    - destruct (mountMedia_timers cam s1 Hok1) as (H1 & H2 & H3).
      split; [done|]. rewrite H3, Hg. split; [lia|done]. }
  clearbody m. destruct Hm as (Hm1 & Hm2 & Hm3).
  unfold TimersOk in *. present_tail m; done.
Qed.

Lemma presentCamera_frames id cam s :
  FramesOk s ->
  FramesOk (presentCamera id cam s) /\
  (String.eqb (status cam) "LOST SIGNAL" = false ->
   frames (presentCamera id cam s) = ∅ /\
   lostSignalAnimationId (presentCamera id cam s) = None /\
   generators (presentCamera id cam s) = generators s /\
   nextGenerator (presentCamera id cam s) = nextGenerator s) /\
  (forall h g, frames (presentCamera id cam s) !! h = Some g ->
     h = nextFrame s /\ g = nextGenerator s /\
     String.eqb (status cam) "LOST SIGNAL" = true).
Proof.
  intros Hok. unfold presentCamera.
  set (s1 := set_viewChildren [] (stopLostSignalEffect (set_activeId (Some id) s))).
  assert (Hs1 : FramesOk s1 /\ frames s1 = ∅ /\
                lostSignalAnimationId s1 = None /\
                nextFrame s1 = nextFrame s /\ generators s1 = generators s /\
                nextGenerator s1 = nextGenerator s).
  { destruct (stopLostSignalEffect_spec (set_activeId (Some id) s))
      as (H1 & H2 & H3 & H4 & H5 & H6).
    { eapply FramesOk_ext; [..|exact Hok]; done. }
    subst s1. split; [eapply FramesOk_ext; [..|exact H1]; done|]. done. }
  destruct Hs1 as (Hok1 & Hf & Ha & Hnf & Hgs & Hng).
  set (m := if String.eqb (status cam) "LOST SIGNAL" then mountLostSignal s1
            else mountMedia cam s1).
  assert (Hm : FramesOk m /\
    (String.eqb (status cam) "LOST SIGNAL" = false ->
     frames m = ∅ /\ lostSignalAnimationId m = None /\
     generators m = generators s /\ nextGenerator m = nextGenerator s) /\
    (forall h g, frames m !! h = Some g ->
       h = nextFrame s /\ g = nextGenerator s /\
       String.eqb (status cam) "LOST SIGNAL" = true)).
  { subst m. destruct (String.eqb (status cam) "LOST SIGNAL").
    - destruct (mountLostSignal_frames s1 Hok1) as (H1 & H2).
      split; [done|]. split; [done|]. intros h g H.
      apply H2 in H as (-> & ->). rewrite Hnf, Hng. done.
    - destruct (mountMedia_frames cam s1) as (H1 & H2 & H3 & H4 & H5).
      split; [eapply FramesOk_ext; [..|exact Hok1]; done|].
      rewrite H1, H3, H4, H5, Hf, Ha, Hgs, Hng. split; [done|].
      intros h g H. simplify_map_eq. }
  clearbody m. destruct Hm as (Hm1 & Hm2 & Hm3).
  unfold FramesOk in *. present_tail m; done.
Qed.

Lemma stopGlitch_frameView s : frameView (stopGlitch s) = frameView s.
Proof. unfold stopGlitch. destruct (glitchTimer s); reflexivity. Qed.

Lemma schedule_frameView min max r s :
  frameView (schedule min max r s) = frameView s.
Proof. reflexivity. Qed.

Lemma statusEffects_frameView cam r s :
  frameView (statusEffects cam r s) = frameView s.
Proof.
  unfold statusEffects, triggerGlitch.
  destruct (glitchStatus (status cam));
    rewrite ?schedule_frameView, ?stopGlitch_frameView; reflexivity.
Qed.

Lemma frameView_frames s s' : frameView s' = frameView s -> frames s' = frames s.
Proof. unfold frameView. by intros [= -> _ _ _ _]. Qed.

Lemma frameView_anim s s' :
  frameView s' = frameView s ->
  lostSignalAnimationId s' = lostSignalAnimationId s.
Proof. unfold frameView. by intros [= _ _ -> _ _]. Qed.

Lemma frameView_generators s s' :
  frameView s' = frameView s -> generators s' = generators s.
Proof. unfold frameView. by intros [= _ _ _ -> _]. Qed.

Lemma FramesOk_view s s' : frameView s' = frameView s -> FramesOk s -> FramesOk s'.
Proof.
  unfold frameView. intros [= H1 H2 H3 H4 H5]. by apply FramesOk_ext.
Qed.

(** The glitch timers left by the status-specific effects. *)
Lemma statusEffects_timers cam r s :
  TimersOk s ->
  let s' := statusEffects cam r s in
  TimersOk s' /\
  (forall h task, timers s' !! h = Some task -> isBump task = true ->
     h = nextTimer s /\ glitchStatus (status cam) = true /\
     task = mkTimerTask (CbBump (glitchMinMs cam) (glitchMaxMs cam))
              (glitchDelay (glitchMinMs cam) (glitchMaxMs cam) r)) /\
  (glitchStatus (status cam) = true ->
     glitchTimer s' = Some (nextTimer s) /\
     timers s' !! nextTimer s
     = Some (mkTimerTask (CbBump (glitchMinMs cam) (glitchMaxMs cam))
               (glitchDelay (glitchMinMs cam) (glitchMaxMs cam) r))) /\
  (glitchStatus (status cam) = false -> glitchTimer s' = None).
Proof.
  intros Hok. simpl. unfold statusEffects.
  destruct (stopGlitch_spec s Hok) as (Hok1 & Hno & Hg & Hn & Hsub).
  destruct (glitchStatus (status cam)).
  - unfold triggerGlitch.
    destruct (stopGlitch_spec _ Hok1) as (Hok2 & Hno2 & Hg2 & Hn2 & Hsub2).
    destruct (schedule_spec (glitchMinMs cam) (glitchMaxMs cam) r
                (stopGlitch (stopGlitch s))) as (H1 & H2 & H3 & H4).
    { by destruct Hok2. } { done. }
    rewrite Hn2, Hn in *. split; [done|]. rewrite H3. repeat split.
    + apply lookup_insert_Some in H as [[<- _]|[_ H]]; [done|].
      apply Hno2 in H. congruence.
    + apply lookup_insert_Some in H as [[_ <-]|[_ H]]; [done|].
      apply Hno2 in H. congruence.
    + done.
    + by rewrite lookup_insert_eq.
    + done.
  - split; [done|]. repeat split; try done.
    all: intros; match goal with H : timers _ !! _ = Some _ |- _ =>
           apply Hno in H; congruence end.
Qed.

Lemma TimersOk_view s s' : timerView s' = timerView s -> TimersOk s -> TimersOk s'.
Proof. unfold timerView. intros [= H1 H2 H3]. by apply TimersOk_ext. Qed.

Lemma stopLostSignalEffect_timerView s :
  timerView (stopLostSignalEffect s) = timerView s.
Proof. unfold stopLostSignalEffect. by destruct (lostSignalAnimationId s). Qed.

Lemma startLostSignalEffect_timerView canvas s :
  timerView (startLostSignalEffect canvas s) = timerView s.
Proof.
  unfold timerView.
  by destruct (startLostSignalEffect_timers canvas s) as (-> & -> & ->).
Qed.

Lemma togglePan_views s :
  timerView (togglePan s) = timerView s /\ frameView (togglePan s) = frameView s.
Proof. unfold togglePan. simpl. by destruct (panNode s). Qed.

Lemma timerFires_frameView h r s : frameView (timerFires h r s) = frameView s.
Proof.
  unfold timerFires. destruct (timers s !! h) as [task|]; [|done].
  by destruct (callback task).
Qed.

Lemma frameFires_timerView h now rnd s :
  timerView (frameFires h now rnd s) = timerView s.
Proof.
  unfold frameFires. destruct (frames s !! h) as [gen|]; [|done]. simpl.
  by destruct (generators s !! gen).
Qed.

Lemma loadScene_Inv id r s : Inv s -> Inv (loadScene id r s).
Proof.
  intros [Ht Hf]. destruct (cameras s !! id) as [cam|] eqn:Hcam.
  - rewrite (loadScene_found _ _ _ _ Hcam). split.
    + eapply TimersOk_view; [reflexivity|]. simpl.
      apply statusEffects_timers. by apply presentCamera_timers.
    + eapply FramesOk_view;
        [etrans; [reflexivity|apply statusEffects_frameView]|].
      by apply presentCamera_frames.
  - unfold loadScene. rewrite Hcam. split.
    + by eapply TimersOk_view; [|exact Ht].
    + by eapply FramesOk_view; [|exact Hf].
Qed.

Lemma step_Inv s e : Inv s -> Inv (step s e).
Proof.
  intros [Ht Hf]. destruct e as [id r|min max r| |canvas| | |h r|h now rnd]; simpl.
  - by apply loadScene_Inv.
  - split; [by apply triggerGlitch_TimersOk|].
    eapply FramesOk_view; [|exact Hf]. unfold triggerGlitch.
    by rewrite schedule_frameView, stopGlitch_frameView.
  - split; [by apply stopGlitch_spec|].
    eapply FramesOk_view; [apply stopGlitch_frameView|done].
  - split; [|by apply startLostSignalEffect_spec].
    eapply TimersOk_view; [apply startLostSignalEffect_timerView|done].
  - split; [|by apply stopLostSignalEffect_spec].
    eapply TimersOk_view; [apply stopLostSignalEffect_timerView|done].
  - destruct (togglePan_views s).
    split; [by eapply TimersOk_view|by eapply FramesOk_view].
  - split; [by apply timerFires_TimersOk|].
    eapply FramesOk_view; [apply timerFires_frameView|done].
  - split; [|by apply frameFires_FramesOk].
    eapply TimersOk_view; [apply frameFires_timerView|done].
Qed.

Lemma reachable_Inv ok s : ReachableVia ok s -> Inv s.
Proof.
  induction 1 as [cams items viewW viewH|s e _ IH _].
  - apply initialState_Inv.
  - by apply step_Inv.
Qed.

(** Under [TimersOk], at most one [bump] is pending. *)
Lemma TimersOk_single s h1 h2 task1 task2 :
  TimersOk s ->
  timers s !! h1 = Some task1 -> isBump task1 = true ->
  timers s !! h2 = Some task2 -> isBump task2 = true -> h1 = h2.
Proof.
  intros (_ & Htrack & _) H1 Hb1 H2 Hb2.
  pose proof (Htrack _ _ H1 Hb1). pose proof (Htrack _ _ H2 Hb2). congruence.
Qed.

Lemma FramesOk_single s h1 h2 g1 g2 :
  FramesOk s -> frames s !! h1 = Some g1 -> frames s !! h2 = Some g2 -> h1 = h2.
Proof.
  intros (_ & Htrack & _) H1 H2.
  pose proof (Htrack _ _ H1). pose proof (Htrack _ _ H2). congruence.
Qed.

(** ** Where a pending [bump] comes from *)





(** ** Arithmetic of the delay *)



End Invariant.

(* ===================================================================== *)
(** * Scene selection                                                     *)
(* ===================================================================== *)



(* ===================================================================== *)
(** * One glitch schedule, one noise loop                                 *)
(* ===================================================================== *)

(** C2.  In every state reachable from a fresh page by calls of
    [loadScene], [triggerGlitch], [stopGlitch], [startLostSignalEffect],
    [stopLostSignalEffect], pan toggles and the firing of pending callbacks,
    at most one glitch timeout is pending and at most one animation frame is
    requested.  Selecting a camera from such a state leaves only glitch
    timeouts and frame requests made by that very call: their handles are not
    older than the call, the timeout carries the new camera's bounds and the
    frame belongs to a generator created by the call. *)
Theorem single_glitch_timer_and_noise_frame (s : State) :
  ReachableVia anyEvent s ->
  (forall h1 h2 task1 task2,
     timers s !! h1 = Some task1 -> isBump task1 = true ->
     timers s !! h2 = Some task2 -> isBump task2 = true -> h1 = h2) /\
  (forall h1 h2 g1 g2,
     frames s !! h1 = Some g1 -> frames s !! h2 = Some g2 -> h1 = h2) /\
  (forall id r cam,
     cameras s !! id = Some cam ->
     (forall h task,
        timers (loadScene id r s) !! h = Some task -> isBump task = true ->
        (nextTimer s <= h)%positive /\
        callback task = CbBump (glitchMinMs cam) (glitchMaxMs cam)) /\
     (forall h g,
        frames (loadScene id r s) !! h = Some g ->
        (nextFrame s <= h)%positive /\ (nextGenerator s <= g)%positive)).
Proof.
  intros Hr. destruct (reachable_Inv _ _ Hr) as [Ht Hf].
  split; [|split].
  - intros h1 h2 task1 task2. by apply TimersOk_single.
  - intros h1 h2 g1 g2. by apply FramesOk_single.
  - intros id r cam Hcam. rewrite (loadScene_found _ _ _ _ Hcam). split.
    + intros h task H Hb. simpl in H.
      destruct (presentCamera_timers id cam s Ht) as (Hp & Hle & _).
      destruct (statusEffects_timers cam r _ Hp) as (_ & Hone & _).
      destruct (Hone _ _ H Hb) as (-> & _ & ->). done.
    + intros h g H. simpl in H.
      rewrite (frameView_frames _ _ (statusEffects_frameView cam r _)) in H.
      destruct (presentCamera_frames id cam s Hf) as (_ & _ & Hnew).
      destruct (Hnew _ _ H) as (-> & -> & _). split; lia.
Qed.

Lemma single_glitch_timer_and_noise_frame_witness :
  ReachableVia anyEvent
    (step (step samplePage (EvLoadScene "cam-reactor" (1 # 2)))
          (EvTimerFires 1 (1 # 4))) /\
  forall h g,
    frames (loadScene "cam-cargo" (3 # 4)
              (step (step samplePage (EvLoadScene "cam-reactor" (1 # 2)))
                    (EvTimerFires 1 (1 # 4)))) !! h = Some g ->
    (nextFrame (step (step samplePage (EvLoadScene "cam-reactor" (1 # 2)))
                     (EvTimerFires 1 (1 # 4))) <= h)%positive /\
    (nextGenerator (step (step samplePage (EvLoadScene "cam-reactor" (1 # 2)))
                         (EvTimerFires 1 (1 # 4))) <= g)%positive.
Proof.
  assert (Hr : ReachableVia anyEvent
                 (step (step samplePage (EvLoadScene "cam-reactor" (1 # 2)))
                       (EvTimerFires 1 (1 # 4)))).
  { apply reach_step; [apply reach_step; [apply reach_init|exact I]|exact I]. }
  split; [exact Hr|].
  destruct (single_glitch_timer_and_noise_frame _ Hr) as (_ & _ & Hsel).
  apply (Hsel "cam-cargo" (3 # 4)
           (mkCamera "cam-cargo" "SECTION B" "B-12 CARGO BAY" "FLICKER" "28m"
              "ZOOM: 0.8x  |  PAN: H-AXIS" "https://example.com/img/cargo.jpg"
              true (JFin 6) 750 2200)).
  vm_compute; reflexivity.
Defined.

(* ===================================================================== *)
(** * Delays of the glitch scheduler                                      *)
(* ===================================================================== *)




(* ===================================================================== *)
(** * Which statuses glitch                                               *)
(* ===================================================================== *)

Lemma glitchStatus_true st :
  glitchStatus st = true <->
  st = "FLICKER" \/ st = "INTERFERENCE" \/ st = "LOST SIGNAL".
Proof.
  unfold glitchStatus. rewrite !orb_true_iff, !String.eqb_eq. tauto.
Qed.

(** C5.  Selecting a camera of the registry leaves a glitch timeout pending
    (and [glitchTimer] set) exactly when its status is FLICKER, INTERFERENCE
    or LOST SIGNAL.  For ONLINE and OFFLINE no glitch timeout is pending
    afterwards, and for OFFLINE no noise loop either: no frame is requested,
    the animation handle is empty and no generator was created. *)
Theorem glitch_scheduled_iff_degraded (s : State) (id : string) (r : Q)
    (cam : Camera) :
  ReachableVia anyEvent s ->
  cameras s !! id = Some cam ->
  ((status cam = "FLICKER" \/ status cam = "INTERFERENCE"
    \/ status cam = "LOST SIGNAL") <->
   exists h task, timers (loadScene id r s) !! h = Some task /\
                  isBump task = true) /\
  ((status cam = "FLICKER" \/ status cam = "INTERFERENCE"
    \/ status cam = "LOST SIGNAL") <->
   is_Some (glitchTimer (loadScene id r s))) /\
  (status cam = "ONLINE" \/ status cam = "OFFLINE" ->
   noBumpPending (loadScene id r s) /\ glitchTimer (loadScene id r s) = None) /\
  (status cam = "OFFLINE" ->
   frames (loadScene id r s) = ∅ /\
   lostSignalAnimationId (loadScene id r s) = None /\
   generators (loadScene id r s) = generators s).
Proof.
  intros Hr Hcam. destruct (reachable_Inv _ _ Hr) as [Ht Hf].
  rewrite (loadScene_found _ _ _ _ Hcam).
  destruct (presentCamera_timers id cam s Ht) as (Hp & _).
  destruct (statusEffects_timers cam r _ Hp) as (_ & Hone & Hyes & Hno).
  rewrite <- glitchStatus_true.
  assert (Hnb : glitchStatus (status cam) = false ->
                noBumpPending (statusEffects cam r (presentCamera id cam s))).
  { intros Hg h task H. destruct (isBump task) eqn:Hb; [|done].
    destruct (Hone _ _ H Hb) as (_ & Hg' & _). congruence. }
  split; [|split; [|split]]; simpl.
  - split.
    + intros Hg. destruct (Hyes Hg) as (_ & H). by eexists _, _.
    + intros (h & task & H & Hb). by destruct (Hone _ _ H Hb) as (_ & Hg & _).
  - split.
    + intros Hg. destruct (Hyes Hg) as (-> & _). done.
    + intros [h Hh]. destruct (glitchStatus (status cam)); [done|].
      rewrite Hno in Hh; done.
  - intros Hst.
    assert (Hg : glitchStatus (status cam) = false)
      by (destruct Hst as [-> | ->]; reflexivity).
    split; [by apply Hnb|by apply Hno].
  - intros Hst.
    pose proof (statusEffects_frameView cam r (presentCamera id cam s)) as Hv.
    destruct (presentCamera_frames id cam s Hf) as (_ & Hoff & _).
    destruct Hoff as (H1 & H2 & H3 & _); [by rewrite Hst|].
    rewrite (frameView_frames _ _ Hv), (frameView_anim _ _ Hv),
      (frameView_generators _ _ Hv). done.
Qed.

Lemma glitch_scheduled_iff_degraded_witness :
  ReachableVia anyEvent (step samplePage (EvLoadScene "cam-reactor" (1 # 2))) /\
  noBumpPending
    (loadScene "cam-comms" (1 # 3)
       (step samplePage (EvLoadScene "cam-reactor" (1 # 2)))) /\
  frames (loadScene "cam-comms" (1 # 3)
            (step samplePage (EvLoadScene "cam-reactor" (1 # 2)))) = ∅.
Proof.
  assert (Hr : ReachableVia anyEvent
                 (step samplePage (EvLoadScene "cam-reactor" (1 # 2)))).
  { apply reach_step; [apply reach_init|exact I]. }
  assert (Hc : cameras (step samplePage (EvLoadScene "cam-reactor" (1 # 2)))
               !! "cam-comms"
               = Some (mkCamera "cam-comms" "SECTION C" "C-02 COMMUNICATIONS"
                         "OFFLINE" "--" "NO SIGNAL" "" false (JFin 7) 400 1200)).
  { vm_compute; reflexivity. }
  destruct (glitch_scheduled_iff_degraded _ "cam-comms" (1 # 3) _ Hr Hc)
    as (_ & _ & Hon & Hoff).
  split; [exact Hr|]. split.
  - exact (proj1 (Hon (or_intror eq_refl))).
  - exact (proj1 (Hoff eq_refl)).
Defined.

(* ===================================================================== *)
(** * What is mounted in the view                                         *)
(* ===================================================================== *)

Section Presentation.

Lemma stopGlitch_domView s : domView (stopGlitch s) = domView s.
Proof. unfold stopGlitch. destruct (glitchTimer s); reflexivity. Qed.

Lemma schedule_domView min max r s :
  domView (schedule min max r s) = domView s.
Proof. reflexivity. Qed.

Lemma statusEffects_domView cam r s :
  domView (statusEffects cam r s) = domView s.
Proof.
  unfold statusEffects, triggerGlitch.
  destruct (glitchStatus (status cam));
    rewrite ?schedule_domView, ?stopGlitch_domView; reflexivity.
Qed.

Lemma stopLostSignalEffect_dims s :
  viewOffsetWidth (stopLostSignalEffect s) = viewOffsetWidth s /\
  viewOffsetHeight (stopLostSignalEffect s) = viewOffsetHeight s.
Proof. unfold stopLostSignalEffect. by destruct (lostSignalAnimationId s). Qed.

Lemma stopLostSignalEffect_domView s :
  domView (stopLostSignalEffect s) = domView s.
Proof. unfold stopLostSignalEffect. by destruct (lostSignalAnimationId s). Qed.

Lemma startLostSignalEffect_domView canvas s :
  domView (startLostSignalEffect canvas s) = domView s.
Proof.
  unfold startLostSignalEffect.
  pose proof (stopLostSignalEffect_domView s) as Hv.
  destruct (elements (stopLostSignalEffect s) !! canvas); simpl; [|done].
  unfold domView in *. simpl. done.
Qed.

Lemma domView_proj s s' :
  domView s' = domView s ->
  elements s' = elements s /\ nextElement s' = nextElement s /\
  viewChildren s' = viewChildren s /\ panNode s' = panNode s /\
  panPaused s' = panPaused s /\ togglePanText s' = togglePanText s.
Proof. unfold domView. by intros [= -> -> -> -> -> ->]. Qed.

(** The media branch mounts exactly one element, the pan node. *)
Lemma presentCamera_media id cam s :
  String.eqb (status cam) "LOST SIGNAL" = false ->
  let s1 := presentCamera id cam s in
  let node := nextElement s in
  viewChildren s1 = [node] /\ panNode s1 = Some node /\
  panPaused s1 = false /\ togglePanText s1 = "PAUSE PAN" /\
  elements s1 !! node
  = Some (if panEnabled cam then setPlayState "running" (mediaElementOf cam)
          else mediaElementOf cam).
Proof.
  intros Hst. simpl. unfold presentCamera. rewrite Hst.
  destruct (domView_proj _ _ (stopLostSignalEffect_domView
                                (set_activeId (Some id) s)))
    as (Hel & Hne & _).
  simpl in Hel, Hne. unfold mountMedia, mediaElementOf.
  destruct (isVideo cam); fields; rewrite Hne, ?Hel;
    destruct (panEnabled cam); fields;
    rewrite ?lookup_alter_eq, lookup_insert_eq; done.
Qed.

(** The LOST SIGNAL branch leaves no pan node. *)
Lemma presentCamera_lost id cam s :
  String.eqb (status cam) "LOST SIGNAL" = true ->
  let s1 := presentCamera id cam s in
  panNode s1 = None /\ panPaused s1 = false /\ togglePanText s1 = "PAUSE PAN".
Proof.
  intros Hst. simpl. unfold presentCamera. rewrite Hst.
  set (m := mountLostSignal _).
  assert (Hm : panNode m = None).
  { subst m. unfold mountLostSignal. fields.
    match goal with |- context [startLostSignalEffect ?c ?s0] =>
      destruct (domView_proj _ _ (startLostSignalEffect_domView c s0))
        as (_ & _ & _ & -> & _) end.
    done. }
  clearbody m. simpl. rewrite Hm. done.
Qed.

Lemma togglePan_flag s : panPaused (togglePan s) = negb (panPaused s).
Proof. unfold togglePan. simpl. by destruct (panNode s). Qed.

Lemma togglePan_label s :
  togglePanText (togglePan s)
  = if negb (panPaused s) then "RESUME PAN" else "PAUSE PAN".
Proof. unfold togglePan. simpl. by destruct (panNode s). Qed.

Lemma togglePan_elements s :
  elements (togglePan s)
  = match panNode s with
    | Some node =>
        alter (setPlayState (if negb (panPaused s) then "paused" else "running"))
              node (elements s)
    | None => elements s
    end.
Proof. unfold togglePan. simpl. by destruct (panNode s). Qed.

End Presentation.

Lemma loadScene_domView id r s cam :
  cameras s !! id = Some cam ->
  domView (loadScene id r s) = domView (presentCamera id cam s).
Proof.
  intros Hcam. rewrite (loadScene_found _ _ _ _ Hcam).
  etrans; [|apply statusEffects_domView]. reflexivity.
Qed.

(** C10.  A camera of the registry whose status is not LOST SIGNAL and
    whose media URL is empty is shown as exactly one element in the view: an
    image whose source is the fixed "NO CAMERA FEED" placeholder. *)
Theorem empty_url_mounts_placeholder (s : State) (id : string) (r : Q)
    (cam : Camera) :
  cameras s !! id = Some cam ->
  status cam <> "LOST SIGNAL" ->
  imageUrl cam = "" ->
  exists img el,
    viewChildren (loadScene id r s) = [img] /\
    elements (loadScene id r s) !! img = Some el /\
    tagName el = IMG /\
    src el = "https://placehold.co/1600x600/031018/1d5b72?text=NO+CAMERA+FEED" /\
    alt el = location cam.
Proof.
  intros Hcam Hst Hurl.
  destruct (domView_proj _ _ (loadScene_domView id r s cam Hcam))
    as (-> & _ & -> & _).
  apply String.eqb_neq in Hst.
  destruct (presentCamera_media id cam s Hst) as (Hv & _ & _ & _ & He).
  assert (Hvid : isVideo cam = false) by (unfold isVideo; by rewrite Hurl).
  eexists _, _. split; [exact Hv|]. split; [exact He|].
  unfold mediaElementOf. rewrite Hvid, Hurl.
  destruct (panEnabled cam); done.
Qed.

Lemma empty_url_mounts_placeholder_witness :
  exists img el,
    viewChildren (loadScene "cam-comms" (1 # 2) samplePage) = [img] /\
    elements (loadScene "cam-comms" (1 # 2) samplePage) !! img = Some el /\
    tagName el = IMG /\
    src el = "https://placehold.co/1600x600/031018/1d5b72?text=NO+CAMERA+FEED" /\
    alt el = "C-02 COMMUNICATIONS".
Proof.
  apply (empty_url_mounts_placeholder samplePage "cam-comms" (1 # 2)
           (mkCamera "cam-comms" "SECTION C" "C-02 COMMUNICATIONS" "OFFLINE"
              "--" "NO SIGNAL" "" false (JFin 7) 400 1200)).
  - vm_compute; reflexivity.
  - simpl; congruence.
  - reflexivity.
Defined.

(* ===================================================================== *)
(** * Pan control                                                         *)
(* ===================================================================== *)

(** C9 (as amended).  Selecting a camera with [panEnabled] clears the
    pan-paused flag and labels the control "PAUSE PAN"; one toggle then sets
    the flag and the label "RESUME PAN", and every toggle flips the flag.
    When the camera's status is not LOST SIGNAL the mounted media element is
    the pan node: its play state is "running" after the selection and
    "paused" after the toggle.  For a LOST SIGNAL camera there is no pan
    node and the toggle changes no element. *)
Theorem pan_reset_then_toggle (s : State) (id : string) (r : Q) (cam : Camera) :
  cameras s !! id = Some cam ->
  panEnabled cam = true ->
  panPaused (loadScene id r s) = false /\
  togglePanText (loadScene id r s) = "PAUSE PAN" /\
  panPaused (togglePan (loadScene id r s)) = true /\
  togglePanText (togglePan (loadScene id r s)) = "RESUME PAN" /\
  (forall s', panPaused (togglePan s') = negb (panPaused s')) /\
  (status cam <> "LOST SIGNAL" ->
   exists node el1 el2,
     panNode (loadScene id r s) = Some node /\
     viewChildren (loadScene id r s) = [node] /\
     elements (loadScene id r s) !! node = Some el1 /\
     animationPlayState el1 = Some "running" /\
     elements (togglePan (loadScene id r s)) !! node = Some el2 /\
     animationPlayState el2 = Some "paused") /\
  (status cam = "LOST SIGNAL" ->
   panNode (loadScene id r s) = None /\
   elements (togglePan (loadScene id r s)) = elements (loadScene id r s)).
Proof.
  intros Hcam Hpan.
  rewrite togglePan_flag, togglePan_label, togglePan_elements.
  destruct (domView_proj _ _ (loadScene_domView id r s cam Hcam))
    as (-> & _ & -> & -> & -> & ->).
  destruct (String.eqb (status cam) "LOST SIGNAL") eqn:Hst.
  - destruct (presentCamera_lost id cam s Hst) as (Hn & Hp & Hl).
    apply String.eqb_eq in Hst. rewrite Hn, Hp, Hl.
    repeat split; try done. apply togglePan_flag.
  - destruct (presentCamera_media id cam s Hst) as (Hv & Hn & Hp & Hl & He).
    apply String.eqb_neq in Hst. rewrite Hn, Hp, Hl.
    repeat split; try done; [apply togglePan_flag|].
    intros _. rewrite Hpan in He. eexists _, _, _.
    split; [done|]. split; [exact Hv|]. split; [exact He|]. split; [done|].
    simpl. rewrite lookup_alter_eq, He. done.
Qed.

Lemma pan_reset_then_toggle_witness :
  panPaused (togglePan (loadScene "cam-corridor" (1 # 2) samplePage)) = true /\
  togglePanText (togglePan (loadScene "cam-corridor" (1 # 2) samplePage))
  = "RESUME PAN".
Proof.
  destruct (pan_reset_then_toggle samplePage "cam-corridor" (1 # 2)
              (mkCamera "cam-corridor" "SECTION A" "A-03 CORRIDOR (MAIN)"
                 "ONLINE" "14m" "ZOOM: 1.0x  |  PAN: H-AXIS"
                 "https://example.com/img/corridor.jpg" true (JFin 7) 400 1200))
    as (_ & _ & H1 & H2 & _).
  - vm_compute; reflexivity.
  - reflexivity.
  - exact (conj H1 H2).
Defined.

(** A LOST SIGNAL camera with [panEnabled] has no animation to pause: after
    selecting "cam-reactor" and toggling once, the pan node is empty and no
    element of the document carries a play state. *)
Lemma pan_toggle_lost_signal_counterexample :
  (panEnabled <$> sampleCameras !! "cam-reactor") = Some true /\
  panNode (togglePan (loadScene "cam-reactor" (1 # 2) samplePage)) = None /\
  map (fun e => animationPlayState e.2)
      (map_to_list
         (elements (togglePan (loadScene "cam-reactor" (1 # 2) samplePage))))
  = [None; None; None].
Proof. vm_compute. repeat split. Qed.

(* ===================================================================== *)
(** * Defaults of the numeric camera fields                               *)
(* ===================================================================== *)

Lemma truthyNum_false n :
  truthyNum n = false <-> n = JNaN \/ exists q, n = JFin q /\ (q == 0)%Q.
Proof.
  destruct n as [|b|q]; simpl.
  - split; [by left|done].
  - split; [done|]. intros [?|(q & ? & _)]; done.
  - rewrite negb_false_iff, Qeq_bool_iff. split.
    + intros H. right. by exists q.
    + intros [?|(q' & [= <-] & H)]; done.
Qed.

(** C4 (as amended).  For every loaded row, [panDuration] is the number
    [parseFloat] reads from the panDuration cell when that number is neither
    [NaN] nor zero, and 7 otherwise; [glitchMinMs] and [glitchMaxMs] are the
    integers [parseInt] reads from their cells when these are neither [NaN]
    nor zero, and 400 and 1200 otherwise. *)
Theorem numeric_fields_defaults (entry : Entry) :
  (forall n, parseFloat (entry !! "panduration") = n ->
     (n <> JNaN /\ (forall q, n = JFin q -> ~ (q == 0)%Q) ->
      panDuration (cameraOfEntry entry) = n) /\
     (n = JNaN \/ (exists q, n = JFin q /\ (q == 0)%Q) ->
      panDuration (cameraOfEntry entry) = JFin 7)) /\
  (forall z, parseInt (entry !! "glitchminms") = Some z -> z <> 0 ->
     glitchMinMs (cameraOfEntry entry) = z) /\
  (parseInt (entry !! "glitchminms") = None
   \/ parseInt (entry !! "glitchminms") = Some 0 ->
   glitchMinMs (cameraOfEntry entry) = 400) /\
  (forall z, parseInt (entry !! "glitchmaxms") = Some z -> z <> 0 ->
     glitchMaxMs (cameraOfEntry entry) = z) /\
  (parseInt (entry !! "glitchmaxms") = None
   \/ parseInt (entry !! "glitchmaxms") = Some 0 ->
   glitchMaxMs (cameraOfEntry entry) = 1200).
Proof.
  unfold cameraOfEntry; cbn [panDuration glitchMinMs glitchMaxMs].
  repeat split.
  - intros [Hnan Hz]. subst n. unfold numOr.
    destruct (truthyNum _) eqn:Ht; [done|].
    apply truthyNum_false in Ht as [?|(q & Hq & H0)]; [done|].
    by destruct (Hz q Hq).
  - intros Hn. subst n. apply truthyNum_false in Hn. unfold numOr.
    by rewrite Hn.
  - intros z -> Hz. simpl. by apply Z.eqb_neq in Hz as ->.
  - by intros [-> | ->].
  - intros z -> Hz. simpl. by apply Z.eqb_neq in Hz as ->.
  - by intros [-> | ->].
Qed.

(** A cell holding "0" parses to the number zero and still gets the
    default: the row of "cam-comms" in the sample sheet. *)
Lemma zero_cell_defaults_counterexample :
  parseSheetData sampleRows !! 3%nat = Some commsEntry /\
  commsEntry !! "camid" = Some "cam-comms" /\
  parseFloat (commsEntry !! "panduration") = JFin 0 /\
  panDuration (cameraOfEntry commsEntry) = JFin 7 /\
  parseInt (commsEntry !! "glitchminms") = Some 0 /\
  glitchMinMs (cameraOfEntry commsEntry) = 400 /\
  parseInt (commsEntry !! "glitchmaxms") = Some 0 /\
  glitchMaxMs (cameraOfEntry commsEntry) = 1200.
Proof. repeat split; vm_compute; reflexivity. Qed.

(* ===================================================================== *)
(** * The noise buffer, byte by byte                                      *)
(* ===================================================================== *)

Section ByteStores.

Lemma writeByte_length i v d : length (writeByte i v d) = length d.
Proof. apply length_insert. Qed.

Lemma writeByte_lookup_ne i j v (d : list Z) :
  i <> j -> writeByte i v d !! j = d !! j.
Proof. apply list_lookup_insert_ne. Qed.

Lemma writeByte_lookup_eq i j v (d : list Z) :
  i = j -> writeByte i v d !! j = (fun _ => toUint8Clamp v) <$> d !! j.
Proof.
  intros <-. unfold writeByte. destruct (d !! i) as [old|] eqn:Hi; simpl.
  - apply list_lookup_insert_eq. by eapply lookup_lt_Some.
  - rewrite list_insert_ge; [done|]. by apply lookup_ge_None.
Qed.

Lemma readByte_writeByte_ne i j v d :
  i <> j -> readByte j (writeByte i v d) = readByte j d.
Proof. intros H. unfold readByte. by rewrite writeByte_lookup_ne. Qed.

Lemma readByte_lookup i (d : list Z) v : d !! i = Some v -> readByte i d = v.
Proof. unfold readByte. by intros ->. Qed.

(** Integers already in 0..255 are stored as they are. *)
Lemma toUint8Clamp_byte z : 0 <= z <= 255 -> toUint8Clamp (inject_Z z) = z.
Proof.
  intros Hz. unfold toUint8Clamp.
  destruct (inject_Z z ?= 0)%Q eqn:H0.
  - apply Qeq_alt in H0. unfold Qeq in H0. simpl in H0. lia.
  - apply Qlt_alt in H0. unfold Qlt in H0. simpl in H0. lia.
  - destruct (inject_Z z ?= 255)%Q eqn:H255.
    + apply Qeq_alt in H255. unfold Qeq in H255. simpl in H255. lia.
    + rewrite Qfloor_Z.
      destruct (inject_Z z ?= inject_Z z + (1 # 2))%Q eqn:Hh; [|done|].
      * apply Qeq_alt in Hh. unfold Qeq in Hh. simpl in Hh. lia.
      * apply Qgt_alt in Hh. unfold Qlt in Hh. simpl in Hh. lia.
    + apply Qgt_alt in H255. unfold Qlt in H255. simpl in H255. lia.
Qed.

(** Whatever is stored is a byte. *)
Lemma toUint8Clamp_range q : 0 <= toUint8Clamp q <= 255.
Proof.
  unfold toUint8Clamp.
  destruct (q ?= 0)%Q eqn:H0; try lia.
  destruct (q ?= 255)%Q eqn:H255; try lia.
  apply Qgt_alt in H0. apply Qlt_alt in H255.
  assert (0 <= Qfloor q).
  { change 0 with (Qfloor 0). apply Qfloor_resp_le. by apply Qlt_le_weak. }
  assert (Qfloor q < 255).
  { rewrite Zlt_Qlt. eapply Qle_lt_trans; [apply Qfloor_le|exact H255]. }
  destruct (Qcompare _ (_ + _)); [destruct (Z.even _)|..]; lia.
Qed.

End ByteStores.

(** Strip a stack of byte stores off a lookup. *)
Ltac byte_lookup :=
  repeat first
    [ rewrite writeByte_lookup_ne by lia
    | rewrite writeByte_lookup_eq by lia
    | rewrite readByte_writeByte_ne by lia ].

(** A loop that visits pixels [b, b + k) in order, each step touching only
    the four bytes of its pixel. *)
Section PixelLoop.

Variable step : list Z -> nat -> list Z.

Hypothesis step_other : forall d p q c,
  (c < 4)%nat -> q <> p ->
  step d p !! (4 * q + c)%nat = d !! (4 * q + c)%nat.

Hypothesis step_local : forall d d' p c,
  (c < 4)%nat ->
  (forall c', (c' < 4)%nat ->
              d !! (4 * p + c')%nat = d' !! (4 * p + c')%nat) ->
  step d p !! (4 * p + c)%nat = step d' p !! (4 * p + c)%nat.

Lemma pixel_loop_lookup k b d q c :
  (c < 4)%nat ->
  foldl step d (seq b k) !! (4 * q + c)%nat
  = if decide (b <= q < b + k)%nat then step d q !! (4 * q + c)%nat
    else d !! (4 * q + c)%nat.
Proof.
  revert q c. induction k as [|k IH]; intros q c Hc.
  - simpl. case_decide; [lia|done].
  - rewrite seq_S, foldl_snoc.
    destruct (decide (q = b + k)%nat) as [->|Hne].
    + rewrite decide_True by lia.
      apply step_local; [done|]. intros c' Hc'.
      rewrite IH by done. case_decide; [lia|done].
    + rewrite step_other, IH by done.
      repeat case_decide; try lia; done.
Qed.

End PixelLoop.

Lemma foldl_length {B} (step : list Z -> B -> list Z) :
  (forall d p, length (step d p) = length d) ->
  forall l d, length (foldl step d l) = length d.
Proof.
  intros Hstep l. induction l as [|p l IH]; intros d; simpl; [done|].
  by rewrite IH, Hstep.
Qed.

Lemma pixelCount_exact (d : list Z) n :
  length d = (4 * n)%nat -> pixelCount d = n.
Proof.
  intros H. unfold pixelCount. rewrite H.
  symmetry. apply (Nat.div_unique _ 4 n 3); lia.
Qed.

Section Passes.

(** ** Base static *)

Lemma baseStep_length rnd d p : length (baseStep rnd d p) = length d.
Proof. unfold baseStep. by rewrite !writeByte_length. Qed.

Lemma baseStep_other rnd d p q c :
  (c < 4)%nat -> q <> p ->
  baseStep rnd d p !! (4 * q + c)%nat = d !! (4 * q + c)%nat.
Proof. intros Hc Hq. unfold baseStep. by byte_lookup. Qed.

Lemma baseStep_at rnd d p c :
  (c < 4)%nat ->
  baseStep rnd d p !! (4 * p + c)%nat
  = (fun _ => if (c =? 3)%nat then 255 else baseValue (rnd p))
    <$> d !! (4 * p + c)%nat.
Proof.
  intros Hc. unfold baseStep, baseValue.
  destruct c as [|[|[|[|c]]]]; [| | | |lia]; byte_lookup; reflexivity.
Qed.

Lemma basePass_length rnd d : length (basePass rnd d) = length d.
Proof. apply foldl_length, baseStep_length. Qed.

Lemma basePass_lookup rnd (d : list Z) n p c :
  length d = (4 * n)%nat -> (p < n)%nat -> (c < 4)%nat ->
  basePass rnd d !! (4 * p + c)%nat
  = Some (if (c =? 3)%nat then 255 else baseValue (rnd p)).
Proof.
  intros Hlen Hp Hc. unfold basePass.
  rewrite (pixelCount_exact d n Hlen).
  rewrite (pixel_loop_lookup (baseStep rnd)); [|apply baseStep_other| |done].
  - rewrite decide_True by lia. rewrite baseStep_at by done.
    destruct (lookup_lt_is_Some_2 d (4 * p + c)%nat) as [old ->]; [lia|done].
  - intros d1 d2 p' c' Hc' Hagree. rewrite !baseStep_at by done.
    by rewrite Hagree.
Qed.

(** A draw in [0, 1) is stored as a gray level from 100 to 170. *)
Lemma baseValue_range r : unitDraw r -> 100 <= baseValue r <= 170.
Proof.
  intros [H0 H1]. unfold baseValue, toUint8Clamp.
  assert (Hlo : (100 <= 100 + r * 70)%Q) by nra.
  assert (Hhi : (100 + r * 70 < 170)%Q) by nra.
  destruct (_ ?= 0)%Q eqn:E0.
  - apply Qeq_alt in E0. nra.
  - apply Qlt_alt in E0. nra.
  - destruct (_ ?= 255)%Q eqn:E255.
    + apply Qeq_alt in E255. nra.
    + assert (100 <= Qfloor (100 + r * 70)).
      { change 100 with (Qfloor 100). by apply Qfloor_resp_le. }
      assert (Qfloor (100 + r * 70) < 170).
      { rewrite Zlt_Qlt. eapply Qle_lt_trans; [apply Qfloor_le|exact Hhi]. }
      destruct (Qcompare _ (_ + _)); [destruct (Z.even _)|..]; lia.
    + apply Qgt_alt in E255. nra.
Qed.

(** ** Temporal blend *)

Lemma blendStep_length prev d p : length (blendStep prev d p) = length d.
Proof. unfold blendStep, blendChannel. by rewrite !writeByte_length. Qed.

Lemma blendStep_other prev d p q c :
  (c < 4)%nat -> q <> p ->
  blendStep prev d p !! (4 * q + c)%nat = d !! (4 * q + c)%nat.
Proof. intros Hc Hq. unfold blendStep, blendChannel. by byte_lookup. Qed.

Lemma blendStep_at prev d p c :
  (c < 4)%nat ->
  blendStep prev d p !! (4 * p + c)%nat
  = (fun cur => if (c <? 3)%nat
                then blendValue cur (readByte (4 * p + c) prev) else cur)
    <$> d !! (4 * p + c)%nat.
Proof.
  intros Hc. unfold blendStep, blendChannel, blendValue, blend.
  destruct c as [|[|[|[|c]]]]; [| | | |lia]; byte_lookup;
    try (replace (4 * p + 0)%nat with (4 * p)%nat by lia);
    unfold readByte; destruct (d !! _); reflexivity.
Qed.

Lemma blendPass_length prev d : length (blendPass prev d) = length d.
Proof. apply foldl_length, blendStep_length. Qed.

Lemma blendPass_lookup prev (d : list Z) n p c cur :
  length d = (4 * n)%nat -> (c < 4)%nat ->
  d !! (4 * p + c)%nat = Some cur ->
  blendPass prev d !! (4 * p + c)%nat
  = Some (if (c <? 3)%nat
          then blendValue cur (readByte (4 * p + c) prev) else cur).
Proof.
  intros Hlen Hc Hcur. unfold blendPass.
  rewrite (pixelCount_exact d n Hlen).
  assert (p < n)%nat by (apply lookup_lt_Some in Hcur; lia).
  rewrite (pixel_loop_lookup (blendStep prev)); [|apply blendStep_other| |done].
  - rewrite decide_True by lia. rewrite blendStep_at by done. by rewrite Hcur.
  - intros d1 d2 p' c' Hc' Hagree. rewrite !blendStep_at by done.
    by rewrite Hagree.
Qed.

(** ** Luminance band *)

Lemma brighten_length i d : length (brighten i d) = length d.
Proof. apply writeByte_length. Qed.

Lemma bandPixel_bandStep smallW y d x :
  bandPixel smallW y d x = bandStep d (y * smallW + x).
Proof. reflexivity. Qed.

Lemma bandStep_length d p : length (bandStep d p) = length d.
Proof. unfold bandStep. by rewrite !brighten_length. Qed.

Lemma bandStep_other d p q c :
  (c < 4)%nat -> q <> p ->
  bandStep d p !! (4 * q + c)%nat = d !! (4 * q + c)%nat.
Proof. intros Hc Hq. unfold bandStep, brighten. by byte_lookup. Qed.

Lemma bandStep_at d p c :
  (c < 4)%nat ->
  bandStep d p !! (4 * p + c)%nat = bandValue c <$> d !! (4 * p + c)%nat.
Proof.
  intros Hc. unfold bandStep, brighten, bandValue.
  replace (p * 4)%nat with (4 * p)%nat by lia.
  destruct c as [|[|[|[|c]]]]; [| | | |lia]; byte_lookup;
    try (replace (4 * p + 0)%nat with (4 * p)%nat by lia);
    unfold readByte; destruct (d !! _); reflexivity.
Qed.

Lemma bandLine_length smallW smallH d y :
  length (bandLine smallW smallH d y) = length d.
Proof.
  unfold bandLine. destruct (_ || _); [done|].
  apply foldl_length. intros d' x. apply bandStep_length.
Qed.

Lemma bandLine_lookup smallW smallH d (y : Z) q c :
  (c < 4)%nat ->
  bandLine smallW smallH d y !! (4 * q + c)%nat
  = if decide (0 <= y < Z.of_nat smallH /\
               (Z.to_nat y * smallW <= q < Z.to_nat y * smallW + smallW)%nat)
    then bandValue c <$> d !! (4 * q + c)%nat
    else d !! (4 * q + c)%nat.
Proof.
  intros Hc. unfold bandLine.
  destruct ((y <? 0) || (Z.of_nat smallH <=? y)) eqn:Hout.
  - rewrite decide_False; [done|]. intros [Hy _].
    apply orb_true_iff in Hout as [H|H]; lia.
  - apply orb_false_iff in Hout as [H1 H2].
    assert (Hseq : foldl (bandPixel smallW (Z.to_nat y)) d (seq 0 smallW)
                   = foldl bandStep d (seq (Z.to_nat y * smallW + 0) smallW)).
    { rewrite <- fmap_add_seq, foldl_fmap. reflexivity. }
    rewrite Hseq.
    rewrite (pixel_loop_lookup bandStep); [|apply bandStep_other| |done].
    + rewrite bandStep_at by done.
      repeat case_decide; try lia; done.
    + intros d1 d2 p' c' Hc' Hagree. rewrite !bandStep_at by done.
      by rewrite Hagree.
Qed.

(** A row of the buffer is hit by the band line of that row only. *)
Lemma bandLine_lookup_row smallW smallH d (yk : Z) x y c :
  (x < smallW)%nat -> (y < smallH)%nat -> (c < 4)%nat ->
  bandLine smallW smallH d yk !! (4 * (y * smallW + x) + c)%nat
  = if decide (yk = Z.of_nat y)
    then bandValue c <$> d !! (4 * (y * smallW + x) + c)%nat
    else d !! (4 * (y * smallW + x) + c)%nat.
Proof.
  intros Hx Hy Hc. rewrite bandLine_lookup by done.
  destruct (decide (yk = Z.of_nat y)) as [->|Hne].
  - rewrite decide_True; [done|]. rewrite Nat2Z.id. split; lia.
  - rewrite decide_False; [done|]. intros [Hyk Hq]. apply Hne.
    assert (Z.to_nat yk = y) by nia. lia.
Qed.

Lemma bandPass_length smallW smallH bandY d :
  length (bandPass smallW smallH bandY d) = length d.
Proof. apply foldl_length. intros d' y. apply bandLine_length. Qed.

Lemma bandPass_lookup smallW smallH bandY (d : list Z) x y c :
  (x < smallW)%nat -> (y < smallH)%nat -> (c < 4)%nat ->
  bandPass smallW smallH bandY d !! (4 * (y * smallW + x) + c)%nat
  = (if decide (bandY - 3 <= Z.of_nat y < bandY + 3) then bandValue c else id)
    <$> d !! (4 * (y * smallW + x) + c)%nat.
Proof.
  intros Hx Hy Hc. unfold bandPass.
  change (seqZ (bandY - 3) 6)
    with [0 + (bandY - 3); 1 + (bandY - 3); 2 + (bandY - 3);
          3 + (bandY - 3); 4 + (bandY - 3); 5 + (bandY - 3)].
  cbn [foldl]. rewrite !bandLine_lookup_row by done.
  destruct (d !! _) as [old|]; simpl;
    repeat case_decide; try lia; reflexivity.
Qed.

(** ** Speckles *)

Lemma speckleStep_length smallW smallH rnd first d k :
  length (speckleStep smallW smallH rnd first d k) = length d.
Proof.
  unfold speckleStep. destruct (_ <? 0); [done|].
  by rewrite !writeByte_length.
Qed.

Lemma specklePass_length smallW smallH rnd first d :
  length (specklePass smallW smallH rnd first d) = length d.
Proof. apply foldl_length. intros d' k. apply speckleStep_length. Qed.

Lemma speckleStep_lookup smallW smallH rnd first (d : list Z) k q c :
  (c < 4)%nat ->
  speckleStep smallW smallH rnd first d k !! (4 * q + c)%nat
  = if bool_decide (specklePixel smallW smallH rnd first k = Some q)
       && (c <? 3)%nat
    then (fun _ => 255) <$> d !! (4 * q + c)%nat
    else d !! (4 * q + c)%nat.
Proof.
  intros Hc. unfold speckleStep, specklePixel.
  set (v := toInt32 _ * Z.of_nat smallW + toInt32 _).
  destruct (v * 4 <? 0) eqn:Hneg.
  - rewrite bool_decide_eq_false_2; done.
  - apply Z.ltb_ge in Hneg.
    replace (Z.to_nat (v * 4)) with (4 * Z.to_nat v)%nat by lia.
    destruct (decide (Z.to_nat v = q)) as [<-|Hne].
    + rewrite bool_decide_eq_true_2 by done.
      destruct c as [|[|[|[|c]]]]; [| | | |lia]; simpl; byte_lookup;
        try (replace (4 * Z.to_nat v + 0)%nat with (4 * Z.to_nat v)%nat by lia);
        byte_lookup; reflexivity.
    + rewrite bool_decide_eq_false_2 by congruence. simpl. by byte_lookup.
Qed.

Lemma specklePass_lookup smallW smallH rnd first (d : list Z) q c :
  (c < 4)%nat ->
  specklePass smallW smallH rnd first d !! (4 * q + c)%nat
  = if speckled smallW smallH rnd first (speckleCount smallW smallH) q
       && (c <? 3)%nat
    then (fun _ => 255) <$> d !! (4 * q + c)%nat
    else d !! (4 * q + c)%nat.
Proof.
  intros Hc. unfold specklePass, speckled.
  induction (speckleCount smallW smallH) as [|n IH]; [done|].
  rewrite seq_S, foldl_snoc, existsb_app, speckleStep_lookup, IH by done.
  simpl. rewrite orb_false_r.
  destruct (existsb _ _), (bool_decide _), (c <? 3)%nat, (d !! _); reflexivity.
Qed.

(** ** A whole frame *)

Lemma rawFrame_length smallW smallH t rnd d :
  length (rawFrame smallW smallH t rnd d) = length d.
Proof.
  unfold rawFrame.
  by rewrite specklePass_length, bandPass_length, basePass_length.
Qed.

Lemma blendWith_length prev d : length (blendWith prev d) = length d.
Proof.
  unfold blendWith. destruct prev as [p|]; [|done].
  destruct (_ =? _)%nat; [apply blendPass_length|done].
Qed.

End Passes.

(* ===================================================================== *)
(** * Rendered frames                                                     *)
(* ===================================================================== *)

Section Frames.

Lemma newGenerator_GenOk canvas w h : GenOk (newGenerator canvas w h).
Proof.
  split; [|done]. unfold newGenerator, createImageData. simpl.
  rewrite length_replicate. lia.
Qed.

Lemma rawFrame_lookup smallW smallH t rnd (d : list Z) x y c :
  length d = (4 * (smallH * smallW))%nat ->
  (x < smallW)%nat -> (y < smallH)%nat -> (c < 4)%nat ->
  rawFrame smallW smallH t rnd d !! (4 * (y * smallW + x) + c)%nat
  = Some (rawValue smallW smallH t rnd x y c).
Proof.
  intros Hlen Hx Hy Hc. unfold rawFrame, rawValue.
  rewrite (pixelCount_exact d _ Hlen).
  rewrite specklePass_lookup, bandPass_lookup by done.
  rewrite (basePass_lookup rnd d (smallH * smallW)); [|done|nia|done].
  simpl. destruct (speckled _ _ _ _ _ _ && _); [done|].
  destruct (decide _) as [Hin|Hout].
  - by rewrite bool_decide_eq_true_2.
  - by rewrite bool_decide_eq_false_2.
Qed.

(** A call of [drawNoise] that comes too early renders nothing. *)
Lemma drawNoise_skipped now rnd g :
  (now - gen_last g < frameInterval)%Q -> drawNoise now rnd g = (g, false).
Proof.
  intros H. unfold drawNoise.
  destruct (Qcompare _ _) eqn:Hc; [|reflexivity|]; exfalso.
  - apply Qeq_alt in Hc. lra.
  - apply Qgt_alt in Hc. lra.
Qed.

Lemma drawNoise_rendered now rnd g :
  (frameInterval <= now - gen_last g)%Q ->
  drawNoise now rnd g
  = (let data := blendWith (gen_prev g)
                   (rawFrame (gen_smallW g) (gen_smallH g) (frameTime now g)
                      rnd (gen_data g)) in
     {| gen_canvas := gen_canvas g; gen_w := gen_w g; gen_h := gen_h g;
        gen_smallW := gen_smallW g; gen_smallH := gen_smallH g;
        gen_data := data; gen_last := now; gen_t := frameTime now g;
        gen_prev := Some data; gen_shown := Some data |}, true).
Proof.
  intros H. unfold drawNoise.
  destruct (Qcompare _ _) eqn:Hc; try reflexivity.
  apply Qlt_alt in Hc. lra.
Qed.

Lemma drawNoise_GenOk now rnd g : GenOk g -> GenOk (fst (drawNoise now rnd g)).
Proof.
  intros [Hlen Hprev].
  destruct (Qlt_le_dec (now - gen_last g) frameInterval) as [Hs|Hr].
  - by rewrite drawNoise_skipped.
  - rewrite drawNoise_rendered by done. split; cbn [fst gen_data gen_smallW
      gen_smallH gen_prev].
    + by rewrite blendWith_length, rawFrame_length.
    + by intros prev [= <-].
Qed.

(** Every byte of a rendered frame. *)
Lemma drawNoise_lookup now rnd g x y c :
  GenOk g -> (frameInterval <= now - gen_last g)%Q ->
  (x < gen_smallW g)%nat -> (y < gen_smallH g)%nat -> (c < 4)%nat ->
  gen_data (fst (drawNoise now rnd g)) !! (4 * (y * gen_smallW g + x) + c)%nat
  = Some
      (let cur := rawValue (gen_smallW g) (gen_smallH g) (frameTime now g)
                    rnd x y c in
       match gen_prev g with
       | Some prev =>
           if (c <? 3)%nat
           then blendValue cur
                  (readByte (4 * (y * gen_smallW g + x) + c) prev)
           else cur
       | None => cur
       end).
Proof.
  intros [Hlen Hprev] Hr Hx Hy Hc. rewrite drawNoise_rendered by done.
  cbn [fst gen_data]. unfold blendWith.
  pose proof (rawFrame_lookup (gen_smallW g) (gen_smallH g) (frameTime now g)
                rnd (gen_data g) x y c Hlen Hx Hy Hc) as Hraw.
  destruct (gen_prev g) as [prev|]; [|exact Hraw].
  rewrite rawFrame_length, (Hprev prev eq_refl), Nat.eqb_refl.
  apply (blendPass_lookup prev _ (gen_smallH g * gen_smallW g));
    [by rewrite rawFrame_length|done|exact Hraw].
Qed.

End Frames.

Section Generators.

Lemma stopLostSignalEffect_generators s :
  generators (stopLostSignalEffect s) = generators s.
Proof. unfold stopLostSignalEffect. by destruct (lostSignalAnimationId s). Qed.

Lemma startLostSignalEffect_generators canvas s id g :
  generators (startLostSignalEffect canvas s) !! id = Some g ->
  generators s !! id = Some g \/ exists w h, g = newGenerator canvas w h.
Proof.
  unfold startLostSignalEffect.
  destruct (elements (stopLostSignalEffect s) !! canvas) as [el|]; fields;
    rewrite stopLostSignalEffect_generators; [|by left].
  intros H. apply lookup_insert_Some in H as [[_ <-]|[_ H]]; [|by left].
  right. by eexists _, _.
Qed.

Lemma presentCamera_generators id cam s gid g :
  generators (presentCamera id cam s) !! gid = Some g ->
  generators s !! gid = Some g \/ exists canvas w h, g = newGenerator canvas w h.
Proof.
  unfold presentCamera.
  set (s1 := set_viewChildren [] (stopLostSignalEffect (set_activeId (Some id) s))).
  assert (Hs1 : generators s1 = generators s).
  { subst s1. simpl. by rewrite stopLostSignalEffect_generators. }
  set (m := if String.eqb (status cam) "LOST SIGNAL" then mountLostSignal s1
            else mountMedia cam s1).
  assert (Hm : generators m !! gid = Some g ->
               generators s !! gid = Some g \/
               exists canvas w h, g = newGenerator canvas w h).
  { subst m. destruct (String.eqb (status cam) "LOST SIGNAL").
    - unfold mountLostSignal. fields. intros H.
      apply startLostSignalEffect_generators in H as [H|(w & h & ->)].
      + left. simpl in H. by rewrite <- Hs1.
      + right. by eexists _, _, _.
    - destruct (mountMedia_frames cam s1) as (_ & _ & _ & -> & _).
      rewrite Hs1. by left. }
  clearbody m. present_tail m; done.
Qed.

Lemma step_GensOk s e : GensOk s -> GensOk (step s e).
Proof.
  intros Hok id g.
  destruct e as [cid r|min max r| |canvas| | |h r|h now rnd]; unfold step.
  - destruct (cameras s !! cid) as [cam|] eqn:Hcam.
    + rewrite (loadScene_found _ _ _ _ Hcam). simpl.
      rewrite (frameView_generators _ _ (statusEffects_frameView cam r _)).
      intros H. apply presentCamera_generators in H as [H|(c & w & h & ->)];
        [by eapply Hok|apply newGenerator_GenOk].
    + unfold loadScene. rewrite Hcam. apply Hok.
  - unfold triggerGlitch.
    rewrite (frameView_generators _ _ (schedule_frameView _ _ _ _)),
      (frameView_generators _ _ (stopGlitch_frameView _)). apply Hok.
  - rewrite (frameView_generators _ _ (stopGlitch_frameView _)). apply Hok.
  - intros H. apply startLostSignalEffect_generators in H as [H|(w & h & ->)];
      [by eapply Hok|apply newGenerator_GenOk].
  - rewrite stopLostSignalEffect_generators. apply Hok.
  - rewrite (frameView_generators _ _ (proj2 (togglePan_views s))). apply Hok.
  - rewrite (frameView_generators _ _ (timerFires_frameView _ _ _)). apply Hok.
  - unfold frameFires. destruct (frames s !! h) as [gen|]; [|apply Hok]. simpl.
    destruct (generators s !! gen) as [g0|] eqn:Hg0; [|apply Hok]. fields.
    intros H. apply lookup_insert_Some in H as [[_ <-]|[_ H]]; [|by eapply Hok].
    apply drawNoise_GenOk. by eapply Hok.
Qed.

Lemma reachable_GensOk ok s : ReachableVia ok s -> GensOk s.
Proof.
  induction 1 as [cams items viewW viewH|s e _ IH _].
  - intros id g H. simpl in H. simplify_map_eq.
  - by apply step_GensOk.
Qed.

(** What [frameFires] does to the generator that asked for the frame. *)
Lemma frameFires_generator h now rnd s gen g :
  frames s !! h = Some gen -> generators s !! gen = Some g ->
  generators (frameFires h now rnd s) !! gen = Some (fst (drawNoise now rnd g)).
Proof.
  intros Hh Hg. unfold frameFires. rewrite Hh. simpl. rewrite Hg. fields.
  by rewrite lookup_insert_eq.
Qed.

End Generators.

(* ===================================================================== *)
(** * Base static                                                         *)
(* ===================================================================== *)




(* ===================================================================== *)
(** * Luminance band                                                      *)
(* ===================================================================== *)




(* ===================================================================== *)
(** * Temporal blend                                                      *)
(* ===================================================================== *)

Section RenderedGenerator.

Lemma drawNoise_dims now rnd g :
  gen_smallW (fst (drawNoise now rnd g)) = gen_smallW g /\
  gen_smallH (fst (drawNoise now rnd g)) = gen_smallH g.
Proof.
  destruct (Qlt_le_dec (now - gen_last g) frameInterval) as [Hs|Hr].
  - by rewrite drawNoise_skipped.
  - by rewrite drawNoise_rendered.
Qed.

Lemma drawNoise_clock now rnd g :
  (frameInterval <= now - gen_last g)%Q ->
  gen_last (fst (drawNoise now rnd g)) = now /\
  gen_t (fst (drawNoise now rnd g)) = frameTime now g /\
  gen_prev (fst (drawNoise now rnd g))
  = Some (gen_data (fst (drawNoise now rnd g))).
Proof. intros Hr. by rewrite drawNoise_rendered. Qed.

End RenderedGenerator.

(** C6 (as amended).  When a pending frame of a reachable page is served
    at least [1000/24] ms after the generator's last rendered frame, the
    generator renders: its buffer becomes the frame and is remembered as
    the previous frame for the next one.  If the generator has no previous
    frame, the frame is written without blending.  Otherwise every colour
    channel holds [current * (1 - 0.85) + previous * 0.85], rounded to the
    nearest integer by the byte buffer (ties to even), where [previous] is
    the same byte of the frame rendered just before, and alpha is not
    blended.  A generator started by [startLostSignalEffect], whatever ran
    before, has no previous frame. *)
Theorem temporal_blend_of_frames (s : State) (h id : positive) (g : NoiseGen)
    (now : Q) (rnd : nat -> Q) :
  ReachableVia anyEvent s ->
  frames s !! h = Some id ->
  generators s !! id = Some g ->
  (frameInterval <= now - gen_last g)%Q ->
  generators (frameFires h now rnd s) !! id = Some (fst (drawNoise now rnd g)) /\
  gen_prev (fst (drawNoise now rnd g))
  = Some (gen_data (fst (drawNoise now rnd g))) /\
  (gen_prev g = None ->
   gen_data (fst (drawNoise now rnd g))
   = rawFrame (gen_smallW g) (gen_smallH g) (frameTime now g) rnd (gen_data g)) /\
  (forall prev x y c cur,
     gen_prev g = Some prev ->
     (x < gen_smallW g)%nat -> (y < gen_smallH g)%nat -> (c < 4)%nat ->
     rawFrame (gen_smallW g) (gen_smallH g) (frameTime now g) rnd (gen_data g)
       !! (4 * (y * gen_smallW g + x) + c)%nat = Some cur ->
     gen_data (fst (drawNoise now rnd g)) !! (4 * (y * gen_smallW g + x) + c)%nat
     = Some (if (c <? 3)%nat
             then toUint8Clamp
                    (inject_Z cur * (1 - (85 # 100))
                     + inject_Z (readByte (4 * (y * gen_smallW g + x) + c) prev)
                       * (85 # 100))
             else cur)) /\
  (forall canvas h2 id2,
     frames (startLostSignalEffect canvas s) !! h2 = Some id2 ->
     exists g2, generators (startLostSignalEffect canvas s) !! id2 = Some g2 /\
                gen_prev g2 = None).
Proof.
  intros Hr Hh Hg Hnow.
  pose proof (reachable_GensOk _ _ Hr _ _ Hg) as Hok.
  destruct (reachable_Inv _ _ Hr) as [_ Hf].
  split; [by apply frameFires_generator|].
  split; [by apply drawNoise_clock|].
  split; [|split].
  - intros Hnone. rewrite drawNoise_rendered by done. cbn [fst gen_data].
    by rewrite Hnone.
  - intros prev x y c cur Hprev Hx Hy Hc Hcur.
    rewrite drawNoise_lookup, Hprev by done. cbn zeta.
    rewrite (rawFrame_lookup _ _ _ _ _ x y c (proj1 Hok) Hx Hy Hc) in Hcur.
    by injection Hcur as ->.
  - intros canvas h2 id2 H2.
    destruct (startLostSignalEffect_spec canvas s Hf) as (_ & Hnew).
    destruct (Hnew _ _ H2) as (_ & _ & el & _ & Hgen). eauto.
Qed.

Lemma temporal_blend_of_frames_witness :
  gen_data (fst (drawNoise 100 (fun _ => 1 # 2) (newGenerator 2 100 100)))
  = rawFrame 64 64 (frameTime 100 (newGenerator 2 100 100)) (fun _ => 1 # 2)
      (gen_data (newGenerator 2 100 100)).
Proof.
  assert (Hr : ReachableVia anyEvent
                 (step smallPage (EvLoadScene "cam-reactor" (1 # 2)))).
  { apply reach_step; [apply reach_init|exact I]. }
  assert (Hh : frames (step smallPage (EvLoadScene "cam-reactor" (1 # 2)))
               !! 1%positive = Some 1%positive).
  { vm_compute; reflexivity. }
  assert (Hg : generators (step smallPage (EvLoadScene "cam-reactor" (1 # 2)))
               !! 1%positive = Some (newGenerator 2 100 100)).
  { vm_compute; reflexivity. }
  assert (Hnow : (frameInterval <= 100 - gen_last (newGenerator 2 100 100))%Q).
  { vm_compute; congruence. }
  exact (proj1 (proj2 (proj2
           (temporal_blend_of_frames _ _ _ _ 100 (fun _ => 1 # 2)
              Hr Hh Hg Hnow))) eq_refl).
Defined.

(** Two frames of a fresh 64 x 64 generator, at 1000 ms with every draw 0
    and at 2000 ms with every draw 1/70: the red channel of pixel (1, 0)
    holds 100 after the first frame, is 101 in the second frame before the
    blend, and holds 100 after it, which is not
    [101 * 0.15 + 100 * 0.85 = 100.15]. *)
Lemma blend_rounds_counterexample :
  gen_prev (fst (drawNoise 1000 (fun _ => 0%Q) (newGenerator 1 100 100)))
  = Some (gen_data (fst (drawNoise 1000 (fun _ => 0%Q) (newGenerator 1 100 100)))) /\
  gen_data (fst (drawNoise 1000 (fun _ => 0%Q) (newGenerator 1 100 100)))
    !! 4%nat = Some 100 /\
  rawFrame 64 64
    (frameTime 2000 (fst (drawNoise 1000 (fun _ => 0%Q) (newGenerator 1 100 100))))
    (fun _ => 1 # 70)
    (gen_data (fst (drawNoise 1000 (fun _ => 0%Q) (newGenerator 1 100 100))))
    !! 4%nat = Some 101 /\
  gen_data
    (fst (drawNoise 2000 (fun _ => 1 # 70)
            (fst (drawNoise 1000 (fun _ => 0%Q) (newGenerator 1 100 100)))))
    !! 4%nat = Some 100 /\
  ~ (inject_Z 100 == inject_Z 101 * (1 - (85 # 100)) + inject_Z 100 * (85 # 100))%Q.
Proof.
  set (g0 := newGenerator 1 100 100).
  set (g1 := fst (drawNoise 1000 (fun _ => 0%Q) g0)).
  assert (Hok0 : GenOk g0) by apply newGenerator_GenOk.
  assert (Hok1 : GenOk g1) by (by apply drawNoise_GenOk).
  assert (Hr0 : (frameInterval <= 1000 - gen_last g0)%Q)
    by (vm_compute; congruence).
  destruct (drawNoise_clock 1000 (fun _ => 0%Q) g0 Hr0) as (Hlast & Ht & Hprev).
  destruct (drawNoise_dims 1000 (fun _ => 0%Q) g0) as (HW & HH).
  fold g1 in Hlast, Ht, Hprev, HW, HH.
  assert (HW0 : gen_smallW g0 = 64%nat) by (vm_compute; reflexivity).
  assert (HH0 : gen_smallH g0 = 64%nat) by (vm_compute; reflexivity).
  rewrite HW0 in HW. rewrite HH0 in HH.
  assert (Hr1 : (frameInterval <= 2000 - gen_last g1)%Q)
    by (rewrite Hlast; vm_compute; congruence).
  assert (Ht1 : frameTime 2000 g1 = (frameTime 1000 g0 + (2000 - 1000) / 1000)%Q)
    by (unfold frameTime at 1; by rewrite Ht, Hlast).
  assert (H1 : gen_data g1 !! 4%nat = Some 100).
  { pose proof (drawNoise_lookup 1000 (fun _ => 0%Q) g0 1 0 0 Hok0 Hr0) as H.
    rewrite HW0, HH0 in H. specialize (H ltac:(lia) ltac:(lia) ltac:(lia)).
    fold g1 in H. etrans; [exact H|]. vm_compute; reflexivity. }
  assert (H2 : rawFrame 64 64 (frameTime 2000 g1) (fun _ => 1 # 70) (gen_data g1)
               !! 4%nat = Some 101).
  { pose proof (rawFrame_lookup 64 64 (frameTime 2000 g1) (fun _ => 1 # 70)
                  (gen_data g1) 1 0 0) as H.
    rewrite (proj1 Hok1), HW, HH in H.
    specialize (H eq_refl ltac:(lia) ltac:(lia) ltac:(lia)).
    etrans; [exact H|]. rewrite Ht1. vm_compute; reflexivity. }
  split; [exact Hprev|]. split; [exact H1|]. split; [exact H2|]. split.
  - pose proof (drawNoise_lookup 2000 (fun _ => 1 # 70) g1 1 0 0 Hok1 Hr1) as H.
    rewrite HW, HH, Hprev in H.
    specialize (H ltac:(lia) ltac:(lia) ltac:(lia)).
    etrans; [exact H|]. cbn zeta. cbn [Nat.ltb Nat.leb].
    change (4 * (0 * 64 + 1) + 0)%nat with 4%nat.
    rewrite (readByte_lookup _ _ _ H1), Ht1. vm_compute; reflexivity.
  - vm_compute. congruence.
Qed.

(* ===================================================================== *)
(** * Life cycle of the two effects                                       *)
(* ===================================================================== *)

(** X1.  Stopping is idempotent for both effects, and stopping an effect
    that is not running changes nothing of it: [stopLostSignalEffect] is
    the identity when no frame is requested, and [stopGlitch] without a
    timer leaves the timer queue alone. *)
Theorem stop_effects_idempotent (s : State) :
  stopGlitch (stopGlitch s) = stopGlitch s /\
  stopLostSignalEffect (stopLostSignalEffect s) = stopLostSignalEffect s /\
  (lostSignalAnimationId s = None -> stopLostSignalEffect s = s) /\
  (glitchTimer s = None ->
   timers (stopGlitch s) = timers s /\ glitchTimer (stopGlitch s) = None /\
   glitchShow (stopGlitch s) = false).
Proof.
  split; [|split; [|split]].
  - unfold stopGlitch. destruct (glitchTimer s) eqn:H; simpl; [reflexivity|].
    by rewrite H.
  - unfold stopLostSignalEffect. destruct (lostSignalAnimationId s) eqn:H;
      simpl; [reflexivity|]. by rewrite H.
  - intros H. unfold stopLostSignalEffect. by rewrite H.
  - intros H. unfold stopGlitch. rewrite H. done.
Qed.

(** X2.  The glitch loop keeps itself alive: when the pending [bump] of a
    reachable page fires, the overlay is shown, the fired timeout is gone
    and one new timeout with the same bounds is pending under a fresh
    handle, which [glitchTimer] names. *)
Theorem glitch_pulse_reschedules (s : State) (h : positive) (min max : Z)
    (d r : Q) :
  ReachableVia anyEvent s ->
  timers s !! h = Some (mkTimerTask (CbBump min max) d) ->
  glitchShow (timerFires h r s) = true /\
  timers (timerFires h r s) !! h = None /\
  glitchTimer (timerFires h r s) = Some (nextTimer s) /\
  timers (timerFires h r s) !! nextTimer s
  = Some (mkTimerTask (CbBump min max) (glitchDelay min max r)) /\
  (forall h' task, timers (timerFires h r s) !! h' = Some task ->
                   isBump task = true -> h' = nextTimer s).
Proof.
  intros Hr Hh. destruct (reachable_Inv _ _ Hr) as [Hok _].
  pose proof (timerFires_TimersOk h r s Hok) as Hok'.
  destruct Hok as (Hfresh & Htrack & _).
  pose proof (Hfresh _ _ Hh) as Hlt.
  assert (Hnew : timers (timerFires h r s) !! nextTimer s
                 = Some (mkTimerTask (CbBump min max) (glitchDelay min max r))).
  { unfold timerFires. rewrite Hh. unfold bump, schedule. fields.
    by rewrite lookup_insert_eq. }
  assert (Hg : glitchTimer (timerFires h r s) = Some (nextTimer s)).
  { unfold timerFires. rewrite Hh. reflexivity. }
  split; [unfold timerFires; by rewrite Hh|]. split; [|split; [done|split; [done|]]].
  - unfold timerFires. rewrite Hh. unfold bump, schedule. fields.
    rewrite lookup_insert_ne by lia. apply lookup_delete_eq.
  - intros h' task H Hb. destruct Hok' as (_ & Htrack' & _).
    specialize (Htrack' _ _ H Hb). congruence.
Qed.

Lemma glitch_pulse_reschedules_witness :
  glitchTimer (timerFires 1 (1 # 4)
                 (step samplePage (EvLoadScene "cam-cargo" (1 # 2))))
  = Some 2%positive.
Proof.
  assert (Hr : ReachableVia anyEvent
                 (step samplePage (EvLoadScene "cam-cargo" (1 # 2)))).
  { apply reach_step; [apply reach_init|exact I]. }
  assert (Hh : timers (step samplePage (EvLoadScene "cam-cargo" (1 # 2)))
               !! 1%positive
               = Some (mkTimerTask (CbBump 750 2200) (2950 # 2))).
  { vm_compute; reflexivity. }
  exact (proj1 (proj2 (proj2
           (glitch_pulse_reschedules _ 1 750 2200 _ (1 # 4) Hr Hh)))).
Defined.

Lemma step_noBump s e :
  schedulesGlitch e = false -> noBumpPending s -> noBumpPending (step s e).
Proof.
  intros He Hno h task H.
  destruct e as [id r|min max r| |canvas| | |h0 r|h0 now rnd];
    try discriminate; unfold step in H.
  - unfold stopGlitch in H. destruct (glitchTimer s); fields; [|by eapply Hno].
    apply lookup_delete_Some in H as [_ H]. by eapply Hno.
  - rewrite (proj1 (startLostSignalEffect_timers canvas s)) in H. by eapply Hno.
  - rewrite (proj1 (stopLostSignalEffect_timers s)) in H. by eapply Hno.
  - unfold togglePan in H. simpl in H. destruct (panNode s); by eapply Hno.
  - unfold timerFires in H. destruct (timers s !! h0) as [task0|] eqn:H0;
      [|by eapply Hno].
    pose proof (Hno _ _ H0) as Hb0. unfold isBump in Hb0.
    destruct (callback task0); [discriminate|]. fields.
    apply lookup_delete_Some in H as [_ H]. by eapply Hno.
  - unfold frameFires in H. destruct (frames s !! h0) as [gen|]; [|by eapply Hno].
    simpl in H. destruct (generators s !! gen); by eapply Hno.
Qed.

Lemma step_glitchShow s e :
  schedulesGlitch e = false -> noBumpPending s ->
  glitchShow s = false -> glitchShow (step s e) = false.
Proof.
  intros He Hno Hs.
  destruct e as [id r|min max r| |canvas| | |h0 r|h0 now rnd];
    try discriminate; unfold step.
  - unfold stopGlitch. by destruct (glitchTimer s).
  - unfold startLostSignalEffect, stopLostSignalEffect.
    destruct (lostSignalAnimationId s); fields;
      by destruct (elements s !! canvas).
  - unfold stopLostSignalEffect. by destruct (lostSignalAnimationId s).
  - unfold togglePan. simpl. by destruct (panNode s).
  - unfold timerFires. destruct (timers s !! h0) as [task0|] eqn:H0; [|done].
    pose proof (Hno _ _ H0) as Hb0. unfold isBump in Hb0.
    by destruct (callback task0).
  - unfold frameFires. destruct (frames s !! h0) as [gen|]; [|done]. simpl.
    by destruct (generators s !! gen).
Qed.

(** X3.  A stopped glitch stays stopped: after [stopGlitch] on a reachable
    page, no sequence of events other than [loadScene] and [triggerGlitch]
    (timeouts and frames firing, pan toggles, the noise loop starting or
    stopping) brings back a pending [bump] or shows the overlay. *)
Theorem stopped_glitch_stays_stopped (s : State) (evs : list Event) :
  ReachableVia anyEvent s ->
  Forall (fun e => schedulesGlitch e = false) evs ->
  noBumpPending (run (stopGlitch s) evs) /\
  glitchShow (run (stopGlitch s) evs) = false.
Proof.
  intros Hr Hevs. destruct (reachable_Inv _ _ Hr) as [Hok _].
  destruct (stopGlitch_spec s Hok) as (_ & Hno & _).
  assert (Hs : glitchShow (stopGlitch s) = false)
    by (unfold stopGlitch; by destruct (glitchTimer s)).
  unfold run. revert Hno Hs. generalize (stopGlitch s) as s0.
  induction Hevs as [|e evs He _ IH]; intros s0 Hno Hs; simpl; [done|].
  apply IH; [by apply step_noBump|by apply step_glitchShow].
Qed.

Lemma stopped_glitch_stays_stopped_witness :
  glitchShow
    (run (stopGlitch (step samplePage (EvLoadScene "cam-cargo" (1 # 2))))
         [EvTimerFires 1 (1 # 3); EvTogglePan; EvStopLostSignalEffect])
  = false.
Proof.
  assert (Hr : ReachableVia anyEvent
                 (step samplePage (EvLoadScene "cam-cargo" (1 # 2)))).
  { apply reach_step; [apply reach_init|exact I]. }
  apply (stopped_glitch_stays_stopped _ _ Hr).
  repeat constructor.
Defined.

(* ===================================================================== *)
(** * The play retry of a video feed                                      *)
(* ===================================================================== *)

Section OtherTimers.

Lemma stopGlitch_keeps s h task :
  TimersOk s -> timers s !! h = Some task -> isBump task = false ->
  timers (stopGlitch s) !! h = Some task.
Proof.
  intros (_ & _ & Hpend) H Hb. unfold stopGlitch.
  destruct (glitchTimer s) as [g|] eqn:Hg; fields; [|done].
  rewrite lookup_delete_ne; [done|]. intros ->.
  destruct (Hpend _ eq_refl) as (task' & H' & Hb'). congruence.
Qed.

Lemma statusEffects_keeps cam r s h task :
  TimersOk s -> timers s !! h = Some task -> isBump task = false ->
  timers (statusEffects cam r s) !! h = Some task.
Proof.
  intros Hok H Hb. unfold statusEffects.
  pose proof (stopGlitch_keeps s h task Hok H Hb) as H1.
  destruct (stopGlitch_spec s Hok) as (Hok1 & Hno1 & _).
  destruct (glitchStatus (status cam)); [|done]. unfold triggerGlitch.
  pose proof (stopGlitch_keeps _ h task Hok1 H1 Hb) as H2.
  destruct (stopGlitch_spec _ Hok1) as ((Hfresh & _) & Hno2 & _).
  destruct (schedule_spec (glitchMinMs cam) (glitchMaxMs cam) r _ Hfresh Hno2)
    as (_ & _ & -> & _).
  rewrite lookup_insert_ne; [done|]. apply Hfresh in H2. lia.
Qed.

Lemma mountMedia_keeps cam s h task :
  TimersOk s -> timers s !! h = Some task ->
  timers (mountMedia cam s) !! h = Some task.
Proof.
  intros (Hfresh & _) H. unfold mountMedia. destruct (isVideo cam); fields;
    [|done].
  rewrite lookup_insert_ne; [done|]. apply Hfresh in H. lia.
Qed.

Lemma presentCamera_keeps id cam s h task :
  TimersOk s -> timers s !! h = Some task ->
  timers (presentCamera id cam s) !! h = Some task.
Proof.
  intros Hok H. unfold presentCamera.
  set (s1 := set_viewChildren [] (stopLostSignalEffect (set_activeId (Some id) s))).
  assert (Hv : timerView s1 = timerView s).
  { subst s1. apply (stopLostSignalEffect_timerView (set_activeId (Some id) s)). }
  assert (Hok1 : TimersOk s1) by (by eapply TimersOk_view).
  assert (H1 : timers s1 !! h = Some task).
  { subst s1. simpl. by rewrite (proj1 (stopLostSignalEffect_timers _)). }
  set (m := if String.eqb (status cam) "LOST SIGNAL" then mountLostSignal s1
            else mountMedia cam s1).
  assert (Hm : timers m !! h = Some task).
  { subst m. destruct (String.eqb (status cam) "LOST SIGNAL").
    - by rewrite (proj1 (mountLostSignal_timers s1)).
    - by apply mountMedia_keeps. }
  clearbody m. present_tail m; done.
Qed.

Lemma step_keeps_other_timers s e h task :
  TimersOk s -> timers s !! h = Some task -> isBump task = false ->
  (forall r, e <> EvTimerFires h r) ->
  timers (step s e) !! h = Some task.
Proof.
  intros Hok H Hb He.
  destruct e as [id r|min max r| |canvas| | |h0 r|h0 now rnd]; unfold step.
  - destruct (cameras s !! id) as [cam|] eqn:Hcam.
    + rewrite (loadScene_found _ _ _ _ Hcam). simpl.
      apply statusEffects_keeps; [by apply presentCamera_timers| |done].
      by apply presentCamera_keeps.
    + unfold loadScene. by rewrite Hcam.
  - unfold triggerGlitch.
    pose proof (stopGlitch_keeps s h task Hok H Hb) as H1.
    destruct (stopGlitch_spec s Hok) as ((Hfresh & _) & Hno & _).
    destruct (schedule_spec min max r _ Hfresh Hno) as (_ & _ & -> & _).
    rewrite lookup_insert_ne; [done|]. apply Hfresh in H1. lia.
  - by apply stopGlitch_keeps.
  - by rewrite (proj1 (startLostSignalEffect_timers canvas s)).
  - by rewrite (proj1 (stopLostSignalEffect_timers s)).
  - unfold togglePan. simpl. by destruct (panNode s).
  - unfold timerFires. destruct (timers s !! h0) as [task0|] eqn:H0; [|done].
    assert (h0 <> h) by (intros ->; by apply (He r)).
    destruct (callback task0) as [min max|video]; unfold bump, schedule; fields.
    + rewrite lookup_insert_ne by (apply (proj1 Hok) in H; lia).
      by rewrite lookup_delete_ne.
    + by rewrite lookup_delete_ne.
  - unfold frameFires. destruct (frames s !! h0) as [gen|]; [|done]. simpl.
    by destruct (generators s !! gen).
Qed.

End OtherTimers.

(** X4.  Selecting a camera whose feed is a video schedules one play retry
    after 500 ms for the new video element.  No other event ever cancels
    it: a pending timeout that is not a glitch pulse survives every event
    but its own firing, camera switches included. *)
Theorem video_play_retry_is_never_cancelled (s : State) :
  ReachableVia anyEvent s ->
  (forall id r cam,
     cameras s !! id = Some cam ->
     status cam <> "LOST SIGNAL" -> isVideo cam = true ->
     timers (loadScene id r s) !! nextTimer s
     = Some (mkTimerTask (CbDelayedPlay (nextElement s)) 500)) /\
  (forall e h task,
     timers s !! h = Some task -> isBump task = false ->
     (forall r, e <> EvTimerFires h r) ->
     timers (step s e) !! h = Some task).
Proof.
  intros Hr. destruct (reachable_Inv _ _ Hr) as [Hok _]. split.
  - intros id r cam Hcam Hst Hvid. apply String.eqb_neq in Hst.
    rewrite (loadScene_found _ _ _ _ Hcam). simpl.
    apply statusEffects_keeps; [by apply presentCamera_timers| |done].
    unfold presentCamera. rewrite Hst.
    destruct (stopLostSignalEffect_timers (set_activeId (Some id) s))
      as (Ht & Hn & _).
    destruct (domView_proj _ _ (stopLostSignalEffect_domView
                                  (set_activeId (Some id) s)))
      as (_ & Hne & _).
    simpl in Ht, Hn, Hne. unfold mountMedia. rewrite Hvid. fields.
    rewrite Hn, Hne.
    destruct (panEnabled cam); fields; by rewrite lookup_insert_eq.
  - intros e h task. by apply step_keeps_other_timers.
Qed.

Lemma video_play_retry_is_never_cancelled_witness :
  timers (step (step videoPage (EvLoadScene "cam-lab" (1 # 2)))
               (EvLoadScene "cam-dock" (1 # 2))) !! 1%positive
  = Some (mkTimerTask (CbDelayedPlay 1) 500).
Proof.
  assert (Hr : ReachableVia anyEvent
                 (step videoPage (EvLoadScene "cam-lab" (1 # 2)))).
  { apply reach_step; [apply reach_init|exact I]. }
  apply (proj2 (video_play_retry_is_never_cancelled _ Hr)).
  - vm_compute; reflexivity.
  - reflexivity.
  - discriminate.
Defined.

(* ===================================================================== *)
(** * The mounted presentation                                            *)
(* ===================================================================== *)

Section Mounted.

Lemma timerFires_domView h r s : domView (timerFires h r s) = domView s.
Proof.
  unfold timerFires. destruct (timers s !! h) as [task|]; [|done].
  by destruct (callback task).
Qed.

Lemma frameFires_domView h now rnd s : domView (frameFires h now rnd s) = domView s.
Proof.
  unfold frameFires. destruct (frames s !! h) as [gen|]; [|done]. simpl.
  by destruct (generators s !! gen).
Qed.


Lemma presentCamera_lost_dom id cam s :
  String.eqb (status cam) "LOST SIGNAL" = true ->
  let s1 := presentCamera id cam s in
  let c := nextElement s in
  viewChildren s1 = [c] /\
  elements s1 !! c
  = Some {| tagName := DIV; className := "lost-signal-container"; src := "";
            alt := ""; innerHTML := ""; width := 0; height := 0; flags := [];
            attributes := []; animationDuration := None;
            animationPlayState := None;
            childNodes := [Pos.succ c; Pos.succ (Pos.succ c)] |} /\
  elements s1 !! Pos.succ c
  = Some {| tagName := CANVAS; className := "lost-signal-canvas"; src := "";
            alt := ""; innerHTML := "";
            width := dimOr (viewOffsetWidth s) 800;
            height := dimOr (viewOffsetHeight s) 600; flags := [];
            attributes := []; animationDuration := None;
            animationPlayState := None; childNodes := [] |} /\
  elements s1 !! Pos.succ (Pos.succ c)
  = Some {| tagName := DIV; className := "lost-signal-text"; src := "";
            alt := ""; innerHTML := "<span>NO SIGNAL</span>"; width := 0;
            height := 0; flags := []; attributes := [];
            animationDuration := None; animationPlayState := None;
            childNodes := [] |}.
Proof.
  intros Hst. simpl. unfold presentCamera. rewrite Hst.
  set (m := mountLostSignal _).
  assert (Hm : panNode m = None /\ viewChildren m = [nextElement s] /\
               elements m
               = alter (appendChild (Pos.succ (Pos.succ (nextElement s))))
                   (nextElement s)
                   (alter (appendChild (Pos.succ (nextElement s)))
                      (nextElement s)
                      (<[Pos.succ (Pos.succ (nextElement s)) :=
                           {| tagName := DIV; className := "lost-signal-text";
                              src := ""; alt := "";
                              innerHTML := "<span>NO SIGNAL</span>";
                              width := 0; height := 0; flags := [];
                              attributes := []; animationDuration := None;
                              animationPlayState := None; childNodes := [] |}]>
                         (<[Pos.succ (nextElement s) :=
                              {| tagName := CANVAS;
                                 className := "lost-signal-canvas"; src := "";
                                 alt := ""; innerHTML := "";
                                 width := dimOr (viewOffsetWidth s) 800;
                                 height := dimOr (viewOffsetHeight s) 600;
                                 flags := []; attributes := [];
                                 animationDuration := None;
                                 animationPlayState := None;
                                 childNodes := [] |}]>
                            (<[nextElement s :=
                                 {| tagName := DIV;
                                    className := "lost-signal-container";
                                    src := ""; alt := ""; innerHTML := "";
                                    width := 0; height := 0; flags := [];
                                    attributes := [];
                                    animationDuration := None;
                                    animationPlayState := None;
                                    childNodes := [] |}]> (elements s)))))).
  { subst m. unfold mountLostSignal.
    destruct (domView_proj _ _ (stopLostSignalEffect_domView
                                  (set_activeId (Some id) s)))
      as (Hel & Hne & _).
    pose proof (stopLostSignalEffect_dims (set_activeId (Some id) s)) as [Hw Hh].
    simpl in Hel, Hne, Hw, Hh. fields.
    match goal with |- context [startLostSignalEffect ?c ?s0] =>
      destruct (domView_proj _ _ (startLostSignalEffect_domView c s0))
        as (-> & _ & -> & -> & _) end.
    simpl. by rewrite Hel, Hne, Hw, Hh. }
  clearbody m. destruct Hm as (Hn & Hv & He). simpl.
  rewrite Hn. simpl. rewrite Hv, He.
  rewrite !lookup_alter_eq, !lookup_alter_ne by lia.
  rewrite !lookup_insert_eq.
  rewrite !(lookup_insert_ne _ (Pos.succ (Pos.succ _))) by lia.
  rewrite !lookup_insert_eq.
  rewrite !(lookup_insert_ne _ (Pos.succ _)) by lia.
  rewrite !lookup_insert_eq. done.
Qed.

End Mounted.

Section NoiseStart.

Lemma stopLostSignalEffect_counters s :
  nextFrame (stopLostSignalEffect s) = nextFrame s /\
  nextGenerator (stopLostSignalEffect s) = nextGenerator s /\
  elements (stopLostSignalEffect s) = elements s.
Proof. unfold stopLostSignalEffect. by destruct (lostSignalAnimationId s). Qed.

Lemma startLostSignalEffect_started canvas s el :
  elements s !! canvas = Some el ->
  lostSignalAnimationId (startLostSignalEffect canvas s) = Some (nextFrame s) /\
  frames (startLostSignalEffect canvas s) !! nextFrame s
  = Some (nextGenerator s) /\
  generators (startLostSignalEffect canvas s) !! nextGenerator s
  = Some (newGenerator canvas (width el) (height el)).
Proof.
  intros Hel. unfold startLostSignalEffect.
  destruct (stopLostSignalEffect_counters s) as (Hf & Hg & He).
  rewrite He, Hel. fields. rewrite Hf, Hg, !lookup_insert_eq. done.
Qed.

Lemma presentCamera_lost_noise id cam s :
  String.eqb (status cam) "LOST SIGNAL" = true ->
  let s1 := presentCamera id cam s in
  lostSignalAnimationId s1 = Some (nextFrame s) /\
  frames s1 !! nextFrame s = Some (nextGenerator s) /\
  generators s1 !! nextGenerator s
  = Some (newGenerator (Pos.succ (nextElement s))
            (dimOr (viewOffsetWidth s) 800) (dimOr (viewOffsetHeight s) 600)).
Proof.
  intros Hst. simpl. unfold presentCamera. rewrite Hst.
  set (m := mountLostSignal _).
  assert (Hm : lostSignalAnimationId m = Some (nextFrame s) /\
               frames m !! nextFrame s = Some (nextGenerator s) /\
               generators m !! nextGenerator s
               = Some (newGenerator (Pos.succ (nextElement s))
                         (dimOr (viewOffsetWidth s) 800)
                         (dimOr (viewOffsetHeight s) 600))).
  { subst m. unfold mountLostSignal.
    destruct (stopLostSignalEffect_counters (set_activeId (Some id) s))
      as (Hf & Hg & He).
    destruct (domView_proj _ _ (stopLostSignalEffect_domView
                                  (set_activeId (Some id) s)))
      as (_ & Hne & _).
    pose proof (stopLostSignalEffect_dims (set_activeId (Some id) s)) as [Hw Hh].
    simpl in Hf, Hg, He, Hne, Hw, Hh. fields. rewrite !Hne, Hw, Hh.
    match goal with |- context [startLostSignalEffect ?c ?s0] =>
      destruct (startLostSignalEffect_started c s0
                  {| tagName := CANVAS; className := "lost-signal-canvas";
                     src := ""; alt := ""; innerHTML := "";
                     width := dimOr (viewOffsetWidth s) 800;
                     height := dimOr (viewOffsetHeight s) 600; flags := [];
                     attributes := []; animationDuration := None;
                     animationPlayState := None; childNodes := [] |})
        as (H1 & H2 & H3) end.
    { simpl. rewrite !lookup_alter_ne by lia.
      rewrite lookup_insert_ne by lia. by rewrite lookup_insert_eq. }
    simpl in H1, H2, H3. rewrite Hf in H1, H2. rewrite Hg in H2, H3. done. }
  clearbody m. destruct Hm as (H1 & H2 & H3). present_tail m; done.
Qed.

End NoiseStart.

(** X5.  Selecting a LOST SIGNAL camera mounts one container holding a
    canvas and the "NO SIGNAL" text, whatever its media URL; the canvas
    takes the size of the view, or 800 x 600 where the view reports 0.
    There is no pan node, and a fresh noise generator for that canvas has
    its first frame requested. *)
Theorem lost_signal_presentation (s : State) (id : string) (r : Q)
    (cam : Camera) :
  cameras s !! id = Some cam ->
  status cam = "LOST SIGNAL" ->
  viewChildren (loadScene id r s) = [nextElement s] /\
  panNode (loadScene id r s) = None /\
  (exists container canvas overlay,
     elements (loadScene id r s) !! nextElement s = Some container /\
     tagName container = DIV /\
     childNodes container
     = [Pos.succ (nextElement s); Pos.succ (Pos.succ (nextElement s))] /\
     elements (loadScene id r s) !! Pos.succ (nextElement s) = Some canvas /\
     tagName canvas = CANVAS /\
     width canvas = (if viewOffsetWidth s =? 0 then 800 else viewOffsetWidth s) /\
     height canvas
     = (if viewOffsetHeight s =? 0 then 600 else viewOffsetHeight s) /\
     elements (loadScene id r s) !! Pos.succ (Pos.succ (nextElement s))
     = Some overlay /\
     tagName overlay = DIV /\ innerHTML overlay = "<span>NO SIGNAL</span>") /\
  lostSignalAnimationId (loadScene id r s) = Some (nextFrame s) /\
  frames (loadScene id r s) !! nextFrame s = Some (nextGenerator s) /\
  (exists g, generators (loadScene id r s) !! nextGenerator s = Some g /\
             gen_canvas g = Pos.succ (nextElement s) /\
             gen_prev g = None /\ gen_t g = 0%Q /\ gen_last g = 0%Q).
Proof.
  intros Hcam Hst. apply String.eqb_eq in Hst.
  destruct (domView_proj _ _ (loadScene_domView id r s cam Hcam))
    as (-> & _ & -> & -> & _).
  rewrite (loadScene_found _ _ _ _ Hcam).
  pose proof (statusEffects_frameView cam r (presentCamera id cam s)) as Hv.
  cbn [lostSignalAnimationId frames generators set_viewAriaLabel].
  rewrite (frameView_frames _ _ Hv), (frameView_anim _ _ Hv),
    (frameView_generators _ _ Hv).
  destruct (presentCamera_lost_dom id cam s Hst) as (H1 & H2 & H3 & H4).
  destruct (presentCamera_lost id cam s Hst) as (Hn & _).
  destruct (presentCamera_lost_noise id cam s Hst) as (H5 & H6 & H7).
  split; [done|]. split; [done|]. split.
  { eexists _, _, _. rewrite H2, H3, H4. repeat split. }
  split; [done|]. split; [done|]. eexists. split; [exact H7|]. done.
Qed.

Lemma lost_signal_presentation_witness :
  viewChildren (loadScene "cam-reactor" (1 # 2) samplePage) = [1%positive] /\
  panNode (loadScene "cam-reactor" (1 # 2) samplePage) = None.
Proof.
  destruct (lost_signal_presentation samplePage "cam-reactor" (1 # 2)
              (mkCamera "cam-reactor" "SECTION C" "C-01 REACTOR CORE"
                 "LOST SIGNAL" "--" "SIGNAL LOST  |  SEARCHING..." "" true
                 (JFin 7) 200 600))
    as (H1 & H2 & _).
  - vm_compute; reflexivity.
  - reflexivity.
  - exact (conj H1 H2).
Defined.

(** X6.  Selecting any other camera mounts exactly one media element, which
    becomes the pan node: a looping, muted, autoplaying video when the URL
    is not empty and ends, ignoring case, in .mp4, .webm or .mov, and an
    image otherwise (with the camera location as alt text and the
    placeholder for an empty URL).  With [panEnabled] it gets the class
    "pan", the camera's pan duration and the play state "running"; without
    it none of the three. *)
Theorem media_presentation (s : State) (id : string) (r : Q) (cam : Camera) :
  cameras s !! id = Some cam ->
  status cam <> "LOST SIGNAL" ->
  exists el,
    viewChildren (loadScene id r s) = [nextElement s] /\
    panNode (loadScene id r s) = Some (nextElement s) /\
    elements (loadScene id r s) !! nextElement s = Some el /\
    (tagName el = VIDEO <->
     imageUrl cam <> "" /\
     (endsWith (toLowerCase (imageUrl cam)) ".mp4" = true \/
      endsWith (toLowerCase (imageUrl cam)) ".webm" = true \/
      endsWith (toLowerCase (imageUrl cam)) ".mov" = true)) /\
    (tagName el = VIDEO \/ tagName el = IMG) /\
    (tagName el = VIDEO ->
     src el = imageUrl cam /\
     flags el = ["loop"; "muted"; "autoplay"; "playsInline"]) /\
    (tagName el = IMG ->
     alt el = location cam /\
     src el = if String.eqb (imageUrl cam) "" then noFeedUrl else imageUrl cam) /\
    (panEnabled cam = true ->
     className el = "pan" /\ animationDuration el = Some (panDuration cam) /\
     animationPlayState el = Some "running") /\
    (panEnabled cam = false ->
     className el = "" /\ animationDuration el = None /\
     animationPlayState el = None).
Proof.
  intros Hcam Hst. apply String.eqb_neq in Hst.
  destruct (domView_proj _ _ (loadScene_domView id r s cam Hcam))
    as (-> & _ & -> & -> & _).
  destruct (presentCamera_media id cam s Hst) as (Hv & Hn & _ & _ & He).
  eexists. split; [exact Hv|]. split; [exact Hn|]. split; [exact He|].
  assert (Hvid : isVideo cam = true <->
                 imageUrl cam <> "" /\
                 (endsWith (toLowerCase (imageUrl cam)) ".mp4" = true \/
                  endsWith (toLowerCase (imageUrl cam)) ".webm" = true \/
                  endsWith (toLowerCase (imageUrl cam)) ".mov" = true)).
  { unfold isVideo. rewrite andb_true_iff, !orb_true_iff, negb_true_iff,
      String.eqb_neq. tauto. }
  rewrite <- Hvid. unfold mediaElementOf.
  destruct (panEnabled cam), (isVideo cam); simpl;
    repeat split; try done; try (by left); try (by right).
Qed.

Lemma media_presentation_witness :
  exists el,
    elements (loadScene "cam-lab" (1 # 2) videoPage) !! 1%positive = Some el /\
    (tagName el = VIDEO \/ tagName el = IMG).
Proof.
  destruct (media_presentation videoPage "cam-lab" (1 # 2)
              (mkCamera "cam-lab" "UNKNOWN" "D-04 LAB" "ONLINE" "--"
                 "CAMERA FEED" "https://example.com/feeds/LAB.MP4" true
                 (JFin 7) 400 1200))
    as (el & _ & _ & He & _ & Ht & _).
  - vm_compute; reflexivity.
  - simpl; congruence.
  - exists el. exact (conj He Ht).
Defined.

Section DomInvariant.




End DomInvariant.



Section Labels.

Lemma stopGlitch_uiView s : uiView (stopGlitch s) = uiView s.
Proof. unfold stopGlitch. destruct (glitchTimer s); reflexivity. Qed.

Lemma statusEffects_uiView cam r s : uiView (statusEffects cam r s) = uiView s.
Proof.
  unfold statusEffects, triggerGlitch.
  destruct (glitchStatus (status cam)); [|apply stopGlitch_uiView].
  etrans; [|apply stopGlitch_uiView]. etrans; [|apply stopGlitch_uiView].
  reflexivity.
Qed.

Lemma stopLostSignalEffect_uiView s : uiView (stopLostSignalEffect s) = uiView s.
Proof. unfold stopLostSignalEffect. by destruct (lostSignalAnimationId s). Qed.

Lemma startLostSignalEffect_uiView canvas s :
  uiView (startLostSignalEffect canvas s) = uiView s.
Proof.
  unfold startLostSignalEffect.
  pose proof (stopLostSignalEffect_uiView s) as Hv.
  destruct (elements (stopLostSignalEffect s) !! canvas); [|done].
  unfold uiView in *. simpl. done.
Qed.

Lemma presentCamera_ui id cam s :
  let s1 := presentCamera id cam s in
  activeId s1 = Some id /\ labelText s1 = location cam /\
  stateText s1 = status cam /\
  hudElText s1 = hudText cam ++ "  |  CAMERA: " ++ toUpperCase (camId cam) /\
  camItems s1
  = map (fun el => mkCamItem (dataId el) (String.eqb (dataId el) id))
        (camItems s).
Proof.
  simpl. unfold presentCamera.
  set (s1 := set_viewChildren [] (stopLostSignalEffect (set_activeId (Some id) s))).
  assert (Hs1 : activeId s1 = Some id /\ camItems s1 = camItems s).
  { pose proof (stopLostSignalEffect_uiView (set_activeId (Some id) s)) as Hv.
    unfold uiView in Hv. simpl in Hv. subst s1. simpl.
    by injection Hv as -> _ _ _ ->. }
  set (m := if String.eqb (status cam) "LOST SIGNAL" then mountLostSignal s1
            else mountMedia cam s1).
  assert (Hm : activeId m = Some id /\ camItems m = camItems s).
  { destruct Hs1 as [<- <-]. subst m.
    destruct (String.eqb (status cam) "LOST SIGNAL").
    - unfold mountLostSignal. fields.
      match goal with |- context [startLostSignalEffect ?c ?s0] =>
        pose proof (startLostSignalEffect_uiView c s0) as Hv end.
      unfold uiView in Hv. simpl in Hv. by injection Hv as -> _ _ _ ->.
    - unfold mountMedia. by destruct (isVideo cam). }
  clearbody m. destruct Hm as [Ha Hc]. present_tail m; by rewrite Ha, Hc.
Qed.

End Labels.

(** X8.  Selecting a camera of the registry records it as the active one,
    writes its location, status and HUD line (the HUD text followed by the
    upper-cased camera id) and the view's aria label, and re-marks the
    list: the items and their order stay, and an item is highlighted
    exactly when its data-id is the selected id. *)
Theorem selection_updates_texts_and_highlight (s : State) (id : string)
    (r : Q) (cam : Camera) :
  cameras s !! id = Some cam ->
  activeId (loadScene id r s) = Some id /\
  labelText (loadScene id r s) = location cam /\
  stateText (loadScene id r s) = status cam /\
  hudElText (loadScene id r s)
  = hudText cam ++ "  |  CAMERA: " ++ toUpperCase (camId cam) /\
  viewAriaLabel (loadScene id r s)
  = Some ("Camera " ++ location cam ++ ". Status " ++ status cam ++ ".") /\
  map dataId (camItems (loadScene id r s)) = map dataId (camItems s) /\
  (forall it, it ∈ camItems (loadScene id r s) ->
              (active it = true <-> dataId it = id)).
Proof.
  intros Hcam. rewrite (loadScene_found _ _ _ _ Hcam).
  pose proof (statusEffects_uiView cam r (presentCamera id cam s)) as Hv.
  destruct (presentCamera_ui id cam s) as (H1 & H2 & H3 & H4 & H5).
  unfold uiView in Hv. injection Hv as Ha Hl Hs Hh Hc.
  cbn [activeId labelText stateText hudElText viewAriaLabel camItems
       set_viewAriaLabel].
  rewrite Ha, Hl, Hs, Hh, Hc, H1, H2, H3, H4, H5.
  repeat (split; [done|]). split.
  - rewrite map_map. simpl. done.
  - intros it Hin. apply list_elem_of_fmap in Hin as (it0 & -> & _). simpl.
    apply String.eqb_eq.
Qed.

Lemma selection_updates_texts_and_highlight_witness :
  hudElText (loadScene "cam-cargo" (1 # 2) samplePage)
  = "ZOOM: 0.8x  |  PAN: H-AXIS  |  CAMERA: CAM-CARGO".
Proof.
  destruct (selection_updates_texts_and_highlight samplePage "cam-cargo" (1 # 2)
              (mkCamera "cam-cargo" "SECTION B" "B-12 CARGO BAY" "FLICKER"
                 "28m" "ZOOM: 0.8x  |  PAN: H-AXIS"
                 "https://example.com/img/cargo.jpg" true (JFin 6) 750 2200))
    as (_ & _ & _ & H & _).
  - vm_compute; reflexivity.
  - exact H.
Defined.

Lemma PanLabelOk_view s s' : domView s' = domView s -> PanLabelOk s -> PanLabelOk s'.
Proof.
  intros Hv. destruct (domView_proj _ _ Hv) as (_ & _ & _ & _ & Hp & Ht).
  unfold PanLabelOk. by rewrite Hp, Ht.
Qed.

Lemma togglePan_PanLabelOk s : PanLabelOk (togglePan s).
Proof. unfold PanLabelOk. by rewrite togglePan_label, togglePan_flag. Qed.

Lemma loadScene_PanLabelOk id r s cam :
  cameras s !! id = Some cam -> PanLabelOk (loadScene id r s).
Proof.
  intros Hcam. unfold PanLabelOk.
  destruct (domView_proj _ _ (loadScene_domView id r s cam Hcam))
    as (_ & _ & _ & _ & -> & ->).
  destruct (String.eqb (status cam) "LOST SIGNAL") eqn:Hst.
  - by destruct (presentCamera_lost id cam s Hst) as (_ & -> & ->).
  - by destruct (presentCamera_media id cam s Hst) as (_ & _ & -> & -> & _).
Qed.

(** X9.  The label of the pan control always says what the next click
    does.  A click, or the selection of a registered camera, makes the
    label "RESUME PAN" when the pan is paused and "PAUSE PAN" otherwise, and
    once they agree no event breaks the agreement.  Two clicks in a row
    restore the flag. *)
Theorem pan_label_follows_flag (s : State) (e : Event) :
  (togglePanText s = if panPaused s then "RESUME PAN" else "PAUSE PAN")
  \/ e = EvTogglePan
  \/ (exists id r, e = EvLoadScene id r /\ is_Some (cameras s !! id)) ->
  (togglePanText (step s e)
   = if panPaused (step s e) then "RESUME PAN" else "PAUSE PAN") /\
  panPaused (togglePan (togglePan s)) = panPaused s /\
  togglePanText (togglePan (togglePan s))
  = (if panPaused s then "RESUME PAN" else "PAUSE PAN").
Proof.
  intros H. split; [|split].
  - change (PanLabelOk (step s e)).
    destruct H as [Hok|[->|(id & r & -> & [cam Hcam])]];
      [|apply togglePan_PanLabelOk|by eapply loadScene_PanLabelOk].
    change (PanLabelOk s) in Hok.
    destruct e as [id r|min max r| |canvas| | |h r|h now rnd]; unfold step.
    + destruct (cameras s !! id) as [cam|] eqn:Hcam;
        [by eapply loadScene_PanLabelOk|].
      unfold loadScene. rewrite Hcam. by eapply PanLabelOk_view; [|exact Hok].
    + eapply PanLabelOk_view; [|exact Hok]. unfold triggerGlitch.
      by rewrite schedule_domView, stopGlitch_domView.
    + eapply PanLabelOk_view; [apply stopGlitch_domView|done].
    + eapply PanLabelOk_view; [apply startLostSignalEffect_domView|done].
    + eapply PanLabelOk_view; [apply stopLostSignalEffect_domView|done].
    + apply togglePan_PanLabelOk.
    + eapply PanLabelOk_view; [apply timerFires_domView|done].
    + eapply PanLabelOk_view; [apply frameFires_domView|done].
  - rewrite !togglePan_flag. apply negb_involutive.
  - rewrite togglePan_label, togglePan_flag. by destruct (panPaused s).
Qed.

Lemma pan_label_follows_flag_witness :
  togglePanText
    (step (step samplePage (EvLoadScene "cam-corridor" (1 # 2))) EvTogglePan)
  = if panPaused
         (step (step samplePage (EvLoadScene "cam-corridor" (1 # 2))) EvTogglePan)
    then "RESUME PAN" else "PAUSE PAN".
Proof.
  exact (proj1 (pan_label_follows_flag
                  (step samplePage (EvLoadScene "cam-corridor" (1 # 2)))
                  EvTogglePan (or_intror (or_introl eq_refl)))).
Defined.

(* ===================================================================== *)
(** * Frame pacing and the generator's clock                              *)
(* ===================================================================== *)

Section GeneratorInvariants.

Variable ok : Event -> Prop.
Variable P : NoiseGen -> Prop.

Hypothesis P_new : forall canvas w h, P (newGenerator canvas w h).
Hypothesis P_draw : forall h now rnd g,
  ok (EvFrameFires h now rnd) -> P g -> P (fst (drawNoise now rnd g)).

(** A property of fresh generators that every call of [drawNoise] keeps
    holds of all generators of a reachable page. *)
Lemma reachable_generators s :
  ReachableVia ok s -> forall id g, generators s !! id = Some g -> P g.
Proof.
  induction 1 as [cams items viewW viewH|s e _ IH He]; intros id g.
  - simpl. intros H. simplify_map_eq.
  - destruct e as [cid r|min max r| |canvas| | |h r|h now rnd]; unfold step.
    + destruct (cameras s !! cid) as [cam|] eqn:Hcam.
      * rewrite (loadScene_found _ _ _ _ Hcam). simpl.
        rewrite (frameView_generators _ _ (statusEffects_frameView cam r _)).
        intros H. apply presentCamera_generators in H as [H|(c & w & h & ->)];
          [by eapply IH|apply P_new].
      * unfold loadScene. rewrite Hcam. apply IH.
    + unfold triggerGlitch.
      rewrite (frameView_generators _ _ (schedule_frameView _ _ _ _)),
        (frameView_generators _ _ (stopGlitch_frameView _)). apply IH.
    + rewrite (frameView_generators _ _ (stopGlitch_frameView _)). apply IH.
    + intros H. apply startLostSignalEffect_generators in H as [H|(w & h & ->)];
        [by eapply IH|apply P_new].
    + rewrite stopLostSignalEffect_generators. apply IH.
    + rewrite (frameView_generators _ _ (proj2 (togglePan_views s))). apply IH.
    + rewrite (frameView_generators _ _ (timerFires_frameView _ _ _)). apply IH.
    + unfold frameFires. destruct (frames s !! h) as [gen|]; [|apply IH]. simpl.
      destruct (generators s !! gen) as [g0|] eqn:Hg0; [|apply IH]. fields.
      intros H. apply lookup_insert_Some in H as [[_ <-]|[_ H]]; [|by eapply IH].
      apply (P_draw h); [done|]. by eapply IH.
Qed.

End GeneratorInvariants.



Section Clock.



Lemma smallDim_min full : (64 <= smallDim full)%nat.
Proof. unfold smallDim. lia. Qed.



Lemma dims_draw now rnd g :
  gen_smallW g = smallDim (gen_w g) /\ gen_smallH g = smallDim (gen_h g) ->
  gen_smallW (fst (drawNoise now rnd g)) = smallDim (gen_w (fst (drawNoise now rnd g))) /\
  gen_smallH (fst (drawNoise now rnd g)) = smallDim (gen_h (fst (drawNoise now rnd g))).
Proof.
  intros H.
  destruct (Qlt_le_dec (now - gen_last g) frameInterval) as [Hs|Hr].
  - by rewrite drawNoise_skipped.
  - by rewrite drawNoise_rendered.
Qed.

End Clock.



(* ===================================================================== *)
(** * Ranges of the rendered bytes                                        *)
(* ===================================================================== *)

Section ByteRanges.

(** Rounding keeps a value between two bytes that bound it. *)
Lemma toUint8Clamp_between lo hi q :
  0 <= lo <= 255 -> 0 <= hi <= 255 ->
  (inject_Z lo <= q)%Q -> (q <= inject_Z hi)%Q ->
  lo <= toUint8Clamp q <= hi.
Proof.
  intros Hlo Hhi Hl Hh. unfold toUint8Clamp.
  destruct (q ?= 0)%Q eqn:H0.
  - apply Qeq_alt in H0. rewrite H0 in Hl.
    change 0%Q with (inject_Z 0) in Hl. rewrite <- Zle_Qle in Hl. lia.
  - apply Qlt_alt in H0.
    assert (Hl0 : (inject_Z lo < inject_Z 0)%Q) by (eapply Qle_lt_trans; done).
    rewrite <- Zlt_Qlt in Hl0. lia.
  - destruct (q ?= 255)%Q eqn:H255.
    + apply Qeq_alt in H255. rewrite H255 in Hh.
      change 255%Q with (inject_Z 255) in Hh. rewrite <- Zle_Qle in Hh. lia.
    + apply Qlt_alt in H255.
      assert (Hf1 : lo <= Qfloor q).
      { rewrite <- (Qfloor_Z lo). by apply Qfloor_resp_le. }
      assert (Hf2 : Qfloor q <= hi).
      { rewrite <- (Qfloor_Z hi). by apply Qfloor_resp_le. }
      assert (Hup : (inject_Z (Qfloor q) < q)%Q -> Qfloor q + 1 <= hi).
      { intros Hlt.
        assert (Hlt' : (inject_Z (Qfloor q) < inject_Z hi)%Q)
          by (eapply Qlt_le_trans; done).
        rewrite <- Zlt_Qlt in Hlt'. lia. }
      destruct (Qcompare q (_ + _)) eqn:Hc.
      * apply Qeq_alt in Hc. destruct (Z.even _); [lia|].
        split; [lia|]. apply Hup. rewrite Hc at 2.
        rewrite <- (Qplus_0_r (inject_Z (Qfloor q))) at 1.
        by apply Qplus_lt_r.
      * lia.
      * apply Qgt_alt in Hc. split; [lia|]. apply Hup.
        eapply Qle_lt_trans; [|exact Hc].
        rewrite <- (Qplus_0_r (inject_Z (Qfloor q))) at 1.
        by apply Qplus_le_r.
    + apply Qgt_alt in H255.
      assert (Hh' : (inject_Z 255 < inject_Z hi)%Q)
        by (eapply Qlt_le_trans; done).
      rewrite <- Zlt_Qlt in Hh'. lia.
Qed.

Lemma blendValue_between cur prev :
  0 <= cur <= 255 -> 0 <= prev <= 255 ->
  Z.min cur prev <= blendValue cur prev <= Z.max cur prev.
Proof.
  intros Hc Hp. unfold blendValue.
  apply toUint8Clamp_between; [lia|lia|..].
  - destruct (Z.le_ge_cases cur prev) as [H|H].
    + rewrite Z.min_l by done. rewrite Zle_Qle in H. lra.
    + rewrite Z.min_r by lia. rewrite Zle_Qle in H. lra.
  - destruct (Z.le_ge_cases cur prev) as [H|H].
    + rewrite Z.max_r by done. rewrite Zle_Qle in H. lra.
    + rewrite Z.max_l by lia. rewrite Zle_Qle in H. lra.
Qed.

Lemma rawValue_byte smallW smallH t rnd x y c :
  0 <= rawValue smallW smallH t rnd x y c <= 255.
Proof.
  unfold rawValue, bandValue, baseValue.
  pose proof (toUint8Clamp_range (100 + rnd (y * smallW + x)%nat * 70)).
  destruct (_ && _); [lia|].
  destruct (bool_decide _); destruct (c =? 3)%nat eqn:Hc;
    destruct (c <? 3)%nat eqn:Hc'; try lia; apply toUint8Clamp_range.
Qed.

Lemma rawValue_alpha smallW smallH t rnd x y :
  rawValue smallW smallH t rnd x y 3 = 255.
Proof.
  unfold rawValue, bandValue. simpl. rewrite andb_false_r.
  by destruct (bool_decide _).
Qed.

(** With draws in [0, 1) a colour channel of an unblended frame is base
    static (100..170), banded static (110..180) or a speckle (255). *)
Lemma rawValue_colour smallW smallH t rnd x y c :
  (forall k, unitDraw (rnd k)) -> (c < 3)%nat ->
  100 <= rawValue smallW smallH t rnd x y c <= 180
  \/ rawValue smallW smallH t rnd x y c = 255.
Proof.
  intros Hrnd Hc. unfold rawValue, bandValue.
  pose proof (baseValue_range _ (Hrnd (y * smallW + x)%nat)) as Hb.
  rewrite (proj2 (Nat.ltb_lt c 3) Hc).
  assert ((c =? 3)%nat = false) as -> by (apply Nat.eqb_neq; lia).
  destruct (speckled _ _ _ _ _ _); [by right|]. left. simpl.
  destruct (bool_decide _); [|lia].
  rewrite toUint8Clamp_byte by lia. lia.
Qed.

End ByteRanges.

Section FrameBytes.

Variable ok : Event -> Prop.
Variable lo : Z.

Hypothesis lo_byte : 0 <= lo <= 255.
Hypothesis raw_lo : forall h now rnd, ok (EvFrameFires h now rnd) ->
  forall smallW smallH t x y c, (c < 3)%nat ->
    lo <= rawValue smallW smallH t rnd x y c.

Lemma drawNoise_ShownOk h now rnd g :
  ok (EvFrameFires h now rnd) ->
  GenOk g /\ ShownOk lo g ->
  GenOk (fst (drawNoise now rnd g)) /\ ShownOk lo (fst (drawNoise now rnd g)).
Proof.
  intros Hok [Hg [Hshown Hprev]].
  split; [by apply drawNoise_GenOk|].
  destruct (Qlt_le_dec (now - gen_last g) frameInterval) as [Hs|Hr].
  { by rewrite drawNoise_skipped. }
  pose proof (drawNoise_GenOk now rnd g Hg) as [Hlen' _].
  pose proof (fun x y c => drawNoise_lookup now rnd g x y c Hg Hr) as Hlk.
  rewrite drawNoise_rendered in Hlen', Hlk |- * by done.
  cbn [fst gen_data gen_smallW gen_smallH gen_prev gen_shown] in *.
  split; [done|]. intros frame [= <-]. split; [done|].
  split; [exact Hlen'|]. intros x y c Hx Hy Hc.
  eexists. split; [by apply Hlk|]. cbn zeta.
  destruct (c =? 3)%nat eqn:Hc3.
  - apply Nat.eqb_eq in Hc3 as ->. simpl.
    destruct (gen_prev g); apply rawValue_alpha.
  - apply Nat.eqb_neq in Hc3. assert (Hc' : (c < 3)%nat) by lia.
    pose proof (raw_lo _ _ _ Hok (gen_smallW g) (gen_smallH g)
                  (frameTime now g) x y c Hc') as Hraw.
    pose proof (rawValue_byte (gen_smallW g) (gen_smallH g)
                  (frameTime now g) rnd x y c) as Hb.
    destruct (gen_prev g) as [prev|]; [|lia].
    rewrite (proj2 (Nat.ltb_lt c 3) Hc').
    destruct (Hprev prev eq_refl) as [_ [_ Hbytes]].
    destruct (Hbytes x y c Hx Hy Hc) as (pv & Hpv & Hrange).
    assert ((c =? 3)%nat = false) as Hne by (apply Nat.eqb_neq; lia).
    rewrite Hne in Hrange. unfold readByte. rewrite Hpv. simpl.
    pose proof (blendValue_between _ pv Hb ltac:(lia)). lia.
Qed.

Lemma reachable_ShownOk s :
  ReachableVia ok s ->
  forall id g, generators s !! id = Some g -> GenOk g /\ ShownOk lo g.
Proof.
  apply (reachable_generators ok (fun g => GenOk g /\ ShownOk lo g)).
  - intros canvas w h. split; [apply newGenerator_GenOk|]. by split.
  - intros h now rnd g. apply drawNoise_ShownOk.
Qed.

End FrameBytes.

(** X12.  With draws in [0, 1), every frame a noise generator has put on
    its canvas is opaque and bright: it has four bytes per pixel of the
    small buffer, every alpha byte is 255 and every colour byte lies in
    100..255, however many frames were blended into it. *)
Theorem shown_frame_is_opaque_and_bright (s : State) (id : positive)
    (g : NoiseGen) (frame : list Z) :
  ReachableVia validEvent s ->
  generators s !! id = Some g ->
  gen_shown g = Some frame ->
  length frame = (4 * (gen_smallH g * gen_smallW g))%nat /\
  forall x y c, (x < gen_smallW g)%nat -> (y < gen_smallH g)%nat ->
    (c < 4)%nat ->
    exists v, frame !! (4 * (y * gen_smallW g + x) + c)%nat = Some v /\
      (if (c =? 3)%nat then v = 255 else 100 <= v <= 255).
Proof.
  intros Hr Hg Hshown.
  assert (Hinv : GenOk g /\ ShownOk 100 g).
  { apply (reachable_ShownOk validEvent 100) with (s := s) (id := id);
      [lia| |done|done].
    intros h now rnd Hok smallW smallH t x y c Hc.
    destruct (rawValue_colour smallW smallH t rnd x y c Hok Hc); lia. }
  destruct Hinv as [_ [Heq Hprev]]. rewrite Heq in Hshown.
  by destruct (Hprev frame Hshown) as [_ Hok].
Qed.

Lemma drawNoise_shown now rnd g :
  (frameInterval <= now - gen_last g)%Q ->
  gen_shown (fst (drawNoise now rnd g))
  = Some (gen_data (fst (drawNoise now rnd g))) /\
  gen_prev (fst (drawNoise now rnd g))
  = Some (gen_data (fst (drawNoise now rnd g))).
Proof. intros H. by rewrite drawNoise_rendered. Qed.

Lemma shown_frame_is_opaque_and_bright_witness :
  length (gen_data (fst (drawNoise 5000 (fun _ => 1 # 2)
                           (newGenerator 2 100 100))))
  = (4 * (gen_smallH (fst (drawNoise 5000 (fun _ => 1 # 2)
                             (newGenerator 2 100 100)))
          * gen_smallW (fst (drawNoise 5000 (fun _ => 1 # 2)
                               (newGenerator 2 100 100)))))%nat.
Proof.
  assert (Hu : unitDraw (1 # 2)) by (split; [discriminate|reflexivity]).
  assert (Hr : ReachableVia validEvent
                 (step (step smallPage (EvLoadScene "cam-reactor" (1 # 2)))
                    (EvFrameFires 1 5000 (fun _ => 1 # 2)))).
  { apply reach_step; [apply reach_step; [apply reach_init|exact Hu]|].
    intros k. exact Hu. }
  assert (Hg : generators
                 (step (step smallPage (EvLoadScene "cam-reactor" (1 # 2)))
                    (EvFrameFires 1 5000 (fun _ => 1 # 2)))
               !! 1%positive
               = Some (fst (drawNoise 5000 (fun _ => 1 # 2)
                              (newGenerator 2 100 100)))).
  { apply frameFires_generator; vm_compute; reflexivity. }
  assert (Hs : gen_shown (fst (drawNoise 5000 (fun _ => 1 # 2)
                                 (newGenerator 2 100 100)))
               = Some (gen_data (fst (drawNoise 5000 (fun _ => 1 # 2)
                                        (newGenerator 2 100 100))))).
  { apply drawNoise_shown. vm_compute. congruence. }
  exact (proj1 (shown_frame_is_opaque_and_bright _ _ _ _ Hr Hg Hs)).
Defined.

(** X13.  Phosphor persistence never overshoots: when a frame is rendered
    over a previous one, every colour byte of the new frame lies between
    the byte the three passes produced for it and the previous frame's
    byte at the same place.  Where the two agree the byte keeps its
    value. *)
Theorem blended_byte_lies_between (s : State) (id : positive) (g : NoiseGen)
    (now : Q) (rnd : nat -> Q) (prev : list Z) (x y c : nat) :
  ReachableVia anyEvent s ->
  generators s !! id = Some g ->
  (1000 / 24 <= now - gen_last g)%Q ->
  gen_prev g = Some prev ->
  (x < gen_smallW g)%nat -> (y < gen_smallH g)%nat -> (c < 3)%nat ->
  exists cur pv v,
    rawFrame (gen_smallW g) (gen_smallH g) (frameTime now g) rnd (gen_data g)
      !! (4 * (y * gen_smallW g + x) + c)%nat = Some cur /\
    prev !! (4 * (y * gen_smallW g + x) + c)%nat = Some pv /\
    gen_data (fst (drawNoise now rnd g))
      !! (4 * (y * gen_smallW g + x) + c)%nat = Some v /\
    Z.min cur pv <= v <= Z.max cur pv /\
    (cur = pv -> v = pv).
Proof.
  intros Hr Hg Hnow Hprev Hx Hy Hc.
  assert (Hinv : GenOk g /\ ShownOk 0 g).
  { apply (reachable_ShownOk anyEvent 0) with (s := s) (id := id);
      [lia| |done|done].
    intros h now0 rnd0 _ smallW smallH t x0 y0 c0 _.
    apply rawValue_byte. }
  destruct Hinv as [Hok [_ Hframe]].
  destruct (Hframe prev Hprev) as [_ [_ Hbytes]].
  destruct (Hbytes x y c Hx Hy ltac:(lia)) as (pv & Hpv & Hrange).
  assert ((c =? 3)%nat = false) as Hne by (apply Nat.eqb_neq; lia).
  rewrite Hne in Hrange.
  pose proof (rawValue_byte (gen_smallW g) (gen_smallH g) (frameTime now g)
                rnd x y c) as Hb.
  pose proof (blendValue_between _ pv Hb Hrange) as Hbetween.
  exists (rawValue (gen_smallW g) (gen_smallH g) (frameTime now g) rnd x y c),
    pv, (blendValue (rawValue (gen_smallW g) (gen_smallH g) (frameTime now g)
                       rnd x y c) pv).
  split; [apply rawFrame_lookup; [apply Hok|done|done|lia]|].
  split; [done|]. split; [|split; [done|lia]].
  rewrite drawNoise_lookup by (done || lia).
  cbn zeta. rewrite Hprev, (proj2 (Nat.ltb_lt c 3) Hc).
  unfold readByte. by rewrite Hpv.
Qed.

Lemma blended_byte_lies_between_witness :
  exists v,
    gen_data (fst (drawNoise 6000 (fun _ => 1 # 3)
                     (fst (drawNoise 5000 (fun _ => 1 # 2)
                             (newGenerator 2 100 100)))))
      !! (4 * (0 * gen_smallW (fst (drawNoise 5000 (fun _ => 1 # 2)
                                      (newGenerator 2 100 100))) + 0) + 0)%nat
    = Some v.
Proof.
  assert (Hfirst : (frameInterval <= 5000 - gen_last (newGenerator 2 100 100))%Q).
  { vm_compute. congruence. }
  assert (Hr : ReachableVia anyEvent
                 (step (step smallPage (EvLoadScene "cam-reactor" (1 # 2)))
                    (EvFrameFires 1 5000 (fun _ => 1 # 2)))).
  { apply reach_step; [apply reach_step; [apply reach_init|exact I]|exact I]. }
  assert (Hg : generators
                 (step (step smallPage (EvLoadScene "cam-reactor" (1 # 2)))
                    (EvFrameFires 1 5000 (fun _ => 1 # 2)))
               !! 1%positive
               = Some (fst (drawNoise 5000 (fun _ => 1 # 2)
                              (newGenerator 2 100 100)))).
  { apply frameFires_generator; vm_compute; reflexivity. }
  assert (Hnow : (1000 / 24
                  <= 6000 - gen_last (fst (drawNoise 5000 (fun _ => 1 # 2)
                                             (newGenerator 2 100 100))))%Q).
  { rewrite (proj1 (drawNoise_clock 5000 (fun _ => 1 # 2) _ Hfirst)).
    vm_compute. congruence. }
  assert (Hx : (0 < gen_smallW (fst (drawNoise 5000 (fun _ => 1 # 2)
                                       (newGenerator 2 100 100))))%nat).
  { rewrite (proj1 (drawNoise_dims 5000 (fun _ => 1 # 2) _)). vm_compute. lia. }
  assert (Hy : (0 < gen_smallH (fst (drawNoise 5000 (fun _ => 1 # 2)
                                       (newGenerator 2 100 100))))%nat).
  { rewrite (proj2 (drawNoise_dims 5000 (fun _ => 1 # 2) _)). vm_compute. lia. }
  destruct (blended_byte_lies_between _ _ _ 6000 (fun _ => 1 # 3) _ 0 0 0
              Hr Hg Hnow
              (proj2 (proj2 (drawNoise_clock 5000 (fun _ => 1 # 2) _ Hfirst)))
              Hx Hy ltac:(lia))
    as (cur & pv & v & _ & _ & Hv & _).
  exists v. exact Hv.
Defined.

(** X14.  The working buffer of every noise generator of a reachable page
    is cut for its canvas: each side is [max(64, floor(0.28 * side))] small
    pixels, so never below 64 and never above [max(64, side)], and the
    buffer holds four bytes for each of them. *)
Theorem noise_buffer_geometry (s : State) (id : positive) (g : NoiseGen) :
  ReachableVia anyEvent s ->
  generators s !! id = Some g ->
  Z.of_nat (gen_smallW g) = Z.max 64 (28 * gen_w g / 100) /\
  Z.of_nat (gen_smallH g) = Z.max 64 (28 * gen_h g / 100) /\
  64 <= Z.of_nat (gen_smallW g) <= Z.max 64 (gen_w g) /\
  64 <= Z.of_nat (gen_smallH g) <= Z.max 64 (gen_h g) /\
  length (gen_data g) = (4 * (gen_smallH g * gen_smallW g))%nat /\
  (4 * (64 * 64) <= length (gen_data g))%nat.
Proof.
  intros Hr Hg.
  assert (Hdim : gen_smallW g = smallDim (gen_w g) /\
                 gen_smallH g = smallDim (gen_h g)).
  { apply (reachable_generators anyEvent
             (fun g => gen_smallW g = smallDim (gen_w g) /\
                       gen_smallH g = smallDim (gen_h g)))
      with (s := s) (id := id); [done| |done|done].
    intros _ now rnd g0 _. apply dims_draw. }
  destruct (reachable_GensOk _ _ Hr _ _ Hg) as [Hlen _].
  assert (Hsmall : forall full,
            Z.of_nat (smallDim full) = Z.max 64 (28 * full / 100)).
  { intros full. unfold smallDim, scale.
    assert (Hfloor : Qfloor (inject_Z full * (28 # 100)) = 28 * full / 100).
    { unfold Qfloor, Qmult, inject_Z. simpl. f_equal; lia. }
    rewrite Hfloor. lia. }
  destruct Hdim as [HW HH]. rewrite Hlen, HW, HH, !Hsmall.
  assert (Hle : forall full, 28 * full / 100 <= Z.max 64 full).
  { intros full. destruct (Z.le_gt_cases full 0).
    - assert (28 * full / 100 <= 0) by (apply Z.div_le_upper_bound; lia). lia.
    - assert (28 * full / 100 <= full) by (apply Z.div_le_upper_bound; lia).
      lia. }
  pose proof (Hle (gen_w g)). pose proof (Hle (gen_h g)).
  pose proof (smallDim_min (gen_w g)). pose proof (smallDim_min (gen_h g)).
  repeat split; try lia.
Qed.

Lemma noise_buffer_geometry_witness :
  Z.of_nat (gen_smallW (newGenerator 2 100 100))
  = Z.max 64 (28 * gen_w (newGenerator 2 100 100) / 100).
Proof.
  assert (Hr : ReachableVia anyEvent
                 (step smallPage (EvLoadScene "cam-reactor" (1 # 2)))).
  { apply reach_step; [apply reach_init|exact I]. }
  assert (Hg : generators (step smallPage (EvLoadScene "cam-reactor" (1 # 2)))
               !! 1%positive = Some (newGenerator 2 100 100)).
  { vm_compute; reflexivity. }
  exact (proj1 (noise_buffer_geometry _ _ _ Hr Hg)).
Defined.

(* ===================================================================== *)
(** * Loading the sheet                                                   *)
(* ===================================================================== *)

Section Sheet.




End Sheet.


Section Registry.

Lemma registerEntries_snoc entries e cams :
  registerEntries (entries ++ [e]) cams
  = if String.eqb (camId (cameraOfEntry e)) ""
    then registerEntries entries cams
    else <[camId (cameraOfEntry e) := cameraOfEntry e]>
           (registerEntries entries cams).
Proof. unfold registerEntries. by rewrite foldl_app. Qed.

(** Row [k] is the last row of [entries] whose camera id is [id]. *)
Lemma last_row_snoc (entries : list Entry) (e : Entry) (id : string)
    (k : nat) (entry : Entry) :
  (k < length entries)%nat ->
  camId (cameraOfEntry e) <> id ->
  (entries !! k = Some entry /\
   forall j entry', (k < j)%nat -> entries !! j = Some entry' ->
     camId (cameraOfEntry entry') <> id) <->
  (((entries ++ [e])%list) !! k = Some entry /\
   forall j entry', (k < j)%nat -> ((entries ++ [e])%list) !! j = Some entry' ->
     camId (cameraOfEntry entry') <> id).
Proof.
  intros Hk Hne. rewrite lookup_app_l by done. split.
  - intros [Hentry Hlast]. split; [done|]. intros j entry' Hj Hj'.
    destruct (decide (j < length entries)%nat) as [Hlt|Hge].
    + rewrite lookup_app_l in Hj' by done. by eapply Hlast.
    + rewrite lookup_app_r in Hj' by lia.
      destruct (j - length entries)%nat as [|n] eqn:Hn; [|done].
      by injection Hj' as <-.
  - intros [Hentry Hlast]. split; [done|]. intros j entry' Hj Hj'.
    apply (Hlast j entry' Hj). rewrite lookup_app_l; [done|].
    by eapply lookup_lt_Some.
Qed.

Lemma registerEntries_lookup (entries : list Entry) (id : string)
    (cam : Camera) :
  registerEntries entries ∅ !! id = Some cam <->
  id <> "" /\
  exists k entry,
    entries !! k = Some entry /\ cam = cameraOfEntry entry /\
    camId cam = id /\
    forall j entry', (k < j)%nat -> entries !! j = Some entry' ->
      camId (cameraOfEntry entry') <> id.
Proof.
  revert cam. induction entries as [|e entries IH] using rev_ind; intros cam.
  { unfold registerEntries. simpl. rewrite lookup_empty. split; [done|].
    by intros (_ & k & entry & Hk & _). }
  rewrite registerEntries_snoc.
  assert (Hold : camId (cameraOfEntry e) <> id ->
            (registerEntries entries ∅ !! id = Some cam <->
             id <> "" /\
             exists k entry,
               ((entries ++ [e])%list) !! k = Some entry /\ cam = cameraOfEntry entry /\
               camId cam = id /\
               forall j entry', (k < j)%nat ->
                 ((entries ++ [e])%list) !! j = Some entry' ->
                 camId (cameraOfEntry entry') <> id)).
  { intros Hne. rewrite IH. split.
    - intros (Hid & k & entry & Hk & Hcam & Hcid & Hlast).
      split; [done|]. exists k, entry.
      pose proof (lookup_lt_Some _ _ _ Hk) as Hlt.
      destruct (proj1 (last_row_snoc entries e id k entry Hlt Hne)
                  (conj Hk Hlast)) as [Hk' Hlast'].
      done.
    - intros (Hid & k & entry & Hk & Hcam & Hcid & Hlast).
      split; [done|]. exists k, entry.
      assert (Hlt : (k < length entries)%nat).
      { destruct (decide (k < length entries)%nat) as [Hlt|Hge]; [done|].
        rewrite lookup_app_r in Hk by lia.
        destruct (k - length entries)%nat as [|n] eqn:Hn; [|done].
        injection Hk as <-. subst cam. done. }
      destruct (proj2 (last_row_snoc entries e id k entry Hlt Hne)
                  (conj Hk Hlast)) as [Hk' Hlast'].
      done. }
  destruct (String.eqb_spec (camId (cameraOfEntry e)) "") as [Hempty|Hfull].
  - destruct (decide (id = "")) as [->|Hid].
    + split; [|by intros [? _]]. intros H. by apply IH in H as [? _].
    + apply Hold. congruence.
  - destruct (decide (camId (cameraOfEntry e) = id)) as [<-|Hne].
    + rewrite lookup_insert_eq. split.
      * intros [= <-]. split; [done|]. exists (length entries), e.
        split; [by rewrite lookup_app_r, Nat.sub_diag|].
        split; [done|]. split; [done|]. intros j entry' Hj Hj'.
        apply lookup_lt_Some in Hj'. rewrite length_app in Hj'. simpl in Hj'.
        lia.
      * intros (_ & k & entry & Hk & -> & Hcid & Hlast). f_equal.
        destruct (decide (k < length entries)%nat) as [Hlt|Hge].
        -- exfalso. apply (Hlast (length entries) e Hlt); [|done].
           by rewrite lookup_app_r, Nat.sub_diag.
        -- rewrite lookup_app_r in Hk by lia.
           destruct (k - length entries)%nat as [|n] eqn:Hn; [|done].
           by injection Hk as <-.
    + rewrite lookup_insert_ne by done. by apply Hold.
Qed.

Lemma strOr_nonempty v d : d <> "" -> strOr v d <> "".
Proof. intros Hd. by destruct v as [[|c s]|]. Qed.

Lemma asciiUpper_idemp c : asciiUpper (asciiUpper c) = asciiUpper c.
Proof. by destruct c as [[] [] [] [] [] [] [] []]. Qed.

Lemma toUpperCase_idemp s : toUpperCase (toUpperCase s) = toUpperCase s.
Proof.
  induction s as [|c s IH]; [done|].
  unfold toUpperCase in *. simpl. by rewrite asciiUpper_idemp, IH.
Qed.

Lemma toUpperCase_nonempty s : s <> "" -> toUpperCase s <> "".
Proof. by destruct s. Qed.

Lemma numOr_truthy n d : truthyNum d = true -> truthyNum (numOr n d) = true.
Proof. intros Hd. unfold numOr. by destruct (truthyNum n) eqn:Hn. Qed.

Lemma intOr_nonzero n d : d <> 0 -> intOr n d <> 0.
Proof.
  intros Hd. unfold intOr. destruct n as [z|]; [|done].
  destruct (Z.eqb_spec z 0); done.
Qed.

End Registry.


(** X17.  Every camera of the registry is filed under its own id and has
    all its texts filled in: section, location, status, distance and HUD
    text are never empty, the status is in upper case, the pan duration is
    neither [NaN] nor zero and neither glitch bound is zero.  Nothing makes
    the bounds ordered or positive. *)
Theorem registered_camera_is_filled_in (entries : list Entry) (id : string)
    (cam : Camera) :
  registerEntries entries ∅ !! id = Some cam ->
  camId cam = id /\ id <> "" /\
  section cam <> "" /\ location cam <> "" /\ distance cam <> "" /\
  hudText cam <> "" /\
  status cam <> "" /\ toUpperCase (status cam) = status cam /\
  truthyNum (panDuration cam) = true /\
  glitchMinMs cam <> 0 /\ glitchMaxMs cam <> 0.
Proof.
  intros H. apply registerEntries_lookup in H
    as (Hid & k & entry & _ & -> & Hcid & _).
  split; [done|]. split; [done|].
  unfold cameraOfEntry;
    cbn [section location distance hudText status panDuration glitchMinMs
         glitchMaxMs].
  repeat split; try (by apply strOr_nonempty).
  - by apply toUpperCase_nonempty, strOr_nonempty.
  - apply toUpperCase_idemp.
  - by apply numOr_truthy.
  - by apply intOr_nonzero.
  - by apply intOr_nonzero.
Qed.

Lemma registered_camera_is_filled_in_witness :
  status (cameraOfEntry commsEntry) <> "" /\
  glitchMinMs (cameraOfEntry commsEntry) <> 0.
Proof.
  assert (H : registerEntries (parseSheetData sampleRows) ∅ !! "cam-comms"
              = Some (cameraOfEntry commsEntry)).
  { vm_compute; reflexivity. }
  destruct (registered_camera_is_filled_in _ _ _ H)
    as (_ & _ & _ & _ & _ & _ & Hs & _ & _ & Hmin & _).
  exact (conj Hs Hmin).
Defined.

(* ===================================================================== *)
(** * The camera list and the first selection                             *)
(* ===================================================================== *)

Section Sorting.

Context {A : Type} (le : A -> A -> bool) (P : A -> Prop).

Hypothesis le_total : forall a b, P a -> P b -> le a b = true \/ le b a = true.
Hypothesis le_trans : forall a b c, P a -> P b -> P c ->
  le a b = true -> le b c = true -> le a c = true.





End Sorting.

Section StringOrder.

Lemma ascii_compare_refl c : Ascii.compare c c = Eq.
Proof. apply N.compare_refl. Qed.

Lemma string_compare_refl s : String.compare s s = Eq.
Proof.
  induction s as [|c s IH]; [done|]. simpl. by rewrite ascii_compare_refl.
Qed.



End StringOrder.

Section Grouping.













End Grouping.

Section ListPanel.






End ListPanel.


Section PropertyOrder.



Lemma createKeys_snoc ids id keys :
  createKeys (ids ++ [id]) keys
  = if bool_decide (id ∈ createKeys ids keys) then createKeys ids keys
    else (createKeys ids keys ++ [id])%list.
Proof. unfold createKeys. by rewrite foldl_app. Qed.


Lemma createKeys_NoDup ids : NoDup (createKeys ids []).
Proof.
  induction ids as [|id ids IH] using rev_ind; [apply NoDup_nil_2|].
  rewrite createKeys_snoc.
  destruct (bool_decide_reflect (id ∈ createKeys ids [])) as [Hin|Hout];
    [done|].
  apply NoDup_app. split; [done|]. split; [|apply NoDup_singleton].
  intros x Hx ->%list_elem_of_singleton. done.
Qed.









End PropertyOrder.


Section LoadedPage.























End LoadedPage.







Section ListClicks.





End ListClicks.



(* ===================================================================== *)
(** * The clock                                                           *)
(* ===================================================================== *)

Section ClockText.

(** Below 100 the padded number is its two decimal digits, and reads back
    as the number. *)
Lemma padStart_two_digits n :
  (n < 100)%nat ->
  exists a b,
    padStart 2 "0" (numberToString n) = String a (String b EmptyString) /\
    parseInt (Some (String a (String b EmptyString))) = Some (Z.of_nat n).
Proof.
  intros Hn.
  set (check := fun n =>
         match padStart 2 "0" (numberToString n) with
         | String a (String b EmptyString) =>
             match parseInt (Some (String a (String b EmptyString))) with
             | Some z => z =? Z.of_nat n
             | None => false
             end
         | _ => false
         end).
  assert (Hall : forallb check (seq 0 100) = true) by (vm_compute; reflexivity).
  rewrite forallb_forall in Hall.
  assert (Hcheck : check n = true).
  { apply Hall, in_seq. lia. }
  unfold check in Hcheck.
  destruct (padStart 2 "0" (numberToString n)) as [|a [|b [|c rest]]];
    try discriminate.
  exists a, b. split; [done|].
  destruct (parseInt _) as [z|]; [|discriminate].
  by apply Z.eqb_eq in Hcheck as ->.
Qed.

End ClockText.

(** X24.  For a time of day the clock text has the fixed shape HH:MM:SS:
    eight characters, colons at the third and sixth place, and each pair of
    digits reads back as the hours, the minutes and the seconds. *)
Theorem clock_text_is_HH_MM_SS (hours minutes seconds : nat) :
  (hours < 24)%nat -> (minutes < 60)%nat -> (seconds < 60)%nat ->
  String.length (updateClock hours minutes seconds) = 8%nat /\
  String.substring 2 1 (updateClock hours minutes seconds) = ":" /\
  String.substring 5 1 (updateClock hours minutes seconds) = ":" /\
  parseInt (Some (String.substring 0 2 (updateClock hours minutes seconds)))
  = Some (Z.of_nat hours) /\
  parseInt (Some (String.substring 3 2 (updateClock hours minutes seconds)))
  = Some (Z.of_nat minutes) /\
  parseInt (Some (String.substring 6 2 (updateClock hours minutes seconds)))
  = Some (Z.of_nat seconds).
Proof.
  intros Hh Hm Hs. unfold updateClock.
  destruct (padStart_two_digits hours) as (a1 & b1 & -> & H1); [lia|].
  destruct (padStart_two_digits minutes) as (a2 & b2 & -> & H2); [lia|].
  destruct (padStart_two_digits seconds) as (a3 & b3 & -> & H3); [lia|].
  cbv [String.append String.length String.substring].
  by rewrite H1, H2, H3.
Qed.

Lemma clock_text_is_HH_MM_SS_witness :
  String.length (updateClock 9 5 0) = 8%nat.
Proof.
  exact (proj1 (clock_text_is_HH_MM_SS 9 5 0 ltac:(lia) ltac:(lia) ltac:(lia))).
Defined.
